(** * Red Rocks scenic-loop route analysis: model and verified properties

    Shallow embedding of [analyze_scenic_loop_path.py] and
    [create_area_summary_scenic.py].

    Numbers.  The geometry of the first script is carried out on Python
    floats.  It is modelled twice.  Module [FloatPath] has it on binary64
    floats, the numbers the program computes with, with the exceptions
    that [math.sqrt], the division and the wrappers of the [math] module
    raise; what the program does on a given input is stated there.
    Module [ScenicPath] has it on the real numbers [R] (exact
    arithmetic), with a raised exception as [None]; the positions and
    ranks that the data frames carry are stated there.  The grade parser
    and the aggregation of the second script are modelled on the
    rationals [Q], where every definition computes; the parser rounds to
    binary64 where Python converts to a float. *)

From Stdlib Require Import Reals Psatz Lia ZArith List Bool String Ascii.
From Stdlib Require Import QArith Qround Permutation Sorted.
From Stdlib Require Floats.
Import ListNotations.

(** ** Error monad for Python exceptions *)

Definition bind {A B : Type} (m : option A) (k : A -> option B) : option B :=
  match m with
  | Some a => k a
  | None => None
  end.

Notation "x <- m ;; k" := (bind m (fun x => k))
  (at level 61, m at next level, right associativity).
Notation "' p <- m ;; k" := (bind m (fun x => let p := x in k))
  (at level 61, p pattern, m at next level, right associativity).

(** ** The scenic loop geometry ([analyze_scenic_loop_path.py]) *)

Module ScenicPath.

Local Open Scope R_scope.

(** A waypoint is a [(lat, lon, label)] triple. *)
Record waypoint : Type := Waypoint {
  wp_lat : R;
  wp_lon : R;
  wp_label : string
}.

Definition SCENIC_LOOP_WAYPOINTS : list waypoint :=
  [ Waypoint 36.1588 (-115.4264) "Visitor Center / Entrance";
    Waypoint 36.1450 (-115.4450) "Early Drive Section";
    Waypoint 36.1300 (-115.4600) "Calico Hills Approach";
    Waypoint 36.1480 (-115.4280) "Calico Basin / First Pullout";
    Waypoint 36.1200 (-115.4700) "Central Canyon Area";
    Waypoint 36.1000 (-115.4800) "Southern Canyon Area";
    Waypoint 36.1100 (-115.5000) "Pine Creek Canyon";
    Waypoint 36.1150 (-115.4900) "Juniper Canyon";
    Waypoint 36.1250 (-115.4850) "Icebox Canyon Area";
    Waypoint 36.1350 (-115.4800) "Willow Spring Area";
    Waypoint 36.1500 (-115.4650) "Late Drive Section";
    Waypoint 36.1588 (-115.4264) "Return to Visitor Center" ].

(** [math.radians] *)
Definition radians (x : R) : R := x * (PI / 180).

(** [math.sqrt] raises [ValueError] on a negative argument. *)
Definition math_sqrt (x : R) : option R :=
  if Rlt_dec x 0 then None else Some (sqrt x).

(** [math.atan2 y x], the angle of the point [(x, y)] in [(-PI, PI]]. *)
Definition math_atan2 (y x : R) : R :=
  if Rlt_dec 0 x then atan (y / x)
  else if Rlt_dec x 0 then
    if Rle_dec 0 y then atan (y / x) + PI else atan (y / x) - PI
  else if Rlt_dec 0 y then PI / 2
  else if Rlt_dec y 0 then - (PI / 2)
  else 0.

(** The haversine intermediate term, the variable [a] of
    [calculate_distance]. *)
Definition haversine_term (lat1 lon1 lat2 lon2 : R) : R :=
  let lat1_rad := radians lat1 in
  let lat2_rad := radians lat2 in
  let delta_lat := radians (lat2 - lat1) in
  let delta_lon := radians (lon2 - lon1) in
  sin (delta_lat / 2) ^ 2
  + cos lat1_rad * cos lat2_rad * sin (delta_lon / 2) ^ 2.

(** The inverse trigonometric step,
    [c = 2 * math.atan2(math.sqrt(a), math.sqrt(1-a))]. *)
Definition central_angle (a : R) : option R :=
  s <- math_sqrt a ;;
  c <- math_sqrt (1 - a) ;;
  Some (2 * math_atan2 s c).

Definition calculate_distance (lat1 lon1 lat2 lon2 : R) : option R :=
  let R_earth := 3959 in
  c <- central_angle (haversine_term lat1 lon1 lat2 lon2) ;;
  Some (R_earth * c).

(** Python's two-argument [min] and [max]: the first argument is kept
    unless the second is strictly smaller (resp. larger). *)
Definition py_min (a b : R) : R := if Rlt_dec b a then b else a.
Definition py_max (a b : R) : R := if Rlt_dec a b then b else a.

Definition Req_bool (a b : R) : bool :=
  if Req_dec_T a b then true else false.

Definition distance_to_line_segment (px py x1 y1 x2 y2 : R)
  : option (R * R) :=
  let dx := x2 - x1 in
  let dy := y2 - y1 in
  if Req_bool dx 0 && Req_bool dy 0 then
    dist <- calculate_distance px py x1 y1 ;;
    Some (dist, 0)
  else
    let t := ((px - x1) * dx + (py - y1) * dy) / (dx * dx + dy * dy) in
    let t := py_max 0 (py_min 1 t) in
    let closest_x := x1 + t * dx in
    let closest_y := y1 + t * dy in
    distance <- calculate_distance px py closest_x closest_y ;;
    Some (distance, t).

(** Distances extended with [float('inf')], the initial [min_distance]. *)
Inductive xdist : Type :=
| Finite (d : R)
| Infinity.

(** [segment_distance < min_distance] *)
Definition dist_lt (d : R) (m : xdist) : bool :=
  match m with
  | Infinity => true
  | Finite m => if Rlt_dec d m then true else false
  end.

(** The three loop variables of [find_closest_waypoint_on_path]. *)
Record scan : Type := Scan {
  min_distance : xdist;
  closest_segment : nat;
  closest_position_on_segment : R
}.

Definition scan_init : scan := Scan Infinity 0 0.

(** The loop body's call of the segment projector on segment [i], from
    [waypoints[i]] to [waypoints[i + 1]]. *)
Definition segment_projection (wps : list waypoint) (lat lon : R) (i : nat)
  : option (R * R) :=
  wp1 <- nth_error wps i ;;
  wp2 <- nth_error wps (S i) ;;
  distance_to_line_segment lat lon
    (wp_lat wp1) (wp_lon wp1) (wp_lat wp2) (wp_lon wp2).

(** One iteration of the loop body, for segment index [i]. *)
Definition scan_step (wps : list waypoint) (lat lon : R)
  (st : option scan) (i : nat) : option scan :=
  st <- st ;;
  '(segment_distance, position_on_segment) <-
    segment_projection wps lat lon i ;;
  Some (if dist_lt segment_distance (min_distance st)
        then Scan (Finite segment_distance) i position_on_segment
        else st).

(** The loop over [range(len(waypoints) - 1)]. *)
Definition scan_segments (wps : list waypoint) (lat lon : R) : option scan :=
  fold_left (scan_step wps lat lon) (seq 0 (List.length wps - 1)) (Some scan_init).

(** The path projector, with the waypoint table it reads made explicit.
    Dividing by [total_segments = 0] raises [ZeroDivisionError]. *)
Definition find_closest_waypoint_on_path_with (wps : list waypoint) (lat lon : R)
  : option (R * xdist) :=
  st <- scan_segments wps lat lon ;;
  let total_segments := (Z.of_nat (List.length wps) - 1)%Z in
  if (total_segments =? 0)%Z then None
  else
    let path_position :=
      (INR (closest_segment st) + closest_position_on_segment st)
      / IZR total_segments in
    Some (path_position, min_distance st).

Definition find_closest_waypoint_on_path (lat lon : R) : option (R * xdist) :=
  find_closest_waypoint_on_path_with SCENIC_LOOP_WAYPOINTS lat lon.

(** *** Predicates used in the statements below *)

(** Coordinates away from the poles, with a normalised longitude. *)
Definition interior (lat lon : R) : Prop :=
  - 90 < lat < 90 /\ - 180 < lon <= 180.

(** After the first [n] segments have been scanned, the loop variables hold
    the earliest segment among them that attains the smallest distance. *)
Definition earliest_minimum (wps : list waypoint) (lat lon : R)
  (n : nat) (st : scan) : Prop :=
  exists m,
    min_distance st = Finite m
    /\ (closest_segment st < n)%nat
    /\ segment_projection wps lat lon (closest_segment st)
       = Some (m, closest_position_on_segment st)
    /\ (forall j d t, (j < n)%nat ->
          segment_projection wps lat lon j = Some (d, t) -> m <= d)
    /\ (forall j d t, (j < closest_segment st)%nat ->
          segment_projection wps lat lon j = Some (d, t) -> m < d).

End ScenicPath.

(** ** Route scoring ([create_area_summary_scenic.py]) *)


Module Scoring.

Local Open Scope string_scope.

(** A cell of a text column of the route table: missing ([pd.isna]) or a
    string.  Characters are code points below 256. *)
Inductive cell : Type :=
| NaN
| Str (s : string).

(** *** Python string primitives *)

Definition code (c : ascii) : N := N_of_ascii c.

(** [str.isspace] on one character; also the class [\s] of [re]. *)
Definition isspace (c : ascii) : bool :=
  let n := code c in
  ((9 <=? n) && (n <=? 13) || (28 <=? n) && (n <=? 32)
   || (n =? 133) || (n =? 160))%N.

(** The ASCII digits; the class [\d] of [re] below code point 256. *)
Definition is_decimal (c : ascii) : bool :=
  let n := code c in ((48 <=? n) && (n <=? 57))%N.

(** [str.isdigit] on one character: the ASCII digits and the superscript
    digits, which [int] then rejects. *)
Definition isdigit_char (c : ascii) : bool :=
  let n := code c in
  (is_decimal c || (n =? 178) || (n =? 179) || (n =? 185))%N.

(** [str.upper] on one character.  The three characters below 256 whose
    upper case is not a single code point below 256 (micro sign, sharp s,
    y with diaeresis) are left unchanged here. *)
Definition upper_char (c : ascii) : ascii :=
  let n := code c in
  if ((97 <=? n) && (n <=? 122)
      || (224 <=? n) && (n <=? 254) && negb (n =? 247))%N
  then ascii_of_N (n - 32) else c.

Fixpoint upper (s : string) : string :=
  match s with
  | "" => ""
  | String c s' => String (upper_char c) (upper s')
  end.

Fixpoint lstrip (s : string) : string :=
  match s with
  | "" => ""
  | String c s' => if isspace c then lstrip s' else s
  end.

Fixpoint rstrip (s : string) : string :=
  match s with
  | "" => ""
  | String c s' =>
      match rstrip s' with
      | "" => if isspace c then "" else String c ""
      | r => String c r
      end
  end.

Definition strip (s : string) : string := rstrip (lstrip s).

Definition startswith (s p : string) : bool := prefix p s.

(** [sub in s] *)
Fixpoint contains (sub s : string) : bool :=
  prefix sub s ||
  match s with
  | "" => false
  | String _ s' => contains sub s'
  end.

(** [s[n:]] *)
Fixpoint drop (n : nat) (s : string) : string :=
  match n, s with
  | O, _ => s
  | S n', String _ s' => drop n' s'
  | S _, "" => ""
  end.

(** [s[:-1]] and [s[-1]] of a non-empty string. *)
Fixpoint all_but_last (s : string) : string :=
  match s with
  | "" => ""
  | String c "" => ""
  | String c s' => String c (all_but_last s')
  end.

Fixpoint last_char (s : string) : option ascii :=
  match s with
  | "" => None
  | String c "" => Some c
  | String _ s' => last_char s'
  end.

(** [str.isdigit]: non-empty and every character a digit. *)
Fixpoint all_chars (p : ascii -> bool) (s : string) : bool :=
  match s with
  | "" => true
  | String c s' => p c && all_chars p s'
  end.

Definition isdigit (s : string) : bool :=
  negb (s =? "") && all_chars isdigit_char s.

(** [str.split()]: the maximal runs of non-whitespace characters.  The
    accumulator [word] holds the current run, reversed. *)
Fixpoint split_from (word : list ascii) (s : string) : list string :=
  let flush :=
    match word with
    | [] => []
    | _ => [string_of_list_ascii (rev word)]
    end in
  match s with
  | "" => flush
  | String c s' =>
      if isspace c then flush ++ split_from [] s'
      else split_from (c :: word) s'
  end.

Definition split (s : string) : list string := split_from [] s.

(** [re.sub(r'[+-]', '', s)] *)
Fixpoint remove_signs (s : string) : string :=
  match s with
  | "" => ""
  | String c s' =>
      if ((c =? "+") || (c =? "-"))%char then remove_signs s'
      else String c (remove_signs s')
  end.

(** The alternation [(PG13|PG|R|X|A\d|C\d)] tried in order at the start
    of [s]: the length of the first alternative that matches. *)
Definition modifier_length (s : string) : option nat :=
  if prefix "PG13" s then Some 4%nat
  else if prefix "PG" s then Some 2%nat
  else if prefix "R" s then Some 1%nat
  else if prefix "X" s then Some 1%nat
  else
    match s with
    | String c (String d _) =>
        if ((c =? "A") || (c =? "C"))%char && is_decimal d
        then Some 2%nat else None
    | _ => None
    end.

(** A match of [\s+(PG13|PG|R|X|A\d|C\d)] at the start of [s]: the
    greedy whitespace run, then the alternation; a shorter run leaves a
    whitespace character in front of the alternation, which then fails.
    The result is the length of the match. *)
Definition modifier_match (s : string) : option nat :=
  match s with
  | String c _ =>
      if isspace c then
        let rest := lstrip s in
        match modifier_length rest with
        | Some m => Some (String.length s - String.length rest + m)%nat
        | None => None
        end
      else None
  | "" => None
  end.

(** [re.sub(r'\s+(PG13|PG|R|X|A\d|C\d)', '', s)]: scan from the left,
    delete every match, resume after it.  [skip] counts the characters of
    the current match still to delete. *)
Fixpoint remove_modifiers_from (skip : nat) (s : string) : string :=
  match s with
  | "" => ""
  | String c s' =>
      match skip with
      | S k => remove_modifiers_from k s'
      | O =>
          match modifier_match s with
          | Some len => remove_modifiers_from (len - 1) s'
          | None => String c (remove_modifiers_from 0 s')
          end
      end
  end.

Definition remove_modifiers (s : string) : string :=
  remove_modifiers_from 0 s.

(** *** Python numbers *)

Local Open Scope Q_scope.

Definition digit_value (c : ascii) : Z := Z.of_N (code c) - 48.

(** The value of a string of ASCII digits, most significant first. *)
Fixpoint digits_value (acc : Z) (s : string) : Z :=
  match s with
  | ""%string => acc
  | String c s' => digits_value (10 * acc + digit_value c) s'
  end.

(** [int(s)] for [s] made of [str.isdigit] characters: the superscript
    digits raise [ValueError]. *)
Definition py_int (s : string) : option Z :=
  if negb (s =? "")%string && all_chars is_decimal s
  then Some (digits_value 0 s) else None.

Definition pow2 (k : Z) : Q :=
  if (0 <=? k)%Z then inject_Z (2 ^ k) else / inject_Z (2 ^ (- k)).

Definition Qlt_bool (a b : Q) : bool := negb (Qle_bool b a).

(** Rounding to the nearest integer, ties to even. *)
Definition round_half_even (x : Q) : Z :=
  let f := Qfloor x in
  let r := x - inject_Z f in
  if Qlt_bool r (1 # 2) then f
  else if Qlt_bool (1 # 2) r then (f + 1)%Z
  else if Z.even f then f else (f + 1)%Z.

(** [floor (log2 x)] for [0 < x]. *)
Definition Qlog2 (x : Q) : Z :=
  let e := (Z.log2 (Qnum x) - Z.log2 (Zpos (Qden x)))%Z in
  if Qle_bool (pow2 e) x then e else (e - 1)%Z.

(** The float [inf], which only [float] of an over-long literal yields.
    It is represented by [2^1024]: the program only compares it with
    constants below [13]. *)
Definition float_inf : Q := pow2 1024.

(** The binary64 number nearest to [0 <= x] (ties to even), with gradual
    underflow and overflow to [inf]. *)
Definition binary64 (x : Q) : Q :=
  if Qle_bool x 0 then 0
  else
    let quantum := pow2 (Z.max (Qlog2 x - 52) (- 1074)) in
    let y := Qred (inject_Z (round_half_even (x / quantum)) * quantum) in
    if Qle_bool float_inf y then float_inf else y.

(** [float(n)] of an integer: [OverflowError] beyond the largest float. *)
Definition float_of_int (n : Z) : option Q :=
  let y := binary64 (inject_Z (Z.abs n)) in
  if Qle_bool float_inf y then None
  else Some (if (n <? 0)%Z then - y else y).

(** [float] accepts an underscore only between two digits. *)
Fixpoint underscores_ok (prev_digit : bool) (s : string) : bool :=
  match s with
  | ""%string => true
  | String c s' =>
      if (c =? "_")%char then
        prev_digit
        && match s' with
           | String d _ => is_decimal d
           | ""%string => false
           end
        && underscores_ok false s'
      else underscores_ok (is_decimal c) s'
  end.

Fixpoint remove_underscores (s : string) : string :=
  match s with
  | ""%string => ""%string
  | String c s' =>
      if (c =? "_")%char then remove_underscores s'
      else String c (remove_underscores s')
  end.

(** The longest prefix of ASCII digits and the rest. *)
Fixpoint span_digits (s : string) : string * string :=
  match s with
  | String c s' =>
      if is_decimal c then
        let '(ds, rest) := span_digits s' in (String c ds, rest)
      else (""%string, s)
  | ""%string => (""%string, ""%string)
  end.

Definition pow10 (k : Z) : Q :=
  if (0 <=? k)%Z then inject_Z (10 ^ k) else / inject_Z (10 ^ (- k)).

(** [float(s)] for an upper-cased string without sign and whitespace:
    digits, an optional point and digits, an optional exponent [E] and
    digits, at least one digit in the mantissa.  Anything else raises
    [ValueError]. *)
Definition py_float (s : string) : option Q :=
  if underscores_ok false s then
    let s := remove_underscores s in
    let '(int_part, rest) := span_digits s in
    let '(frac_part, rest) :=
      match rest with
      | String "." rest' => span_digits rest'
      | _ => (""%string, rest)
      end in
    let exponent :=
      match rest with
      | ""%string => Some 0%Z
      | String "E" ds => py_int ds
      | _ => None
      end in
    match exponent with
    | Some e =>
        if ((int_part =? "") && (frac_part =? ""))%string then None
        else
          let mantissa := digits_value 0 (int_part ++ frac_part) in
          Some (binary64
                  (inject_Z mantissa
                   * pow10 (e - Z.of_nat (String.length frac_part))))
    | None => None
    end
  else None.

(** [letter_values.get(letter)] *)
Definition letter_values (letter : ascii) : option Q :=
  if (letter =? "A")%char then Some 0
  else if (letter =? "B")%char then Some (1 # 4)
  else if (letter =? "C")%char then Some (1 # 2)
  else if (letter =? "D")%char then Some (3 # 4)
  else None.

(** *** The scoring functions *)

(** The body of the [try] block of [parse_rating]; [None] stands for a
    raised exception. *)
Definition parse_yds (rating : string) : option Q :=
  let parts := split (drop 2 rating) in
  let base_rating := match parts with p :: _ => p | [] => ""%string end in
  let clean_rating := remove_signs base_rating in
  if isdigit clean_rating then
    num_rating <- py_int clean_rating ;;
    Some (inject_Z num_rating)
  else if contains "." clean_rating then
    py_float clean_rating
  else if (2 <=? String.length clean_rating)%nat
          && isdigit (all_but_last clean_rating) then
    base_num <- py_int (all_but_last clean_rating) ;;
    letter <- last_char clean_rating ;;
    match letter_values letter with
    | Some offset =>
        base_float <- float_of_int base_num ;;
        Some (binary64 (base_float + offset))
    | None => Some (inject_Z base_num)
    end
  else Some 0.

Definition parse_rating (rating_str : cell) : Q :=
  match rating_str with
  | NaN => 0
  | Str s =>
      if (s =? "")%string then 0
      else
        let rating := upper (strip s) in
        let rating := remove_modifiers rating in
        if startswith rating "5." then
          match parse_yds rating with
          | Some num_rating => num_rating
          | None => 0
          end
        else 0
  end.

Definition calculate_difficulty_score (rating_str : cell) : Z :=
  let difficulty := parse_rating rating_str in
  if Qeq_bool difficulty 0 then 0
  else if Qle_bool 7 difficulty && Qle_bool difficulty (43 # 4) then 2
  else if Qlt_bool difficulty 7 then 1
  else 0.

Definition calculate_route_type_score (route_type_str : cell) : Z :=
  match route_type_str with
  | NaN => 0
  | Str s =>
      let route_type := strip s in
      if contains "Sport" route_type then 1
      else if contains "Multi-Pitch" route_type then (-1)
      else 0
  end.

Definition categorize_grade (rating_str : cell) : string :=
  let difficulty := parse_rating rating_str in
  if Qeq_bool difficulty 0 then "unknown"
  else if Qle_bool difficulty (27 # 4) then "5.0-5.6"
  else if Qle_bool 7 difficulty && Qle_bool difficulty (35 # 4) then "5.7-5.8"
  else if Qle_bool 9 difficulty && Qle_bool difficulty (43 # 4) then "5.9-5.10"
  else if Qle_bool 11 difficulty && Qle_bool difficulty (47 # 4) then "5.11"
  else if Qle_bool 12 difficulty then "5.12+"
  else "unknown".

End Scoring.

(** ** Data frames *)

(** A frame is a list of rows, in row order; a float cell is [None] when
    it holds NaN. *)
Module Pandas.

Section SortValues.

Context {A : Type}.
Variable leb : A -> A -> bool.

(** [x] is placed in front of the first row that does not precede it, so
    rows with equal keys keep their order. *)
Fixpoint insert_row (x : A) (l : list A) : list A :=
  match l with
  | [] => [x]
  | y :: l' => if leb x y then x :: l else y :: insert_row x l'
  end.

(** [DataFrame.sort_values]: ascending, NaN last.  pandas leaves the
    order of rows with equal keys open; this model keeps it. *)
Fixpoint sort_values (l : list A) : list A :=
  match l with
  | [] => []
  | x :: l' => insert_row x (sort_values l')
  end.

(** [x] may stand before [y] in the sorted frame. *)
Definition precedes (x y : A) : Prop := leb x y = true.

End SortValues.

(** The label-aligned read of a column of a frame with the default index
    [0, 1, ..., n-1]: a label outside the index gives NaN. *)
Definition at_label {X : Type} (column : list X) (label : Z) : option X :=
  if (0 <=? label)%Z then nth_error column (Z.to_nat label) else None.

End Pandas.

(** ** Route-to-path assignment ([analyze_scenic_loop_path.py]) *)

Module ScenicOrder.

Import ScenicPath Pandas.
Local Open Scope R_scope.

(** A row of the frame inside [load_data], after [read_csv] and the split
    of the location, before rows are dropped. *)
Record loaded_row : Type := LoadedRow {
  loaded_index : Z;
  loaded_Route : string;
  loaded_Area : string;
  loaded_Canyon : string;
  loaded_Latitude : option R;
  loaded_Longitude : option R
}.

(** A row of the frame handed to [analyze_scenic_loop_order]. *)
Record row : Type := Row {
  index : Z;
  Route : string;
  Area : string;
  Canyon : string;
  Latitude : R;
  Longitude : R
}.

(** [read_csv] labels the rows [0, 1, ..., n-1]. *)
Definition range_index (n : nat) : list Z := map Z.of_nat (seq 0 n).

(** The last step of [load_data]: [dropna] on the coordinates, then the
    filter on non-zero coordinates.  The rows kept retain their labels. *)
Definition drop_invalid_coordinates (df : list loaded_row) : list row :=
  flat_map
    (fun r =>
       match loaded_Latitude r, loaded_Longitude r with
       | Some lat, Some lon =>
           if negb (Req_bool lat 0) && negb (Req_bool lon 0)
           then [Row (loaded_index r) (loaded_Route r) (loaded_Area r)
                     (loaded_Canyon r) lat lon]
           else []
       | _, _ => []
       end)
    df.

(** A row with the two added columns. *)
Record positioned : Type := Positioned {
  route : row;
  Path_Position : option R;
  Distance_to_Road : option xdist
}.

(** A row of the result, with the rank. *)
Record ranked : Type := Ranked {
  placed : positioned;
  Scenic_Loop_Order : Z
}.

(** The loop over [df.iterrows()] that fills [path_data]. *)
Fixpoint path_data (df : list row) : option (list (R * xdist)) :=
  match df with
  | [] => Some []
  | r :: df' =>
      p <- find_closest_waypoint_on_path (Latitude r) (Longitude r) ;;
      rest <- path_data df' ;;
      Some (p :: rest)
  end.

(** Comparison of the sort keys, NaN last. *)
Definition position_leb (a b : positioned) : bool :=
  match Path_Position a, Path_Position b with
  | _, None => true
  | None, Some _ => false
  | Some x, Some y => if Rle_dec x y then true else false
  end.

(** [df['Scenic_Loop_Order'] = range(1, len(df) + 1)], by position. *)
Fixpoint assign_ranks (first : Z) (df : list positioned) : list ranked :=
  match df with
  | [] => []
  | r :: df' => Ranked r first :: assign_ranks (first + 1) df'
  end.

(** [path_df] has the default index, and assigning one of its columns to
    [df] aligns it with the labels of [df].  [pd.DataFrame([])] has no
    columns: on an empty frame the column read raises [KeyError]. *)
Definition analyze_scenic_loop_order (df : list row) : option (list ranked) :=
  path_df <- path_data df ;;
  match path_df with
  | [] => None
  | _ =>
      let df :=
        map (fun r =>
               Positioned r
                 (at_label (map fst path_df) (index r))
                 (at_label (map snd path_df) (index r)))
            df in
      let df := sort_values position_leb df in
      Some (assign_ranks 1 df)
  end.

(** The pair the path projector computes from a row's own coordinate. *)
Definition own_projection (r : row) : option (R * xdist) :=
  find_closest_waypoint_on_path (Latitude r) (Longitude r).

End ScenicOrder.

(** ** Area aggregation ([create_area_summary_scenic.py]) *)

Module AreaSummary.

Import Pandas Scoring.
Local Open Scope Q_scope.

(** The columns of the route table read by the aggregation that concern
    the position along the drive.  Missing cells are [NaN] / [None]. *)
Record row : Type := Row {
  Route : cell;
  Area : cell;
  Canyon : cell;
  Path_Position : option Q;
  Scenic_Loop_Order : option Z
}.

(** A row of the summary, with the columns renamed as in the source.  The
    score, star, coordinate and count columns of the summary do not enter
    the columns kept here. *)
Record area : Type := AreaRow {
  area_Area : string;
  area_Canyon : string;
  num_routes : Z;
  avg_path_position : option Q;
  first_scenic_order : option Z
}.

(** The group key of a row; [groupby] drops rows with a missing key. *)
Definition group_key (r : row) : option (string * string) :=
  match Area r, Canyon r with
  | Str a, Str c => Some (a, c)
  | _, _ => None
  end.

Definition key_eqb (k1 k2 : string * string) : bool :=
  ((fst k1 =? fst k2) && (snd k1 =? snd k2))%string.

Definition in_group (k : string * string) (r : row) : bool :=
  match group_key r with
  | Some k' => key_eqb k k'
  | None => false
  end.

(** Lexicographic order of the keys, by which [groupby] sorts the groups. *)
Definition key_leb (k1 k2 : string * string) : bool :=
  match String.compare (fst k1) (fst k2) with
  | Lt => true
  | Gt => false
  | Eq => String.leb (snd k1) (snd k2)
  end.

(** The distinct keys, each at its first occurrence. *)
Fixpoint distinct_keys (seen : list (string * string))
  (df : list row) : list (string * string) :=
  match df with
  | [] => []
  | r :: df' =>
      match group_key r with
      | Some k =>
          if existsb (key_eqb k) seen then distinct_keys seen df'
          else k :: distinct_keys (k :: seen) df'
      | None => distinct_keys seen df'
      end
  end.

(** [df.groupby(['Area', 'Canyon'])]: the groups in key order, each with
    its rows in frame order. *)
Definition groupby (df : list row)
  : list ((string * string) * list row) :=
  map (fun k => (k, filter (in_group k) df))
      (sort_values key_leb (distinct_keys [] df)).

(** The values of a column that are not missing. *)
Definition present {X : Type} (column : list (option X)) : list X :=
  flat_map (fun c => match c with Some x => [x] | None => [] end) column.

(** ['count']: the number of cells that are not missing. *)
Definition agg_count (column : list cell) : Z :=
  Z.of_nat
    (List.length
       (filter (fun c => match c with Str _ => true | NaN => false end)
               column)).

Definition Qsum (l : list Q) : Q := fold_right Qplus 0 l.

(** ['mean']: missing cells are skipped; NaN when none is left. *)
Definition agg_mean (column : list (option Q)) : option Q :=
  match present column with
  | [] => None
  | xs => Some (Qsum xs / inject_Z (Z.of_nat (List.length xs)))
  end.

(** ['min']: missing cells are skipped; NaN when none is left. *)
Definition agg_min (column : list (option Z)) : option Z :=
  match present column with
  | [] => None
  | x :: xs => Some (fold_right Z.min x xs)
  end.

(** [.round(4)] on a float: to the nearest multiple of [1/10000], ties to
    even. *)
Definition round4 (x : Q) : Q :=
  Qred (inject_Z (round_half_even (x * 10000)) / 10000).

(** Comparison of the sort keys, NaN last. *)
Definition order_leb (a b : area) : bool :=
  match first_scenic_order a, first_scenic_order b with
  | _, None => true
  | None, Some _ => false
  | Some x, Some y => (x <=? y)%Z
  end.

(** The row of the summary for one group: the aggregates of [agg], then
    [.round(4)], under the renamed columns. *)
Definition aggregate (g : (string * string) * list row) : area :=
  let '((a, c), rows) := g in
  AreaRow a c
    (agg_count (map Route rows))
    (option_map round4 (agg_mean (map Path_Position rows)))
    (agg_min (map Scenic_Loop_Order rows)).

(** The aggregation and the final [sort_values('first_scenic_order')] of
    [create_area_summary_scenic]. *)
Definition create_area_summary_scenic (df : list row) : list area :=
  sort_values order_leb (map aggregate (groupby df)).

(** The summary row of the rows of [df] with key [k]. *)
Definition summarise (df : list row) (k : string * string) : area :=
  aggregate (k, filter (in_group k) df).

(** The same summary sorted by mean progress, as [analyze_climbing_areas]
    of the first script orders its areas. *)
Definition progress_leb (a b : area) : bool :=
  match avg_path_position a, avg_path_position b with
  | _, None => true
  | None, Some _ => false
  | Some x, Some y => Qle_bool x y
  end.

End AreaSummary.

(** ** The remaining route scores ([create_area_summary_scenic.py]) *)

Module RouteScore.

Import Scoring.
Local Open Scope Q_scope.

(** A cell of a numeric column: a finite number, or [None] for NaN. *)
Definition number : Type := option Q.

(** The columns of a route that enter its score. *)
Record route : Type := Route {
  Rating : cell;
  Route_Type : cell;
  Pitches : number;
  Avg_Stars : number
}.

(** [int(x)] of a number: rounding towards zero. *)
Definition py_int_of_number (x : Q) : Z := Z.quot (Qnum x) (Zpos (Qden x)).

Definition calculate_pitch_score (pitches : number) : Z :=
  match pitches with
  | None => 0
  | Some p =>
      let pitch_count := py_int_of_number p in
      if (1 <? pitch_count)%Z then (-1) else 0
  end.

Definition calculate_stars_score (avg_stars : number) : Q :=
  match avg_stars with
  | None => 0
  | Some s => if Qle_bool s 0 then 0 else s
  end.

(** The column [total_score], row by row. *)
Definition total_score (r : route) : Q :=
  1
  + inject_Z (calculate_difficulty_score (Rating r))
  + inject_Z (calculate_route_type_score (Route_Type r))
  + inject_Z (calculate_pitch_score (Pitches r))
  + calculate_stars_score (Avg_Stars r).

(** The strings removed by the modifier pattern when they follow a grade
    after one space. *)
Definition protection_modifiers : list string :=
  [ "PG13"; "PG"; "R"; "X";
    "A0"; "A1"; "A2"; "A3"; "A4"; "A5"; "A6"; "A7"; "A8"; "A9";
    "C0"; "C1"; "C2"; "C3"; "C4"; "C5"; "C6"; "C7"; "C8"; "C9" ]%string.

(** No character of [s] is white space. *)
Definition no_space (s : string) : Prop :=
  all_chars (fun c => negb (isspace c)) s = true.

(** Every character of [s] is white space. *)
Definition blank (s : string) : Prop := all_chars isspace s = true.

End RouteScore.

(** ** Rows kept by [load_data] *)

Module LoadedRows.

Import ScenicPath ScenicOrder.
Local Open Scope R_scope.

(** The loaded row [l] has both coordinates, neither of them zero, and
    [r] is that row as [load_data] hands it on. *)
Definition kept_as (l : loaded_row) (r : row) : Prop :=
  loaded_Latitude l = Some (Latitude r)
  /\ loaded_Longitude l = Some (Longitude r)
  /\ Latitude r <> 0 /\ Longitude r <> 0
  /\ index r = loaded_index l
  /\ Route r = loaded_Route l
  /\ Area r = loaded_Area l
  /\ Canyon r = loaded_Canyon l.

(** The loaded row [l] is dropped: a coordinate is missing or zero. *)
Definition dropped (l : loaded_row) : Prop := forall r, ~ kept_as l r.

End LoadedRows.

(** ** The scenic loop geometry on binary64 floats

    The functions of [analyze_scenic_loop_path.py] once more, on the
    numbers Python computes with: IEEE 754 binary64 floats, whose
    arithmetic, comparisons and square root are those of the kernel's
    primitive floats.  A raised exception is kept with its class.  The
    functions [sin], [cos], [atan2] and [pow] of the platform's C library
    are not determined by the language; they are parameters.  The checks
    that CPython's [math] module and [float.__pow__] wrap around them are
    part of the model (mathmodule.c: [math_1], [math_2], [m_atan2];
    floatobject.c: [float_pow], [float_div]), under the assumption that the
    C library sets [errno] only together with a result that is NaN, an
    infinity or zero.  The arguments are Python floats, as the waypoints
    are (a [numpy.float64], which the cell of a data frame is, has the
    same arithmetic but divides by zero without raising). *)

Module FloatPath.

Import PrimFloat.
Local Set Warnings "-inexact-float".
Local Open Scope float_scope.

Inductive exception : Type :=
| ValueError
| ZeroDivisionError
| OverflowError
| IndexError.

(** What a call does: it returns a value or raises. *)
Inductive outcome (A : Type) : Type :=
| Ok (a : A)
| Raise (e : exception).

Arguments Ok {A} a.
Arguments Raise {A} e.

Definition and_then {A B : Type} (m : outcome A) (k : A -> outcome B)
  : outcome B :=
  match m with
  | Ok a => k a
  | Raise e => Raise e
  end.

Notation "x <-- m ;; k" := (and_then m (fun x => k))
  (at level 61, m at next level, right associativity).
Notation "' p <-- m ;; k" := (and_then m (fun x => let p := x in k))
  (at level 61, p pattern, m at next level, right associativity).

(** A waypoint is a [(lat, lon, label)] triple. *)
Record waypoint : Type := Waypoint {
  wp_lat : float;
  wp_lon : float;
  wp_label : string
}.

Definition SCENIC_LOOP_WAYPOINTS : list waypoint :=
  [ Waypoint 36.1588 (-115.4264) "Visitor Center / Entrance";
    Waypoint 36.1450 (-115.4450) "Early Drive Section";
    Waypoint 36.1300 (-115.4600) "Calico Hills Approach";
    Waypoint 36.1480 (-115.4280) "Calico Basin / First Pullout";
    Waypoint 36.1200 (-115.4700) "Central Canyon Area";
    Waypoint 36.1000 (-115.4800) "Southern Canyon Area";
    Waypoint 36.1100 (-115.5000) "Pine Creek Canyon";
    Waypoint 36.1150 (-115.4900) "Juniper Canyon";
    Waypoint 36.1250 (-115.4850) "Icebox Canyon Area";
    Waypoint 36.1350 (-115.4800) "Willow Spring Area";
    Waypoint 36.1500 (-115.4650) "Late Drive Section";
    Waypoint 36.1588 (-115.4264) "Return to Visitor Center" ].

(** [Py_MATH_PI] and [math.radians], which multiplies by [pi / 180]. *)
Definition Py_MATH_PI : float := 3.14159265358979323846.
Definition degToRad : float := Py_MATH_PI / 180.
Definition math_radians (x : float) : float := x * degToRad.

(** [copysign] of C, for arguments that are not NaN. *)
Definition copysign (x y : float) : float :=
  if get_sign y then - abs x else abs x.

(** [a / b] on floats raises [ZeroDivisionError] when [b == 0.0]. *)
Definition float_div (a b : float) : outcome float :=
  if b =? 0 then Raise ZeroDivisionError else Ok (a / b).

(** Python's two-argument [min] and [max]: the first argument is kept
    unless the second is strictly smaller (resp. larger); a NaN is never
    strictly smaller or larger. *)
Definition py_min (a b : float) : float := if b <? a then b else a.
Definition py_max (a b : float) : float := if a <? b then b else a.

(** [float(n)] for the small integers of the program. *)
Fixpoint float_of_nat (n : nat) : float :=
  match n with
  | O => 0
  | S n' => float_of_nat n' + 1
  end.

Definition float_of_Z (z : Z) : float :=
  match z with
  | Z0 => 0
  | Zpos p => float_of_nat (Pos.to_nat p)
  | Zneg p => - float_of_nat (Pos.to_nat p)
  end.

Section Libm.

(** The C library: [sin], [cos], [atan2] and [pow (x, 2.0)]. *)
Variable libm_sin : float -> float.
Variable libm_cos : float -> float.
Variable libm_atan2 : float -> float -> float.
Variable libm_pow2 : float -> float.

(** [math_1]: a NaN from an argument that is not NaN, and an infinity
    from a finite argument, raise [ValueError]. *)
Definition math_1 (func : float -> float) (x : float) : outcome float :=
  let r := func x in
  if is_nan r && negb (is_nan x) then Raise ValueError
  else if is_infinity r && is_finite x then Raise ValueError
  else Ok r.

Definition math_sin : float -> outcome float := math_1 libm_sin.
Definition math_cos : float -> outcome float := math_1 libm_cos.

(** [math.sqrt]: the correctly rounded square root, NaN on a negative
    argument, which raises [ValueError]. *)
Definition math_sqrt : float -> outcome float := math_1 sqrt.

(** [m_atan2] treats the special cases itself. *)
Definition m_atan2 (y x : float) : float :=
  if is_nan x || is_nan y then nan
  else if is_infinity y then
    if is_infinity x then
      if copysign 1 x =? 1 then copysign (0.25 * Py_MATH_PI) y
      else copysign (0.75 * Py_MATH_PI) y
    else copysign (0.5 * Py_MATH_PI) y
  else if is_infinity x || (y =? 0) then
    if copysign 1 x =? 1 then copysign 0 y
    else copysign Py_MATH_PI y
  else libm_atan2 y x.

(** [math.atan2], through [math_2]. *)
Definition math_atan2 (y x : float) : outcome float :=
  let r := m_atan2 y x in
  if is_nan r then
    if negb (is_nan y) && negb (is_nan x) then Raise ValueError else Ok r
  else if is_infinity r then
    if is_finite y && is_finite x then Raise OverflowError else Ok r
  else Ok r.

(** [x ** 2] on a float: [float_pow] with the exponent [2.0]. *)
Definition float_pow2 (iv : float) : outcome float :=
  if is_nan iv then Ok iv
  else if is_infinity iv then Ok (abs iv)
  else if iv =? 0 then Ok 0
  else
    let iv := if iv <? 0 then - iv else iv in
    if iv =? 1 then Ok 1
    else
      let ix := libm_pow2 iv in
      if is_infinity ix then Raise OverflowError else Ok ix.

(** The haversine intermediate term, the variable [a] of
    [calculate_distance]. *)
Definition haversine_term (lat1 lon1 lat2 lon2 : float) : outcome float :=
  let lat1_rad := math_radians lat1 in
  let lat2_rad := math_radians lat2 in
  let delta_lat := math_radians (lat2 - lat1) in
  let delta_lon := math_radians (lon2 - lon1) in
  s1 <-- math_sin (delta_lat / 2) ;;
  h1 <-- float_pow2 s1 ;;
  c1 <-- math_cos lat1_rad ;;
  c2 <-- math_cos lat2_rad ;;
  s2 <-- math_sin (delta_lon / 2) ;;
  h2 <-- float_pow2 s2 ;;
  Ok (h1 + c1 * c2 * h2).

(** The inverse trigonometric step,
    [c = 2 * math.atan2(math.sqrt(a), math.sqrt(1-a))]. *)
Definition central_angle (a : float) : outcome float :=
  s <-- math_sqrt a ;;
  c <-- math_sqrt (1 - a) ;;
  r <-- math_atan2 s c ;;
  Ok (2 * r).

Definition calculate_distance (lat1 lon1 lat2 lon2 : float)
  : outcome float :=
  let R_earth := 3959 in
  a <-- haversine_term lat1 lon1 lat2 lon2 ;;
  c <-- central_angle a ;;
  Ok (R_earth * c).

Definition distance_to_line_segment (px py x1 y1 x2 y2 : float)
  : outcome (float * float) :=
  let dx := x2 - x1 in
  let dy := y2 - y1 in
  if (dx =? 0) && (dy =? 0) then
    dist <-- calculate_distance px py x1 y1 ;;
    Ok (dist, 0)
  else
    t <-- float_div ((px - x1) * dx + (py - y1) * dy) (dx * dx + dy * dy) ;;
    let t := py_max 0 (py_min 1 t) in
    let closest_x := x1 + t * dx in
    let closest_y := y1 + t * dy in
    distance <-- calculate_distance px py closest_x closest_y ;;
    Ok (distance, t).

(** The three loop variables of [find_closest_waypoint_on_path]. *)
Record scan : Type := Scan {
  min_distance : float;
  closest_segment : nat;
  closest_position_on_segment : float
}.

(** [min_distance = float('inf')] *)
Definition scan_init : scan := Scan infinity 0 0.

(** The loop body's call of the segment projector on segment [i], from
    [waypoints[i]] to [waypoints[i + 1]]. *)
Definition segment_projection (wps : list waypoint) (lat lon : float)
  (i : nat) : outcome (float * float) :=
  match nth_error wps i, nth_error wps (S i) with
  | Some wp1, Some wp2 =>
      distance_to_line_segment lat lon
        (wp_lat wp1) (wp_lon wp1) (wp_lat wp2) (wp_lon wp2)
  | _, _ => Raise IndexError
  end.

(** One iteration of the loop body, for segment index [i]. *)
Definition scan_step (wps : list waypoint) (lat lon : float)
  (st : outcome scan) (i : nat) : outcome scan :=
  st <-- st ;;
  '(segment_distance, position_on_segment) <--
    segment_projection wps lat lon i ;;
  Ok (if segment_distance <? min_distance st
      then Scan segment_distance i position_on_segment
      else st).

(** The loop over [range(len(waypoints) - 1)]. *)
Definition scan_segments (wps : list waypoint) (lat lon : float)
  : outcome scan :=
  fold_left (scan_step wps lat lon) (seq 0 (List.length wps - 1))
            (Ok scan_init).

(** The path projector, with the waypoint table it reads made explicit. *)
Definition find_closest_waypoint_on_path_with (wps : list waypoint)
  (lat lon : float) : outcome (float * float) :=
  st <-- scan_segments wps lat lon ;;
  let total_segments := (Z.of_nat (List.length wps) - 1)%Z in
  path_position <--
    float_div (float_of_nat (closest_segment st)
               + closest_position_on_segment st)
              (float_of_Z total_segments) ;;
  Ok (path_position, min_distance st).

Definition find_closest_waypoint_on_path (lat lon : float)
  : outcome (float * float) :=
  find_closest_waypoint_on_path_with SCENIC_LOOP_WAYPOINTS lat lon.

End Libm.

(** *** A reference C library

    Sine and cosine in fixed point with 128 fractional bits (the argument
    reduced by a multiple of [2 pi], then the power series), rounded to
    the nearest float; [pow (x, 2.0)] as the correctly rounded square; the
    arc tangent by halving the angle twice and the series of the rest.
    The theorems below hold for every C library that agrees with the
    stated values; this one does. *)

(** [x * 2^128], truncated. *)
Definition fixed_of_float (x : float) : Z :=
  match FloatOps.Prim2SF x with
  | SpecFloat.S754_finite s m e =>
      let n := Z.shiftl (Zpos m) (e + 128) in
      if s then (- n)%Z else n
  | _ => 0%Z
  end.

(** The float nearest to [n / 2^128]. *)
Definition float_of_fixed (n : Z) : float :=
  let y := Qred (Scoring.binary64 (inject_Z (Z.abs n) / inject_Z (2 ^ 128))) in
  match Qnum y with
  | Zpos m =>
      FloatOps.SF2Prim
        (SpecFloat.S754_finite (n <? 0)%Z m (- Z.log2 (Zpos (Qden y))))
  | _ => 0
  end.

(** [2 pi * 2^128], rounded. *)
Definition fixed_two_pi : Z := 2138057168129933495719360746323741566601.

Definition fixed_reduce (n : Z) : Z :=
  (n - ((2 * n + fixed_two_pi) / (2 * fixed_two_pi)) * fixed_two_pi)%Z.

Fixpoint power_series (n : nat) (k : Z) (term x2 : Z) : Z :=
  match n with
  | O => 0%Z
  | S n' =>
      (term
       + power_series n' (k + 2)
           (- (Z.shiftr (term * x2) 128 / ((k + 1) * (k + 2)))) x2)%Z
  end.

Definition reference_sin (x : float) : float :=
  if negb (is_finite x) then nan
  else if abs x <? 0x1p-26 then x
  else
    let r := fixed_reduce (fixed_of_float x) in
    float_of_fixed (power_series 32 1 r (Z.shiftr (r * r) 128)).

Definition reference_cos (x : float) : float :=
  if negb (is_finite x) then nan
  else
    let r := fixed_reduce (fixed_of_float x) in
    float_of_fixed (power_series 32 0 (2 ^ 128) (Z.shiftr (r * r) 128)).

Definition reference_pow2 (x : float) : float := x * x.

Fixpoint arctan_series (n : nat) (k : float) (term z2 : float) : float :=
  match n with
  | O => 0
  | S n' => term / k + arctan_series n' (k + 2) (- (term * z2)) z2
  end.

(** The arc tangent of [0 <= z]. *)
Definition reference_arctan (z : float) : float :=
  let half (z : float) := z / (1 + sqrt (1 + z * z)) in
  let small (z : float) :=
    let w := half (half z) in
    4 * arctan_series 16 1 w (w * w) in
  if 1 <? z then 0.5 * Py_MATH_PI - small (1 / z) else small z.

(** [atan2] for finite arguments with [y <> 0]. *)
Definition reference_atan2 (y x : float) : float :=
  let angle :=
    if x =? 0 then 0.5 * Py_MATH_PI
    else if 0 <? x then reference_arctan (abs y / x)
    else Py_MATH_PI - reference_arctan (abs y / abs x) in
  copysign angle y.

End FloatPath.

Import ScenicPath.
Local Open Scope R_scope.

Lemma haversine_term_bounds lat1 lon1 lat2 lon2 :
  0 <= haversine_term lat1 lon1 lat2 lon2 <= 1.
Proof.
  unfold haversine_term, radians.
  set (u := lat1 * (PI / 180)). set (v := lat2 * (PI / 180)).
  replace ((lat2 - lat1) * (PI / 180) / 2) with (v / 2 - u / 2) by (unfold u, v; field).
  set (h := sin ((lon2 - lon1) * (PI / 180) / 2) ^ 2).
  assert (Hh : 0 <= h <= 1).
  { unfold h. pose proof (sin2_cos2 ((lon2 - lon1) * (PI / 180) / 2)) as E.
    unfold Rsqr in E.
    pose proof (pow2_ge_0 (sin ((lon2 - lon1) * (PI / 180) / 2))).
    pose proof (pow2_ge_0 (cos ((lon2 - lon1) * (PI / 180) / 2))). nra. }
  rewrite sin_minus.
  assert (Cu : cos u = cos (u/2) * cos (u/2) - sin (u/2) * sin (u/2)).
  { rewrite <- cos_2a. f_equal. field. }
  assert (Cv : cos v = cos (v/2) * cos (v/2) - sin (v/2) * sin (v/2)).
  { rewrite <- cos_2a. f_equal. field. }
  rewrite Cu, Cv. clear Cu Cv.
  pose proof (sin2_cos2 (u/2)) as Eu. pose proof (sin2_cos2 (v/2)) as Ev.
  unfold Rsqr in Eu, Ev.
  set (su := sin (u/2)) in *. set (cu := cos (u/2)) in *.
  set (sv := sin (v/2)) in *. set (cv := cos (v/2)) in *.
  clearbody su cu sv cv h. clear u v.
  set (D := sv * cu - cv * su). set (C := cu * cv - su * sv).
  replace (D ^ 2 + (cu * cu - su * su) * (cv * cv - sv * sv) * h)
    with ((1 - h) * (D * D) + h * (C * C)) by (unfold D, C; ring).
  assert (HD : 0 <= D * D <= 1).
  { split; [nra|]. pose proof (Rle_0_sqr (cu * cv + su * sv)) as P; unfold Rsqr in P.
    assert (D * D + (cu * cv + su * sv) * (cu * cv + su * sv) = 1).
    { unfold D. replace (_ + _) with ((su * su + cu * cu) * (sv * sv + cv * cv)) by ring.
      rewrite Eu, Ev. ring. }
    lra. }
  assert (HC : 0 <= C * C <= 1).
  { split; [nra|]. pose proof (Rle_0_sqr (su * cv + cu * sv)) as P; unfold Rsqr in P.
    assert (C * C + (su * cv + cu * sv) * (su * cv + cu * sv) = 1).
    { unfold C. replace (_ + _) with ((su * su + cu * cu) * (sv * sv + cv * cv)) by ring.
      rewrite Eu, Ev. ring. }
    lra. }
  set (X := D * D) in *. set (Y := C * C) in *. clearbody X Y.
  pose proof (Rmult_le_pos (1 - h) X). pose proof (Rmult_le_pos h Y).
  pose proof (Rmult_le_pos (1 - h) (1 - X)). pose proof (Rmult_le_pos h (1 - Y)).
  split; nra.
Qed.

Lemma math_sqrt_some x : 0 <= x -> math_sqrt x = Some (sqrt x).
Proof. intros H. unfold math_sqrt. destruct (Rlt_dec x 0); [lra | reflexivity]. Qed.

Lemma math_sqrt_none x : x < 0 -> math_sqrt x = None.
Proof. intros H. unfold math_sqrt. destruct (Rlt_dec x 0); [reflexivity | lra]. Qed.

Lemma central_angle_in_range a :
  0 <= a <= 1 ->
  central_angle a = Some (2 * math_atan2 (sqrt a) (sqrt (1 - a))).
Proof.
  intros [H0 H1]. unfold central_angle.
  rewrite (math_sqrt_some a) by assumption. simpl.
  rewrite (math_sqrt_some (1 - a)) by lra. reflexivity.
Qed.

Lemma central_angle_out_of_range a :
  a < 0 \/ 1 < a -> central_angle a = None.
Proof.
  intros [H | H]; unfold central_angle.
  - rewrite math_sqrt_none by assumption. reflexivity.
  - rewrite (math_sqrt_some a) by lra. simpl.
    rewrite math_sqrt_none by lra. reflexivity.
Qed.

Lemma math_atan2_zero x : 0 <= x -> math_atan2 0 x = 0.
Proof.
  intros H. unfold math_atan2.
  destruct (Rlt_dec 0 x).
  - replace (0 / x) with 0 by (field; lra). apply atan_0.
  - destruct (Rlt_dec x 0); [lra|].
    destruct (Rlt_dec 0 0); [lra|]. reflexivity.
Qed.

Lemma math_atan2_pos y x : 0 < y -> 0 <= x -> 0 < math_atan2 y x.
Proof.
  intros Hy Hx. unfold math_atan2.
  destruct (Rlt_dec 0 x).
  - rewrite <- atan_0. apply atan_increasing.
    apply Rdiv_lt_0_compat; assumption.
  - destruct (Rlt_dec x 0); [lra|].
    destruct (Rlt_dec 0 y); [|lra].
    pose proof PI_RGT_0. lra.
Qed.

Lemma math_atan2_nonneg y x : 0 <= y -> 0 <= x -> 0 <= math_atan2 y x.
Proof.
  intros Hy Hx. destruct (Req_dec_T y 0) as [-> | Hne].
  - rewrite math_atan2_zero by assumption. lra.
  - left. apply math_atan2_pos; lra.
Qed.

Lemma calculate_distance_value lat1 lon1 lat2 lon2 :
  calculate_distance lat1 lon1 lat2 lon2 =
  Some (3959 * (2 * math_atan2 (sqrt (haversine_term lat1 lon1 lat2 lon2))
                               (sqrt (1 - haversine_term lat1 lon1 lat2 lon2)))).
Proof.
  unfold calculate_distance.
  rewrite central_angle_in_range by apply haversine_term_bounds.
  reflexivity.
Qed.

Lemma calculate_distance_total lat1 lon1 lat2 lon2 :
  exists d, calculate_distance lat1 lon1 lat2 lon2 = Some d /\ 0 <= d.
Proof.
  eexists. split; [apply calculate_distance_value|].
  pose proof (haversine_term_bounds lat1 lon1 lat2 lon2) as [H0 H1].
  pose proof (math_atan2_nonneg
                (sqrt (haversine_term lat1 lon1 lat2 lon2))
                (sqrt (1 - haversine_term lat1 lon1 lat2 lon2))
                (sqrt_pos _) (sqrt_pos _)).
  lra.
Qed.

Lemma haversine_term_sym lat1 lon1 lat2 lon2 :
  haversine_term lat1 lon1 lat2 lon2 = haversine_term lat2 lon2 lat1 lon1.
Proof.
  unfold haversine_term, radians.
  replace ((lat1 - lat2) * (PI / 180) / 2) with (- ((lat2 - lat1) * (PI / 180) / 2)) by field.
  replace ((lon1 - lon2) * (PI / 180) / 2) with (- ((lon2 - lon1) * (PI / 180) / 2)) by field.
  rewrite !sin_neg. ring.
Qed.

Lemma haversine_term_same lat lon : haversine_term lat lon lat lon = 0.
Proof.
  unfold haversine_term, radians.
  replace ((lat - lat) * (PI / 180) / 2) with 0 by field.
  replace ((lon - lon) * (PI / 180) / 2) with 0 by field.
  rewrite sin_0. ring.
Qed.

Lemma calculate_distance_zero_iff lat1 lon1 lat2 lon2 :
  calculate_distance lat1 lon1 lat2 lon2 = Some 0 <->
  haversine_term lat1 lon1 lat2 lon2 = 0.
Proof.
  rewrite calculate_distance_value.
  pose proof (haversine_term_bounds lat1 lon1 lat2 lon2) as [H0 H1].
  set (a := haversine_term lat1 lon1 lat2 lon2) in *.
  split.
  - intros E. injection E as E.
    destruct (Req_dec_T a 0) as [|Hne]; [assumption|exfalso].
    assert (0 < sqrt a) by (apply sqrt_lt_R0; lra).
    pose proof (math_atan2_pos (sqrt a) (sqrt (1 - a)) H (sqrt_pos _)). lra.
  - intros ->. rewrite sqrt_0, math_atan2_zero by apply sqrt_pos.
    f_equal. ring.
Qed.

Lemma sin_zero_small x : - PI < x < PI -> sin x = 0 -> x = 0.
Proof.
  intros [Hl Hu] Hs.
  destruct (Rtotal_order x 0) as [Hn | [Hz | Hp]]; [exfalso | assumption | exfalso].
  - pose proof (sin_lt_0_var x Hl Hn). lra.
  - pose proof (sin_gt_0 x Hp Hu). lra.
Qed.

Lemma haversine_term_zero_inv lat1 lon1 lat2 lon2 :
  interior lat1 lon1 -> interior lat2 lon2 ->
  haversine_term lat1 lon1 lat2 lon2 = 0 ->
  lat1 = lat2 /\ lon1 = lon2.
Proof.
  intros [Hlat1 Hlon1] [Hlat2 Hlon2]. unfold haversine_term, radians.
  pose proof PI_RGT_0 as Hpi.
  set (s1 := sin ((lat2 - lat1) * (PI / 180) / 2)).
  set (s2 := sin ((lon2 - lon1) * (PI / 180) / 2)).
  assert (Hc1 : 0 < cos (lat1 * (PI / 180))) by (apply cos_gt_0; nra).
  assert (Hc2 : 0 < cos (lat2 * (PI / 180))) by (apply cos_gt_0; nra).
  set (c1 := cos (lat1 * (PI / 180))) in *.
  set (c2 := cos (lat2 * (PI / 180))) in *.
  intros E.
  pose proof (pow2_ge_0 s1) as P1. pose proof (pow2_ge_0 s2) as P2.
  assert (Hc : 0 < c1 * c2) by (apply Rmult_lt_0_compat; assumption).
  assert (E1 : s1 ^ 2 = 0).
  { pose proof (Rmult_le_pos (c1 * c2) (s2 ^ 2)). lra. }
  assert (E2 : s2 ^ 2 = 0).
  { rewrite E1 in E. destruct (Rmult_integral _ _ (eq_trans (eq_sym (Rplus_0_l _)) E)); lra. }
  assert (Z1 : s1 = 0) by nra. assert (Z2 : s2 = 0) by nra.
  apply sin_zero_small in Z1; [|nra]. apply sin_zero_small in Z2; [|nra].
  split; nra.
Qed.

(** *** The segment projector *)

Lemma clamp_bounds t : 0 <= py_max 0 (py_min 1 t) <= 1.
Proof.
  unfold py_max, py_min.
  destruct (Rlt_dec t 1); destruct (Rlt_dec 0 _); lra.
Qed.

Lemma Req_bool_true a b : Req_bool a b = true <-> a = b.
Proof.
  unfold Req_bool. destruct (Req_dec_T a b); split; congruence.
Qed.

Lemma degenerate_test x1 y1 x2 y2 :
  Req_bool (x2 - x1) 0 && Req_bool (y2 - y1) 0 = true <->
  x1 = x2 /\ y1 = y2.
Proof.
  rewrite andb_true_iff, !Req_bool_true. lra.
Qed.

Lemma distance_to_line_segment_total px py x1 y1 x2 y2 :
  exists d t,
    distance_to_line_segment px py x1 y1 x2 y2 = Some (d, t)
    /\ 0 <= d /\ 0 <= t <= 1.
Proof.
  unfold distance_to_line_segment.
  destruct (Req_bool (x2 - x1) 0 && Req_bool (y2 - y1) 0).
  - destruct (calculate_distance_total px py x1 y1) as (d & -> & Hd).
    exists d, 0. simpl. repeat split; lra.
  - match goal with
    | |- context [calculate_distance ?a ?b ?c ?e] =>
        destruct (calculate_distance_total a b c e) as (d & -> & Hd)
    end.
    eexists d, _. simpl. split; [reflexivity|].
    split; [assumption | apply clamp_bounds].
Qed.

Lemma distance_to_line_segment_degenerate px py x y :
  distance_to_line_segment px py x y x y =
  (dist <- calculate_distance px py x y ;; Some (dist, 0)).
Proof.
  unfold distance_to_line_segment.
  destruct (Req_bool (x - x) 0 && Req_bool (y - y) 0) eqn:E; [reflexivity|].
  assert (Req_bool (x - x) 0 && Req_bool (y - y) 0 = true) as E'
    by (apply degenerate_test; split; reflexivity).
  congruence.
Qed.

Lemma distance_to_line_segment_at_start x1 y1 x2 y2 :
  distance_to_line_segment x1 y1 x1 y1 x2 y2 = Some (0, 0).
Proof.
  assert (Z : calculate_distance x1 y1 x1 y1 = Some 0)
    by (apply calculate_distance_zero_iff, haversine_term_same).
  unfold distance_to_line_segment.
  destruct (Req_bool (x2 - x1) 0 && Req_bool (y2 - y1) 0) eqn:E.
  - rewrite Z. reflexivity.
  - replace ((x1 - x1) * (x2 - x1) + (y1 - y1) * (y2 - y1)) with 0 by ring.
    unfold Rdiv. rewrite Rmult_0_l.
    assert (C : py_max 0 (py_min 1 0) = 0).
    { unfold py_max, py_min. destruct (Rlt_dec 0 1); [|lra].
      destruct (Rlt_dec 0 0); lra. }
    rewrite C, !Rmult_0_l, !Rplus_0_r, Z. reflexivity.
Qed.

Lemma sum_squares_pos dx dy :
  dx <> 0 \/ dy <> 0 -> 0 < dx * dx + dy * dy.
Proof.
  intros H.
  pose proof (Rle_0_sqr dx) as Px. pose proof (Rle_0_sqr dy) as Py.
  unfold Rsqr in *.
  destruct H as [H | H]; apply Rsqr_pos_lt in H; unfold Rsqr in H; lra.
Qed.

Lemma distance_to_line_segment_at_end x1 y1 x2 y2 :
  x1 <> x2 \/ y1 <> y2 ->
  distance_to_line_segment x2 y2 x1 y1 x2 y2 = Some (0, 1).
Proof.
  intros Hne.
  assert (Z : calculate_distance x2 y2 x2 y2 = Some 0)
    by (apply calculate_distance_zero_iff, haversine_term_same).
  unfold distance_to_line_segment.
  destruct (Req_bool (x2 - x1) 0 && Req_bool (y2 - y1) 0) eqn:E.
  - apply degenerate_test in E. lra.
  - set (dx := x2 - x1). set (dy := y2 - y1).
    assert (Hpos : 0 < dx * dx + dy * dy).
    { apply sum_squares_pos. unfold dx, dy. destruct Hne; [left | right]; lra. }
    assert (T : (dx * dx + dy * dy) / (dx * dx + dy * dy) = 1) by (field; lra).
    rewrite T.
    assert (C : py_max 0 (py_min 1 1) = 1).
    { unfold py_max, py_min. destruct (Rlt_dec 1 1); [lra|].
      destruct (Rlt_dec 0 1); lra. }
    rewrite C.
    replace (x1 + 1 * dx) with x2 by (unfold dx; ring).
    replace (y1 + 1 * dy) with y2 by (unfold dy; ring).
    rewrite Z. reflexivity.
Qed.

Lemma convex_gt lo a b t :
  lo < a -> lo < b -> 0 <= t <= 1 -> lo < a + t * (b - a).
Proof.
  intros Ha Hb [H0 H1].
  replace (a + t * (b - a)) with (lo + ((1 - t) * (a - lo) + t * (b - lo))) by ring.
  destruct (Rle_lt_dec 1 t).
  - replace t with 1 by lra. lra.
  - assert (0 < (1 - t) * (a - lo)) by (apply Rmult_lt_0_compat; lra).
    assert (0 <= t * (b - lo)) by (apply Rmult_le_pos; lra). lra.
Qed.

Lemma convex_le hi a b t :
  a <= hi -> b <= hi -> 0 <= t <= 1 -> a + t * (b - a) <= hi.
Proof.
  intros Ha Hb [H0 H1].
  replace (a + t * (b - a)) with (hi - ((1 - t) * (hi - a) + t * (hi - b))) by ring.
  assert (0 <= (1 - t) * (hi - a)) by (apply Rmult_le_pos; lra).
  assert (0 <= t * (hi - b)) by (apply Rmult_le_pos; lra). lra.
Qed.

Lemma convex_lt hi a b t :
  a < hi -> b < hi -> 0 <= t <= 1 -> a + t * (b - a) < hi.
Proof.
  intros Ha Hb Ht.
  pose proof (convex_gt (- hi) (- a) (- b) t ltac:(lra) ltac:(lra) Ht). lra.
Qed.

Lemma interior_convex x1 y1 x2 y2 t :
  interior x1 y1 -> interior x2 y2 -> 0 <= t <= 1 ->
  interior (x1 + t * (x2 - x1)) (y1 + t * (y2 - y1)).
Proof.
  intros [[A1 A2] [A3 A4]] [[B1 B2] [B3 B4]] Ht.
  repeat split.
  - apply convex_gt; assumption.
  - apply convex_lt; assumption.
  - apply convex_gt; assumption.
  - apply convex_le; assumption.
Qed.

(** A zero distance means that the point lies on the segment. *)
Lemma distance_to_line_segment_zero_inv px py x1 y1 x2 y2 t :
  interior px py -> interior x1 y1 -> interior x2 y2 ->
  distance_to_line_segment px py x1 y1 x2 y2 = Some (0, t) ->
  0 <= t <= 1 /\ px = x1 + t * (x2 - x1) /\ py = y1 + t * (y2 - y1).
Proof.
  intros Hp H1 H2. unfold distance_to_line_segment.
  destruct (Req_bool (x2 - x1) 0 && Req_bool (y2 - y1) 0) eqn:E.
  - destruct (calculate_distance px py x1 y1) as [d|] eqn:D; [|discriminate].
    simpl. intros [= -> <-].
    apply calculate_distance_zero_iff, haversine_term_zero_inv in D;
      try assumption.
    lra.
  - set (t' := py_max 0 (py_min 1 _)).
    pose proof (clamp_bounds
      (((px - x1) * (x2 - x1) + (py - y1) * (y2 - y1)) /
       ((x2 - x1) * (x2 - x1) + (y2 - y1) * (y2 - y1)))) as Ht.
    fold t' in Ht.
    destruct (calculate_distance _ _ _ _) as [d|] eqn:D; [|discriminate].
    simpl. intros [= -> <-].
    apply calculate_distance_zero_iff, haversine_term_zero_inv in D;
      try assumption.
    + tauto.
    + apply interior_convex; assumption.
Qed.

(** *** The path projector *)

Lemma segment_projection_total wps lat lon i :
  (S i < List.length wps)%nat ->
  exists d t,
    segment_projection wps lat lon i = Some (d, t) /\ 0 <= d /\ 0 <= t <= 1.
Proof.
  intros Hi. unfold segment_projection.
  destruct (nth_error wps i) as [wp1|] eqn:E1;
    [| apply nth_error_None in E1; lia].
  destruct (nth_error wps (S i)) as [wp2|] eqn:E2;
    [| apply nth_error_None in E2; lia].
  simpl. apply distance_to_line_segment_total.
Qed.

Lemma scan_first_step wps lat lon d t :
  segment_projection wps lat lon 0 = Some (d, t) ->
  scan_step wps lat lon (Some scan_init) 0%nat = Some (Scan (Finite d) 0 t).
Proof. intros E. unfold scan_step. simpl. rewrite E. reflexivity. Qed.

Lemma scan_prefix wps lat lon n :
  (S n < List.length wps)%nat ->
  exists st,
    fold_left (scan_step wps lat lon) (seq 0 (S n)) (Some scan_init) = Some st
    /\ earliest_minimum wps lat lon (S n) st.
Proof.
  induction n as [|n IH]; intros Hn.
  - destruct (segment_projection_total wps lat lon 0 Hn) as (d & t & E & _).
    exists (Scan (Finite d) 0 t).
    change (fold_left (scan_step wps lat lon) (seq 0 1) (Some scan_init))
      with (scan_step wps lat lon (Some scan_init) 0%nat).
    rewrite (scan_first_step _ _ _ _ _ E). split; [reflexivity|].
    exists d. simpl. repeat split; try lia; try assumption.
    + intros j d' t' Hj E'. replace j with 0%nat in E' by lia.
      rewrite E in E'. injection E' as <- <-. lra.
  - destruct IH as (st & Hfold & m & Hm & Hk & Hseg & Hmin & Hearly); [lia|].
    rewrite seq_S, fold_left_app, Hfold. simpl.
    destruct (segment_projection_total wps lat lon (S n) Hn) as (d & t & E & _).
    unfold scan_step. simpl. rewrite E. simpl. rewrite Hm. unfold dist_lt.
    destruct (Rlt_dec d m) as [Hlt | Hge]; eexists; (split; [reflexivity|]).
    + exists d. simpl. repeat split; try lia; try assumption.
      * intros j d' t' Hj E'.
        destruct (Nat.eq_dec j (S n)) as [-> | Hne].
        -- rewrite E in E'. injection E' as <- <-. lra.
        -- pose proof (Hmin j d' t' ltac:(lia) E'). lra.
      * intros j d' t' Hj E'. pose proof (Hmin j d' t' Hj E'). lra.
    + exists m. repeat split; try lia; try assumption.
      intros j d' t' Hj E'.
      destruct (Nat.eq_dec j (S n)) as [-> | Hne].
      * rewrite E in E'. injection E' as <- <-. lra.
      * apply (Hmin j d' t'); [lia | assumption].
Qed.

Lemma scan_segments_spec wps lat lon :
  (2 <= List.length wps)%nat ->
  exists st,
    scan_segments wps lat lon = Some st
    /\ earliest_minimum wps lat lon (List.length wps - 1) st.
Proof.
  intros H. unfold scan_segments.
  replace (List.length wps - 1)%nat with (S (List.length wps - 2))%nat by lia.
  apply scan_prefix. lia.
Qed.

Lemma total_segments_value (wps : list waypoint) :
  (2 <= List.length wps)%nat ->
  (Z.of_nat (List.length wps) - 1 =? 0)%Z = false
  /\ IZR (Z.of_nat (List.length wps) - 1)%Z = INR (List.length wps - 1)%nat.
Proof.
  intros H. split; [apply Z.eqb_neq; lia|].
  rewrite INR_IZR_INZ. f_equal. lia.
Qed.

Lemma find_closest_waypoint_on_path_with_spec wps lat lon :
  (2 <= List.length wps)%nat ->
  exists st,
    earliest_minimum wps lat lon (List.length wps - 1) st
    /\ find_closest_waypoint_on_path_with wps lat lon =
       Some ((INR (closest_segment st) + closest_position_on_segment st)
             / INR (List.length wps - 1)%nat, min_distance st).
Proof.
  intros H. destruct (scan_segments_spec wps lat lon H) as (st & E & Hst).
  exists st. split; [assumption|].
  unfold find_closest_waypoint_on_path_with. rewrite E. simpl.
  destruct (total_segments_value wps H) as [-> ->]. reflexivity.
Qed.

Lemma segment_projection_nonneg wps lat lon i d t :
  segment_projection wps lat lon i = Some (d, t) -> 0 <= d /\ 0 <= t <= 1.
Proof.
  unfold segment_projection.
  destruct (nth_error wps i) as [wp1|]; [|discriminate].
  destruct (nth_error wps (S i)) as [wp2|]; [|discriminate].
  simpl. intros E.
  destruct (distance_to_line_segment_total lat lon
              (wp_lat wp1) (wp_lon wp1) (wp_lat wp2) (wp_lon wp2))
    as (d' & t' & E' & Hd & Ht).
  rewrite E in E'. injection E' as <- <-. tauto.
Qed.

(** If segment [k] passes through the point and no earlier segment does,
    the projector settles on segment [k]. *)
Lemma projector_hits wps lat lon k t0 :
  (S k < List.length wps)%nat ->
  segment_projection wps lat lon k = Some (0, t0) ->
  (forall j d t, (j < k)%nat ->
     segment_projection wps lat lon j = Some (d, t) -> d <> 0) ->
  find_closest_waypoint_on_path_with wps lat lon =
  Some ((INR k + t0) / INR (List.length wps - 1)%nat, Finite 0).
Proof.
  intros Hk Hseg Hbefore.
  destruct (find_closest_waypoint_on_path_with_spec wps lat lon ltac:(lia))
    as (st & (m & Hm & Hc & Hcs & Hmin & Hearly) & ->).
  pose proof (Hmin k 0 t0 ltac:(lia) Hseg) as Hle.
  destruct (segment_projection_nonneg _ _ _ _ _ _ Hcs) as [Hge _].
  assert (m = 0) as -> by lra.
  assert (closest_segment st = k) as Ek.
  { destruct (Nat.lt_trichotomy (closest_segment st) k) as [Hlt | [He | Hgt]].
    - exfalso. apply (Hbefore _ _ _ Hlt Hcs). reflexivity.
    - assumption.
    - exfalso. pose proof (Hearly k 0 t0 Hgt Hseg). lra. }
  rewrite Ek in *. rewrite Hseg in Hcs. injection Hcs as <-.
  rewrite Hm. reflexivity.
Qed.

Lemma waypoints_interior :
  Forall (fun wp => interior (wp_lat wp) (wp_lon wp)) SCENIC_LOOP_WAYPOINTS.
Proof.
  unfold SCENIC_LOOP_WAYPOINTS, interior.
  repeat (constructor; [simpl; lra|]). constructor.
Qed.

Ltac interior_goal := unfold interior; simpl; lra.

(** An earlier segment of the configured path does not pass through the
    point: the two coordinate equations have no solution [0 <= t <= 1]. *)
Ltac misses_segment H :=
  unfold segment_projection in H; simpl in H;
  let Hd := fresh "Hd" in
  intros Hd; rewrite Hd in H;
  apply distance_to_line_segment_zero_inv in H;
  [ lra | interior_goal .. ].

Ltac earlier_segments_miss :=
  let j := fresh "j" in let d := fresh "d" in let t := fresh "t" in
  let Hj := fresh "Hj" in let H := fresh "H" in
  intros j d t Hj H;
  repeat (destruct j as [|j]; [misses_segment H|]);
  exfalso; lia.

Ltac at_waypoint_end k :=
  apply (projector_hits SCENIC_LOOP_WAYPOINTS _ _ k 1);
  [ simpl; lia
  | unfold segment_projection; simpl;
    apply distance_to_line_segment_at_end; lra
  | earlier_segments_miss ].

Ltac at_waypoint_start :=
  apply (projector_hits SCENIC_LOOP_WAYPOINTS _ _ 0%nat 0);
  [ simpl; lia
  | unfold segment_projection; simpl;
    apply distance_to_line_segment_at_start
  | intros ? ? ? ?; exfalso; lia ].

(** The point at waypoint [S k] is found at the end of segment [k]. *)
Lemma projector_at_inner_waypoint k wp :
  (k < 10)%nat ->
  nth_error SCENIC_LOOP_WAYPOINTS (S k) = Some wp ->
  find_closest_waypoint_on_path (wp_lat wp) (wp_lon wp) =
  Some ((INR k + 1) / INR 11, Finite 0).
Proof.
  intros Hk E. unfold find_closest_waypoint_on_path.
  do 10 (destruct k as [|k];
         [ injection E as <-; simpl wp_lat; simpl wp_lon;
           match goal with
           | |- _ = Some ((INR ?n + _) / _, _) => at_waypoint_end n
           end
         | ]).
  exfalso; lia.
Qed.

(** The first and the last waypoint share their coordinates; the point is
    found at the start of segment [0]. *)
Lemma projector_at_loop_closure :
  find_closest_waypoint_on_path 36.1588 (-115.4264) =
  Some ((INR 0 + 0) / INR 11, Finite 0).
Proof. unfold find_closest_waypoint_on_path. at_waypoint_start. Qed.

(** *** Verified properties of the scenic loop geometry *)

(** C2 (as stated, refuted): the last waypoint, index 11 of 12, has the
    coordinates of the first one; the projector reports progress 0 there,
    not 11/(12-1) = 1. *)
Lemma last_waypoint_progress_is_zero :
  nth_error SCENIC_LOOP_WAYPOINTS 11 =
    Some (Waypoint 36.1588 (-115.4264) "Return to Visitor Center")
  /\ find_closest_waypoint_on_path 36.1588 (-115.4264) = Some (0, Finite 0)
  /\ (0 : R) <> 11 / (12 - 1).
Proof.
  split; [reflexivity|]. split; [|lra].
  rewrite projector_at_loop_closure. f_equal. f_equal. simpl. lra.
Qed.

(** C2 (amended): at the coordinates of waypoint [i] of the configured
    sequence the projector returns distance 0 and progress [i/11] for
    every [i < 11]; at the last waypoint, which coincides with the first,
    it returns progress 0. *)
Theorem projector_at_waypoints (i : nat) (wp : waypoint) :
  nth_error SCENIC_LOOP_WAYPOINTS i = Some wp ->
  exists progress,
    find_closest_waypoint_on_path (wp_lat wp) (wp_lon wp) =
      Some (progress, Finite 0)
    /\ ((i < 11)%nat -> progress = INR i / 11)
    /\ (i = 11%nat -> progress = 0).
Proof.
  intros E.
  destruct i as [|k].
  - injection E as <-. simpl wp_lat; simpl wp_lon.
    rewrite projector_at_loop_closure. eexists. split; [reflexivity|].
    split; intros; [simpl; lra | lia].
  - destruct (Nat.lt_ge_cases k 10) as [Hk | Hk].
    + rewrite (projector_at_inner_waypoint k wp Hk E).
      eexists. split; [reflexivity|].
      split; intros; [|lia].
      replace (INR 11) with 11 by (simpl; lra). rewrite S_INR. reflexivity.
    + destruct (Nat.eq_dec k 10) as [-> | Hne].
      * injection E as <-. simpl wp_lat; simpl wp_lon.
        rewrite projector_at_loop_closure. eexists. split; [reflexivity|].
        split; intros; [lia | simpl; lra].
      * exfalso.
        assert (nth_error SCENIC_LOOP_WAYPOINTS (S k) = None) as N
          by (apply nth_error_None; simpl; lia).
        congruence.
Qed.

Lemma projector_at_waypoints_witness :
  exists progress,
    find_closest_waypoint_on_path 36.1480 (-115.4280) =
      Some (progress, Finite 0)
    /\ progress = INR 3 / 11.
Proof.
  destruct (projector_at_waypoints 3
              (Waypoint 36.1480 (-115.4280) "Calico Basin / First Pullout")
              eq_refl)
    as (p & E & Hp & _).
  exists p. split; [exact E | apply Hp; lia].
Defined.

(** *** Facts of binary64 arithmetic *)

Section FloatFacts.

Import PrimFloat SpecFloat FloatOps FloatAxioms.
Local Open Scope float_scope.

Lemma is_nan_spec (x : float) :
  is_nan x = true <-> Prim2SF x = S754_nan.
Proof.
  unfold is_nan. rewrite eqb_spec, negb_true_iff. unfold SFeqb.
  destruct (Prim2SF x) as [s | [|] | | [|] m e]; simpl;
    try (split; [discriminate | discriminate]);
    try (split; [reflexivity | reflexivity]).
  - rewrite Z.compare_refl, Pos.compare_cont_refl. simpl.
    split; discriminate.
  - rewrite Z.compare_refl, Pos.compare_cont_refl. simpl.
    split; discriminate.
Qed.

Lemma is_infinity_spec (x : float) :
  is_infinity x = true <-> exists s, Prim2SF x = S754_infinity s.
Proof.
  unfold is_infinity. rewrite eqb_spec, abs_spec.
  change (Prim2SF infinity) with (S754_infinity false). unfold SFeqb.
  destruct (Prim2SF x) as [s | s | | s m e]; simpl; split;
    try discriminate; try (intros [s' H]; discriminate).
  - intros _. exists s. reflexivity.
  - reflexivity.
Qed.

(** A finite float is a zero or has a mantissa and an exponent. *)
Lemma is_finite_spec (x : float) :
  is_finite x = true ->
  (exists s, Prim2SF x = S754_zero s)
  \/ (exists s m e, Prim2SF x = S754_finite s m e).
Proof.
  unfold is_finite. rewrite negb_true_iff, orb_false_iff.
  intros [Hnan Hinf].
  destruct (Prim2SF x) as [s | s | | s m e] eqn:E.
  - left. exists s. reflexivity.
  - assert (H : is_infinity x = true)
      by (apply is_infinity_spec; exists s; exact E).
    congruence.
  - assert (H : is_nan x = true) by (apply is_nan_spec; exact E).
    congruence.
  - right. exists s, m, e. reflexivity.
Qed.

(** [x - x == 0] for every finite [x]. *)
Lemma sub_self (x : float) : is_finite x = true -> (x - x =? 0) = true.
Proof.
  intros Hx. rewrite eqb_spec, sub_spec.
  change (Prim2SF 0) with (S754_zero false).
  destruct (is_finite_spec x Hx) as [[s ->] | (s & m & e & ->)].
  - destruct s; reflexivity.
  - unfold SF64sub, SFsub. rewrite Z.min_id. unfold shl_align.
    rewrite !Z.sub_diag. reflexivity.
Qed.

(** [x < y] implies [x <= y], also where a NaN is compared. *)
Lemma ltb_leb (x y : float) : (x <? y) = true -> (x <=? y) = true.
Proof.
  rewrite ltb_spec, leb_spec. unfold SFltb, SFleb.
  destruct (SFcompare (Prim2SF x) (Prim2SF y)) as [[| |]|];
    intros H; try discriminate; reflexivity.
Qed.


Lemma bool_eq_iff (a b : bool) : (a = true <-> b = true) -> a = b.
Proof.
  destruct a, b; intros [H1 H2]; try reflexivity;
    [symmetry; apply H1; reflexivity | apply H2; reflexivity].
Qed.

Lemma opp_involutive (x : float) : - (- x) = x.
Proof.
  apply Prim2SF_inj. rewrite !opp_spec.
  destruct (Prim2SF x); simpl; rewrite ?negb_involutive; reflexivity.
Qed.

Lemma abs_opp (x : float) : abs (- x) = abs x.
Proof.
  apply Prim2SF_inj. rewrite !abs_spec, opp_spec.
  destruct (Prim2SF x); reflexivity.
Qed.

Lemma is_nan_opp (x : float) : is_nan (- x) = is_nan x.
Proof.
  apply bool_eq_iff. rewrite !is_nan_spec, opp_spec.
  destruct (Prim2SF x); simpl; split; congruence.
Qed.

Lemma opp_nan (x : float) : is_nan x = true -> - x = x.
Proof.
  intros H. apply is_nan_spec in H. apply Prim2SF_inj.
  rewrite opp_spec, H. reflexivity.
Qed.

Lemma is_infinity_opp (x : float) : is_infinity (- x) = is_infinity x.
Proof. unfold is_infinity. rewrite abs_opp. reflexivity. Qed.

Lemma is_finite_opp (x : float) : is_finite (- x) = is_finite x.
Proof.
  unfold is_finite. rewrite is_nan_opp, is_infinity_opp. reflexivity.
Qed.

Lemma eqb_zero_opp (x : float) : (- x =? 0) = (x =? 0).
Proof.
  rewrite !eqb_spec, opp_spec.
  change (Prim2SF 0) with (S754_zero false).
  destruct (Prim2SF x) as [s | s | | s m e]; try reflexivity;
    destruct s; reflexivity.
Qed.

(** Of a number that is not zero, one of [x] and [- x] is negative. *)
Lemma ltb_zero_opp (x : float) :
  is_nan x = false -> (x =? 0) = false -> (- x <? 0) = negb (x <? 0).
Proof.
  intros Hnan Hzero.
  assert (Hn : Prim2SF x <> S754_nan).
  { intros E. apply is_nan_spec in E. congruence. }
  rewrite eqb_spec in Hzero. rewrite !ltb_spec, opp_spec.
  change (Prim2SF 0) with (S754_zero false) in *.
  destruct (Prim2SF x) as [s | s | | s m e]; try discriminate;
    try congruence; destruct s; reflexivity.
Qed.

(** The sign passes through the rounding. *)
Lemma binary_round_aux_opp (s : bool) (m e : Z) (l : location) :
  binary_round_aux prec emax (negb s) m e l
  = SFopp (binary_round_aux prec emax s m e l).
Proof.
  unfold binary_round_aux.
  destruct (shr_fexp prec emax m e l) as [mrs e'].
  destruct (shr_fexp prec emax _ e' loc_Exact) as [mrs' e''].
  destruct (shr_m mrs'); try reflexivity.
  destruct (e'' <=? emax - prec)%Z; reflexivity.
Qed.

Lemma binary_round_opp (s : bool) (m : positive) (e : Z) :
  binary_round prec emax (negb s) m e
  = SFopp (binary_round prec emax s m e).
Proof.
  unfold binary_round.
  destruct (shl_align m e _) as [mz ez]. apply binary_round_aux_opp.
Qed.

Lemma mul_opp_l (x y : float) : (- x) * y = - (x * y).
Proof.
  apply Prim2SF_inj. rewrite opp_spec, !mul_spec, opp_spec.
  unfold SF64mul, SFmul.
  destruct (Prim2SF x) as [sx | sx | | sx mx ex],
           (Prim2SF y) as [sy | sy | | sy my ey];
    try reflexivity; simpl; rewrite <- ?negb_xorb_l; try reflexivity.
  apply binary_round_aux_opp.
Qed.

Lemma div_opp_l (x y : float) : (- x) / y = - (x / y).
Proof.
  apply Prim2SF_inj. rewrite opp_spec, !div_spec, opp_spec.
  unfold SF64div, SFdiv.
  destruct (Prim2SF x) as [sx | sx | | sx mx ex],
           (Prim2SF y) as [sy | sy | | sy my ey];
    try reflexivity; simpl; rewrite <- ?negb_xorb_l; try reflexivity.
  destruct (SFdiv_core_binary prec emax (Z.pos mx) ex (Z.pos my) ey)
    as [[mz ez] lz].
  apply binary_round_aux_opp.
Qed.

Lemma mul_comm (x y : float) : x * y = y * x.
Proof.
  apply Prim2SF_inj. rewrite !mul_spec. unfold SF64mul, SFmul.
  destruct (Prim2SF x) as [sx | sx | | sx mx ex],
           (Prim2SF y) as [sy | sy | | sy my ey];
    try reflexivity; rewrite ?(xorb_comm sx sy); try reflexivity.
  rewrite (Pos.mul_comm mx my), (Z.add_comm ex ey). reflexivity.
Qed.

(** Swapping the operands of a subtraction changes the sign of the
    difference, unless the difference is the positive zero both ways. *)
Lemma sub_swap (x y : float) :
  y - x = - (x - y) \/ (x - y = 0 /\ y - x = 0).
Proof.
  assert (Hinj : forall u v : float,
             Prim2SF u = SFopp (Prim2SF v) -> u = - v).
  { intros u v H. apply Prim2SF_inj. rewrite opp_spec. exact H. }
  assert (Hzero : forall u : float, Prim2SF u = S754_zero false -> u = 0).
  { intros u H. apply Prim2SF_inj. exact H. }
  pose proof (sub_spec x y) as Exy. pose proof (sub_spec y x) as Eyx.
  unfold SF64sub, SFsub in Exy, Eyx.
  destruct (Prim2SF x) as [sx | sx | | sx mx ex],
           (Prim2SF y) as [sy | sy | | sy my ey];
    try (left; apply Hinj; rewrite Exy, Eyx; destruct sx; try destruct sy;
         reflexivity);
    try (left; apply Hinj; rewrite Exy, Eyx; destruct sy; reflexivity).
  - destruct sx, sy;
      try (right; split; apply Hzero; assumption);
      left; apply Hinj; rewrite Exy, Eyx; reflexivity.
  - left. apply Hinj. rewrite Exy, Eyx. reflexivity.
  - rewrite (Z.min_comm ey ex) in Eyx.
    set (ez := Z.min ex ey) in *.
    set (A := cond_Zopp sx (Z.pos (fst (shl_align mx ex ez)))) in *.
    set (B := cond_Zopp sy (Z.pos (fst (shl_align my ey ez)))) in *.
    replace (B - A)%Z with (- (A - B))%Z in Eyx by ring.
    destruct (A - B)%Z as [|p|p] eqn:Ez; simpl in Exy, Eyx.
    + right. split; apply Hzero; assumption.
    + left. apply Hinj. rewrite Exy, Eyx.
      apply (binary_round_opp false).
    + left. apply Hinj. rewrite Exy, Eyx.
      rewrite (binary_round_opp false). 
      destruct (binary_round prec emax false p ez); simpl;
        rewrite ?negb_involutive; reflexivity.
Qed.


(** The comparison of the specification, read on integers. *)
Ltac order_cases :=
  repeat match goal with
    | H : context [(?a ?= ?b)%Z] |- _ =>
        destruct (Z.compare_spec a b); try subst
    | |- context [(?a ?= ?b)%Z] =>
        destruct (Z.compare_spec a b); try subst
    | H : context [Pos.compare_cont Eq ?a ?b] |- _ =>
        change (Pos.compare_cont Eq a b) with (Pos.compare a b) in H;
        destruct (Pos.compare_spec a b); try subst
    | |- context [Pos.compare_cont Eq ?a ?b] =>
        change (Pos.compare_cont Eq a b) with (Pos.compare a b);
        destruct (Pos.compare_spec a b); try subst
    end;
  simpl in *; try discriminate; try reflexivity; try lia.

Lemma SFcompare_lt_trans (a b c : spec_float) :
  SFcompare a b = Some Lt -> SFcompare b c = Some Lt ->
  SFcompare a c = Some Lt.
Proof.
  destruct a as [sa | sa | | sa ma ea], b as [sb | sb | | sb mb eb],
    c as [sc | sc | | sc mc ec]; simpl; try discriminate;
    try destruct sa; try destruct sb; try destruct sc;
    try discriminate; try reflexivity;
    intros H1 H2; f_equal; injection H1 as H1; injection H2 as H2;
    order_cases.
Qed.

Lemma SFcompare_lt_le_trans (a b c : spec_float) :
  SFcompare a b = Some Lt ->
  SFcompare b c = Some Lt \/ SFcompare b c = Some Eq ->
  SFcompare a c = Some Lt.
Proof.
  intros H1 [H2 | H2]; [exact (SFcompare_lt_trans a b c H1 H2)|].
  revert H1 H2.
  destruct a as [sa | sa | | sa ma ea], b as [sb | sb | | sb mb eb],
    c as [sc | sc | | sc mc ec]; simpl; try discriminate;
    try destruct sa; try destruct sb; try destruct sc;
    try discriminate; try reflexivity;
    intros H1 H2; f_equal; injection H1 as H1; injection H2 as H2;
    order_cases.
Qed.

(** Two floats that are not NaN are comparable. *)
Lemma SFcompare_total (a b : spec_float) :
  a <> S754_nan -> b <> S754_nan ->
  SFcompare a b <> Some Lt ->
  SFcompare b a = Some Lt \/ SFcompare b a = Some Eq.
Proof.
  destruct a as [sa | sa | | sa ma ea], b as [sb | sb | | sb mb eb];
    simpl; intros Ha Hb H; try congruence;
    try destruct sa; try destruct sb; auto; try congruence;
    order_cases; auto; exfalso; apply H; reflexivity.
Qed.

Lemma ltb_trans (x y z : float) :
  (x <? y) = true -> (y <? z) = true -> (x <? z) = true.
Proof.
  rewrite !ltb_spec. unfold SFltb.
  destruct (SFcompare (Prim2SF x) (Prim2SF y)) as [[| |]|] eqn:E1;
    try discriminate.
  destruct (SFcompare (Prim2SF y) (Prim2SF z)) as [[| |]|] eqn:E2;
    try discriminate.
  rewrite (SFcompare_lt_trans _ _ _ E1 E2). reflexivity.
Qed.

Lemma ltb_irrefl (x : float) : (x <? x) = false.
Proof.
  rewrite ltb_spec. unfold SFltb.
  destruct (Prim2SF x) as [s | s | | s m e]; simpl; try reflexivity.
  - destruct s; reflexivity.
  - rewrite Z.compare_refl, Pos.compare_cont_refl. destruct s; reflexivity.
Qed.

Lemma ltb_not_nan (x y : float) :
  (x <? y) = true -> is_nan x = false /\ is_nan y = false.
Proof.
  rewrite ltb_spec. unfold SFltb. intros H.
  split; destruct (is_nan _) eqn:E; try reflexivity;
    apply is_nan_spec in E; rewrite E in H;
    destruct (Prim2SF _); discriminate.
Qed.

(** If [y] is not below [x], and neither is NaN, then [x] is below
    whatever [y] is below. *)
Lemma ltb_through (x y z : float) :
  is_nan x = false -> is_nan y = false ->
  (x <? y) = false -> (z <? y) = true -> (z <? x) = true.
Proof.
  intros Hx Hy Hxy Hzy.
  assert (Nx : Prim2SF x <> S754_nan)
    by (intros E; apply is_nan_spec in E; congruence).
  assert (Ny : Prim2SF y <> S754_nan)
    by (intros E; apply is_nan_spec in E; congruence).
  rewrite ltb_spec in *. unfold SFltb in *.
  destruct (SFcompare (Prim2SF z) (Prim2SF y)) as [[| |]|] eqn:E1;
    try discriminate.
  assert (H : SFcompare (Prim2SF x) (Prim2SF y) <> Some Lt).
  { intros E. rewrite E in Hxy. discriminate. }
  pose proof (SFcompare_total _ _ Nx Ny H) as Hyx.
  rewrite (SFcompare_lt_le_trans _ _ _ E1 Hyx). reflexivity.
Qed.


(** [x - x] is the positive zero for every finite [x]. *)
Lemma sub_self_zero (x : float) : is_finite x = true -> x - x = 0.
Proof.
  intros Hx. apply Prim2SF_inj. rewrite sub_spec.
  change (Prim2SF 0) with (S754_zero false).
  destruct (is_finite_spec x Hx) as [[s ->] | (s & m & e & ->)].
  - destruct s; reflexivity.
  - unfold SF64sub, SFsub. rewrite Z.min_id. unfold shl_align.
    rewrite !Z.sub_diag. reflexivity.
Qed.

(** A finite product has finite factors, and its product with a zero is
    a zero, which added to the positive zero gives the positive zero. *)
Lemma add_zero_mul_zero (x : float) :
  is_finite x = true -> 0 + x * 0 = 0.
Proof.
  intros Hx. apply Prim2SF_inj. rewrite add_spec, mul_spec.
  change (Prim2SF 0) with (S754_zero false).
  destruct (is_finite_spec x Hx) as [[s ->] | (s & m & e & ->)];
    destruct s; reflexivity.
Qed.

Lemma mul_finite_l (x y : float) :
  is_finite (x * y) = true -> is_nan x = false /\ is_infinity x = false.
Proof.
  intros H.
  assert (E : exists z, Prim2SF (x * y) = z /\ z <> S754_nan
                        /\ forall s, z <> S754_infinity s).
  { destruct (is_finite_spec _ H) as [[s E] | (s & m & e & E)];
      rewrite E; eexists; split; try reflexivity; split; intros;
      discriminate. }
  destruct E as (z & E & Hn & Hi).
  rewrite mul_spec in E. unfold SF64mul, SFmul in E. split.
  - destruct (is_nan x) eqn:En; [|reflexivity].
    apply is_nan_spec in En. rewrite En in E. congruence.
  - destruct (is_infinity x) eqn:Ei; [|reflexivity].
    apply is_infinity_spec in Ei. destruct Ei as [sx Ei].
    rewrite Ei in E. exfalso.
    destruct (Prim2SF y); subst z;
      try (apply Hn; reflexivity); eapply Hi; reflexivity.
Qed.

End FloatFacts.

(** *** Failures of the geometry on binary64 floats *)

Section FloatPathFailures.

Import FloatPath PrimFloat.
Local Set Warnings "-inexact-float".
Local Open Scope float_scope.

Variable libm_sin : float -> float.
Variable libm_cos : float -> float.
Variable libm_atan2 : float -> float -> float.
Variable libm_pow2 : float -> float.

Local Abbreviation haversine_term :=
  (FloatPath.haversine_term libm_sin libm_cos libm_pow2).
Local Abbreviation calculate_distance :=
  (FloatPath.calculate_distance libm_sin libm_cos libm_atan2 libm_pow2).
Local Abbreviation distance_to_line_segment :=
  (FloatPath.distance_to_line_segment libm_sin libm_cos libm_atan2 libm_pow2).
Local Abbreviation segment_projection :=
  (FloatPath.segment_projection libm_sin libm_cos libm_atan2 libm_pow2).
Local Abbreviation scan_step :=
  (FloatPath.scan_step libm_sin libm_cos libm_atan2 libm_pow2).
Local Abbreviation scan_segments :=
  (FloatPath.scan_segments libm_sin libm_cos libm_atan2 libm_pow2).
Local Abbreviation find_closest_waypoint_on_path_with :=
  (FloatPath.find_closest_waypoint_on_path_with
     libm_sin libm_cos libm_atan2 libm_pow2).
Local Abbreviation find_closest_waypoint_on_path :=
  (FloatPath.find_closest_waypoint_on_path
     libm_sin libm_cos libm_atan2 libm_pow2).

(** C3: [calculate_distance] applies no clamp.  With the values the C
    library returns for the sines and cosines of the pair (8, 0) and
    (-8, 180), rounding pushes the haversine term to
    1.0000000000000002, [1 - a] is negative and [math.sqrt] raises
    [ValueError]: the function raises for finite inputs. *)
Theorem calculate_distance_raises_near_antipode :
  libm_sin (-0.13962634015954636) = -0.13917310096006544 ->
  libm_pow2 0.13917310096006544 = 0.019369152030840567 ->
  libm_cos 0.13962634015954636 = 0.9902680687415704 ->
  libm_cos (-0.13962634015954636) = 0.9902680687415704 ->
  libm_sin 1.5707963267948966 = 1 ->
  haversine_term 8 0 (-8) 180 = Ok 1.0000000000000002
  /\ calculate_distance 8 0 (-8) 180 = Raise ValueError.
Proof.
  intros H1 H2 H3 H4 H5.
  assert (Ha : haversine_term 8 0 (-8) 180 = Ok 1.0000000000000002).
  { unfold FloatPath.haversine_term, math_sin, math_cos, math_1.
    vm_compute. rewrite H1. vm_compute. rewrite H2. vm_compute.
    rewrite H3. vm_compute. rewrite H4. vm_compute. rewrite H5.
    vm_compute. reflexivity. }
  split; [exact Ha|].
  unfold FloatPath.calculate_distance. rewrite Ha. reflexivity.
Qed.


(** C9: the pair (12, 10) and (-12, -170) has no distance in either
    order: with the values the C library returns, the haversine term is
    above 1 both ways and [math.sqrt] raises [ValueError]. *)
Theorem no_distance_between_near_antipodes :
  libm_sin (-0.20943951023931956) = -0.20791169081775934 ->
  libm_sin 0.20943951023931956 = 0.20791169081775934 ->
  libm_pow2 0.20791169081775934 = 0.04322727117869955 ->
  libm_cos 0.20943951023931956 = 0.9781476007338057 ->
  libm_cos (-0.20943951023931956) = 0.9781476007338057 ->
  libm_sin (-1.5707963267948966) = -1 ->
  libm_sin 1.5707963267948966 = 1 ->
  calculate_distance 12 10 (-12) (-170) = Raise ValueError
  /\ calculate_distance (-12) (-170) 12 10 = Raise ValueError.
Proof.
  intros H1 H2 H3 H4 H5 H6 H7.
  unfold FloatPath.calculate_distance, FloatPath.haversine_term,
    math_sin, math_cos, math_1.
  split.
  - vm_compute. rewrite H1. vm_compute. rewrite H3. vm_compute.
    rewrite H4. vm_compute. rewrite H5. vm_compute. rewrite H6.
    vm_compute. reflexivity.
  - vm_compute. rewrite H2. vm_compute. rewrite H3. vm_compute.
    rewrite H5. vm_compute. rewrite H4. vm_compute. rewrite H7.
    vm_compute. reflexivity.
Qed.

(** C6: on the zero-length segment at (-8, 180) the point (8, 0) makes the
    segment projector raise [ValueError]: the test for a zero length
    passes, and the distance to the start point is the one of C3. *)
Theorem zero_length_segment_raises_domain_error :
  libm_sin (-0.13962634015954636) = -0.13917310096006544 ->
  libm_pow2 0.13917310096006544 = 0.019369152030840567 ->
  libm_cos 0.13962634015954636 = 0.9902680687415704 ->
  libm_cos (-0.13962634015954636) = 0.9902680687415704 ->
  libm_sin 1.5707963267948966 = 1 ->
  distance_to_line_segment 8 0 (-8) 180 (-8) 180 = Raise ValueError.
Proof.
  intros H1 H2 H3 H4 H5.
  unfold FloatPath.distance_to_line_segment, FloatPath.calculate_distance,
    FloatPath.haversine_term, math_sin, math_cos, math_1.
  vm_compute. rewrite H1. vm_compute. rewrite H2. vm_compute.
  rewrite H3. vm_compute. rewrite H4. vm_compute. rewrite H5.
  vm_compute. reflexivity.
Qed.

Lemma scan_raised (wps : list waypoint) (lat lon : float)
  (l : list nat) (e : exception) :
  fold_left (scan_step wps lat lon) l (Raise e) = Raise e.
Proof. induction l as [|i l IH]; simpl; [reflexivity | exact IH]. Qed.

(** A segment on which the segment projector raises makes the loop
    raise, on that segment or on an earlier one. *)
Lemma scan_raises (wps : list waypoint) (lat lon : float)
  (l : list nat) (i : nat) (e : exception) :
  In i l -> segment_projection wps lat lon i = Raise e ->
  forall st, exists e', fold_left (scan_step wps lat lon) l st = Raise e'.
Proof.
  intros Hin Hi. induction l as [|j l IH]; [contradiction|].
  intros st. simpl.
  destruct st as [st | e0].
  2:{ exists e0. apply scan_raised. }
  destruct Hin as [-> | Hin].
  - exists e. unfold FloatPath.scan_step at 2. simpl. rewrite Hi. simpl.
    apply scan_raised.
  - apply IH. assumption.
Qed.

(** C5: the path projector fails.  On the configured waypoints the point
    (-36.1480003, 64.572) is projected, in the third segment, onto a
    point of the road nearly opposite to it on the globe, and with the
    values the C library returns there the distance raises [ValueError];
    and on the two waypoints (0, 0) and (1e-200, 0) the squared length of
    the only segment underflows to zero although its ends differ, so that
    every point raises [ZeroDivisionError]. *)
Theorem path_projector_raises :
  libm_sin 0.6309016206289042 = 0.5898730526500883 ->
  libm_pow2 0.5898730526500883 = 0.3479502182427338 ->
  libm_cos (-0.630901623246898) = 0.8074959933419236 ->
  libm_cos 0.6309016180109103 = 0.8074959964304917 ->
  libm_sin (-1.5707963267948966) = -1 ->
  (exists e,
     find_closest_waypoint_on_path (-36.1480003) 64.572 = Raise e)
  /\ segment_projection SCENIC_LOOP_WAYPOINTS (-36.1480003) 64.572 2
     = Raise ValueError
  /\ forall lat lon,
       find_closest_waypoint_on_path_with
         [ Waypoint 0 0 "start"; Waypoint 1e-200 0 "end" ] lat lon
       = Raise ZeroDivisionError.
Proof.
  intros H1 H2 H3 H4 H5.
  assert (Hseg : segment_projection SCENIC_LOOP_WAYPOINTS
                   (-36.1480003) 64.572 2 = Raise ValueError).
  { unfold FloatPath.segment_projection, FloatPath.distance_to_line_segment,
      FloatPath.calculate_distance, FloatPath.haversine_term,
      math_sin, math_cos, math_1.
    vm_compute. rewrite H1. vm_compute. rewrite H2. vm_compute.
    rewrite H3. vm_compute. rewrite H4. vm_compute. rewrite H5.
    vm_compute. reflexivity. }
  split; [|split; [exact Hseg|]].
  - unfold FloatPath.find_closest_waypoint_on_path,
      FloatPath.find_closest_waypoint_on_path_with, FloatPath.scan_segments.
    destruct (scan_raises SCENIC_LOOP_WAYPOINTS (-36.1480003) 64.572
                (seq 0 (List.length SCENIC_LOOP_WAYPOINTS - 1)) 2 ValueError)
      with (st := Ok scan_init) as (e & He).
    + simpl. tauto.
    + exact Hseg.
    + exists e. rewrite He. reflexivity.
  - intros lat lon.
    unfold FloatPath.find_closest_waypoint_on_path_with,
      FloatPath.scan_segments, FloatPath.scan_step,
      FloatPath.segment_projection, FloatPath.distance_to_line_segment.
    reflexivity.
Qed.


(** The exceptions of the distance primitive. *)
Lemma math_1_raises (func : float -> float) (x : float) (e : exception) :
  math_1 func x = Raise e -> e = ValueError.
Proof.
  unfold math_1.
  destruct (is_nan (func x) && negb (is_nan x));
    [intros [= <-]; reflexivity|].
  destruct (is_infinity (func x) && is_finite x);
    [intros [= <-]; reflexivity | discriminate].
Qed.

Lemma float_pow2_raises (iv : float) (e : exception) :
  float_pow2 libm_pow2 iv = Raise e -> e = OverflowError.
Proof.
  unfold float_pow2.
  destruct (is_nan iv); [discriminate|].
  destruct (is_infinity iv); [discriminate|].
  destruct (iv =? 0); [discriminate|].
  destruct ((if iv <? 0 then - iv else iv) =? 1); [discriminate|].
  destruct (is_infinity _); [intros [= <-]; reflexivity | discriminate].
Qed.

Lemma math_atan2_raises (y x : float) (e : exception) :
  math_atan2 libm_atan2 y x = Raise e ->
  e = ValueError \/ e = OverflowError.
Proof.
  unfold math_atan2.
  destruct (is_nan _).
  - destruct (negb (is_nan y) && negb (is_nan x));
      [intros [= <-]; left; reflexivity | discriminate].
  - destruct (is_infinity _); [|discriminate].
    destruct (is_finite y && is_finite x);
      [intros [= <-]; right; reflexivity | discriminate].
Qed.

Lemma calculate_distance_raises (lat1 lon1 lat2 lon2 : float)
  (e : exception) :
  calculate_distance lat1 lon1 lat2 lon2 = Raise e ->
  e = ValueError \/ e = OverflowError.
Proof.
  unfold FloatPath.calculate_distance, FloatPath.haversine_term,
    central_angle, math_sin, math_cos, math_sqrt.
  repeat
    match goal with
    | |- context [and_then (math_1 ?f ?x) _] =>
        let E := fresh "E" in
        destruct (math_1 f x) eqn:E; cbn [and_then];
        [|intros [= <-]; left; exact (math_1_raises _ _ _ E)]
    | |- context [and_then (float_pow2 ?p ?x) _] =>
        let E := fresh "E" in
        destruct (float_pow2 p x) eqn:E; cbn [and_then];
        [|intros [= <-]; right; exact (float_pow2_raises _ _ E)]
    | |- context [and_then (math_atan2 ?f ?y ?x) _] =>
        let E := fresh "E" in
        destruct (math_atan2 f y x) eqn:E; cbn [and_then];
        [|intros [= <-]; exact (math_atan2_raises _ _ _ E)]
    end.
  discriminate.
Qed.

(** X25: on a zero-length segment with finite ends the segment projector
    does not reach the division, for any point: it hands on what
    [calculate_distance] does for the start point, with the fraction 0,
    and so never raises [ZeroDivisionError]. *)
Theorem zero_length_segment_never_divides (px py x y : float) :
  is_finite x = true -> is_finite y = true ->
  distance_to_line_segment px py x y x y
  = (dist <-- calculate_distance px py x y ;; Ok (dist, 0))
  /\ distance_to_line_segment px py x y x y <> Raise ZeroDivisionError.
Proof.
  intros Hx Hy.
  assert (E : distance_to_line_segment px py x y x y
              = (dist <-- calculate_distance px py x y ;; Ok (dist, 0))).
  { unfold FloatPath.distance_to_line_segment.
    rewrite (sub_self x Hx), (sub_self y Hy). reflexivity. }
  split; [exact E|]. rewrite E.
  destruct (calculate_distance px py x y) as [d | e] eqn:Ed;
    cbn [and_then]; [discriminate|].
  intros [= ->].
  destruct (calculate_distance_raises _ _ _ _ _ Ed); discriminate.
Qed.

(** X26: the segment projector raises [ZeroDivisionError] exactly when the
    test for a zero length fails and yet the squared length
    [dx * dx + dy * dy] is zero, as it is when the squares underflow. *)
Theorem division_fails_exactly_on_zero_squared_length
  (px py x1 y1 x2 y2 : float) :
  let dx := x2 - x1 in
  let dy := y2 - y1 in
  distance_to_line_segment px py x1 y1 x2 y2 = Raise ZeroDivisionError
  <-> (dx =? 0) && (dy =? 0) = false /\ (dx * dx + dy * dy =? 0) = true.
Proof.
  intros dx dy. unfold FloatPath.distance_to_line_segment. fold dx dy.
  destruct ((dx =? 0) && (dy =? 0)) eqn:Eguard.
  - split; [|intros [H _]; discriminate].
    destruct (calculate_distance px py x1 y1) as [d | e] eqn:Ed;
      cbn [and_then]; [discriminate|].
    intros [= ->].
    destruct (calculate_distance_raises _ _ _ _ _ Ed); discriminate.
  - unfold float_div.
    destruct (dx * dx + dy * dy =? 0) eqn:Ezero; cbn [and_then].
    + split; [intros _; split; reflexivity | reflexivity].
    + split; [|intros [_ H]; discriminate].
      match goal with
      | |- and_then ?m _ = _ -> _ => destruct m as [d | e] eqn:Ed
      end; cbn [and_then]; [discriminate|].
      intros [= ->].
      destruct (calculate_distance_raises _ _ _ _ _ Ed); discriminate.
Qed.

(** X27: whenever the segment projector returns, the fraction is between
    0 and 1, whatever the floats given, NaN and infinities included. *)
Theorem segment_fraction_in_unit_interval
  (px py x1 y1 x2 y2 d t : float) :
  distance_to_line_segment px py x1 y1 x2 y2 = Ok (d, t) ->
  (0 <=? t) = true /\ (t <=? 1) = true.
Proof.
  unfold FloatPath.distance_to_line_segment.
  destruct ((x2 - x1 =? 0) && (y2 - y1 =? 0)).
  - destruct (calculate_distance px py x1 y1); cbn [and_then];
      [|discriminate].
    intros [= _ <-]. split; reflexivity.
  - destruct (float_div _ _) as [t0|]; cbn [and_then]; [|discriminate].
    match goal with
    | |- and_then ?m _ = _ -> _ => destruct m
    end; cbn [and_then]; [|discriminate].
    intros [= _ <-]. unfold py_max, py_min.
    destruct (t0 <? 1) eqn:E1.
    + destruct (0 <? t0) eqn:E0.
      * split; apply ltb_leb; assumption.
      * split; reflexivity.
    + split; reflexivity.
Qed.

End FloatPathFailures.

Section FloatPathWitnesses.

Import FloatPath PrimFloat.
Local Set Warnings "-inexact-float".
Local Open Scope float_scope.

Lemma calculate_distance_raises_near_antipode_witness :
  FloatPath.calculate_distance
    reference_sin reference_cos reference_atan2 reference_pow2
    8 0 (-8) 180
  = Raise ValueError.
Proof.
  apply (calculate_distance_raises_near_antipode
           reference_sin reference_cos reference_atan2 reference_pow2);
    vm_compute; reflexivity.
Defined.


Lemma no_distance_between_near_antipodes_witness :
  FloatPath.calculate_distance
    reference_sin reference_cos reference_atan2 reference_pow2
    12 10 (-12) (-170)
  = Raise ValueError
  /\ FloatPath.calculate_distance
       reference_sin reference_cos reference_atan2 reference_pow2
       (-12) (-170) 12 10
     = Raise ValueError.
Proof.
  apply (no_distance_between_near_antipodes
           reference_sin reference_cos reference_atan2 reference_pow2);
    vm_compute; reflexivity.
Defined.

Lemma zero_length_segment_raises_domain_error_witness :
  FloatPath.distance_to_line_segment
    reference_sin reference_cos reference_atan2 reference_pow2
    8 0 (-8) 180 (-8) 180
  = Raise ValueError.
Proof.
  apply (zero_length_segment_raises_domain_error
           reference_sin reference_cos reference_atan2 reference_pow2);
    vm_compute; reflexivity.
Defined.

Lemma path_projector_raises_witness :
  exists e,
    FloatPath.find_closest_waypoint_on_path
      reference_sin reference_cos reference_atan2 reference_pow2
      (-36.1480003) 64.572
    = Raise e.
Proof.
  apply (path_projector_raises
           reference_sin reference_cos reference_atan2 reference_pow2);
    vm_compute; reflexivity.
Defined.


Lemma zero_length_segment_never_divides_witness :
  FloatPath.distance_to_line_segment
    reference_sin reference_cos reference_atan2 reference_pow2
    36.14 (-115.44) 36.1588 (-115.4264) 36.1588 (-115.4264)
  <> Raise ZeroDivisionError.
Proof.
  apply (zero_length_segment_never_divides
           reference_sin reference_cos reference_atan2 reference_pow2
           36.14 (-115.44) 36.1588 (-115.4264));
    reflexivity.
Defined.

Lemma segment_fraction_in_unit_interval_witness :
  exists d t,
    FloatPath.distance_to_line_segment
      reference_sin reference_cos reference_atan2 reference_pow2
      36.14 (-115.44) 36.1588 (-115.4264) 36.1450 (-115.4450)
    = Ok (d, t)
    /\ (0 <=? t) = true /\ (t <=? 1) = true.
Proof.
  eexists. eexists. split; [vm_compute; reflexivity|].
  eapply (segment_fraction_in_unit_interval
            reference_sin reference_cos reference_atan2 reference_pow2
            36.14 (-115.44) 36.1588 (-115.4264) 36.1450 (-115.4450)).
  vm_compute. reflexivity.
Defined.

End FloatPathWitnesses.

(** *** Symmetry of the distance on binary64 floats *)

Section FloatDistanceSymmetry.

Import FloatPath PrimFloat.
Local Set Warnings "-inexact-float".
Local Open Scope float_scope.

Variable libm_sin : float -> float.
Variable libm_cos : float -> float.
Variable libm_atan2 : float -> float -> float.
Variable libm_pow2 : float -> float.

Local Abbreviation math_sin := (FloatPath.math_sin libm_sin).
Local Abbreviation math_cos := (FloatPath.math_cos libm_cos).
Local Abbreviation float_pow2 := (FloatPath.float_pow2 libm_pow2).
Local Abbreviation haversine_term :=
  (FloatPath.haversine_term libm_sin libm_cos libm_pow2).
Local Abbreviation calculate_distance :=
  (FloatPath.calculate_distance libm_sin libm_cos libm_atan2 libm_pow2).

Lemma and_then_assoc {A B C : Type} (m : outcome A)
  (f : A -> outcome B) (k : B -> outcome C) :
  (a <-- m ;; b <-- f a ;; k b) = (b <-- (a <-- m ;; f a) ;; k b).
Proof. destruct m; reflexivity. Qed.

(** Where the sine of the C library is odd, [math.sin] is. *)
Lemma math_sin_opp (x : float) :
  libm_sin (- x) = - libm_sin x ->
  math_sin (- x) = (r <-- math_sin x ;; Ok (- r)).
Proof.
  intros H. unfold FloatPath.math_sin, math_1.
  rewrite H, !is_nan_opp, is_infinity_opp, is_finite_opp.
  destruct (is_nan (libm_sin x) && negb (is_nan x)); [reflexivity|].
  destruct (is_infinity (libm_sin x) && is_finite x); reflexivity.
Qed.

(** [x ** 2] does not see the sign of [x]. *)
Lemma float_pow2_opp (r : float) : float_pow2 (- r) = float_pow2 r.
Proof.
  unfold FloatPath.float_pow2.
  rewrite is_nan_opp, is_infinity_opp, abs_opp, eqb_zero_opp.
  destruct (is_nan r) eqn:Enan; [rewrite (opp_nan r Enan); reflexivity|].
  destruct (is_infinity r); [reflexivity|].
  destruct (r =? 0) eqn:Ezero; [reflexivity|].
  rewrite (ltb_zero_opp r Enan Ezero).
  destruct (r <? 0); cbn [negb]; rewrite ?opp_involutive; reflexivity.
Qed.

(** The squared sine of half the difference, as [calculate_distance]
    computes it, for the difference taken one way and the other. *)
Lemma squared_sine_swap (x y : float) :
  libm_sin (- (math_radians (y - x) / 2))
  = - libm_sin (math_radians (y - x) / 2) ->
  (s <-- math_sin (math_radians (x - y) / 2) ;; float_pow2 s)
  = (s <-- math_sin (math_radians (y - x) / 2) ;; float_pow2 s).
Proof.
  intros Hodd.
  destruct (sub_swap y x) as [E | [E1 E2]].
  - rewrite E. unfold math_radians.
    rewrite mul_opp_l, div_opp_l.
    fold (math_radians (y - x)).
    rewrite (math_sin_opp _ Hodd).
    destruct (math_sin (math_radians (y - x) / 2)); cbn [and_then];
      [apply float_pow2_opp | reflexivity].
  - rewrite E1, E2. reflexivity.
Qed.

(** X28: the distance is symmetric on floats: with the two coordinates
    swapped, [calculate_distance] returns the same float or raises the
    same exception, for every C library whose sine is odd at the two
    half differences. *)
Theorem calculate_distance_symmetric (lat1 lon1 lat2 lon2 : float) :
  libm_sin (- (math_radians (lat2 - lat1) / 2))
  = - libm_sin (math_radians (lat2 - lat1) / 2) ->
  libm_sin (- (math_radians (lon2 - lon1) / 2))
  = - libm_sin (math_radians (lon2 - lon1) / 2) ->
  calculate_distance lat2 lon2 lat1 lon1
  = calculate_distance lat1 lon1 lat2 lon2.
Proof.
  intros Hlat Hlon.
  assert (Ha : haversine_term lat2 lon2 lat1 lon1
               = haversine_term lat1 lon1 lat2 lon2).
  { unfold FloatPath.haversine_term.
    rewrite !(and_then_assoc (math_sin _) (fun s => float_pow2 s)).
    rewrite (squared_sine_swap lat1 lat2 Hlat).
    destruct (s <-- math_sin (math_radians (lat2 - lat1) / 2) ;;
              float_pow2 s) as [h1 | e];
      cbn [and_then]; [|reflexivity].
    destruct (FloatPath.math_cos libm_cos (math_radians lat1))
      as [c1 | e1] eqn:E1;
      destruct (FloatPath.math_cos libm_cos (math_radians lat2))
        as [c2 | e2] eqn:E2;
      cbn [and_then]; try reflexivity.
    2:{ rewrite (math_1_raises _ _ _ E1), (math_1_raises _ _ _ E2).
        reflexivity. }
    rewrite !(and_then_assoc (math_sin _) (fun s => float_pow2 s)).
    rewrite (squared_sine_swap lon1 lon2 Hlon).
    rewrite (mul_comm c2 c1). reflexivity. }
  unfold FloatPath.calculate_distance. rewrite Ha. reflexivity.
Qed.


(** X30: the distance from a finite coordinate to itself is exactly 0.0,
    for every C library whose sine of zero is zero and whose cosine of the
    latitude is a number with a finite square. *)
Theorem calculate_distance_to_itself (lat lon : float) :
  is_finite lat = true -> is_finite lon = true ->
  libm_sin 0 = 0 ->
  is_finite (libm_cos (math_radians lat) * libm_cos (math_radians lat))
  = true ->
  calculate_distance lat lon lat lon = Ok 0.
Proof.
  intros Hlat Hlon Hsin Hcos.
  destruct (mul_finite_l _ _ Hcos) as [Hnan Hinf].
  unfold FloatPath.calculate_distance, FloatPath.haversine_term.
  rewrite (sub_self_zero lat Hlat), (sub_self_zero lon Hlon).
  change (math_radians 0 / 2) with 0.
  assert (Es : math_sin 0 = Ok 0).
  { unfold FloatPath.math_sin, math_1. rewrite Hsin. reflexivity. }
  assert (Ec : FloatPath.math_cos libm_cos (math_radians lat)
               = Ok (libm_cos (math_radians lat))).
  { unfold FloatPath.math_cos, math_1. rewrite Hnan, Hinf. reflexivity. }
  rewrite Es, Ec. cbn [and_then].
  change (FloatPath.float_pow2 libm_pow2 0) with (@Ok float 0).
  cbn [and_then].
  rewrite (add_zero_mul_zero _ Hcos). reflexivity.
Qed.

End FloatDistanceSymmetry.

Section FloatDistanceSymmetryWitness.

Import FloatPath PrimFloat.
Local Set Warnings "-inexact-float".
Local Open Scope float_scope.

Lemma calculate_distance_symmetric_witness :
  FloatPath.calculate_distance
    reference_sin reference_cos reference_atan2 reference_pow2
    36.1450 (-115.4450) 36.1588 (-115.4264)
  = FloatPath.calculate_distance
      reference_sin reference_cos reference_atan2 reference_pow2
      36.1588 (-115.4264) 36.1450 (-115.4450).
Proof.
  apply (calculate_distance_symmetric
           reference_sin reference_cos reference_atan2 reference_pow2);
    vm_compute; reflexivity.
Defined.


Lemma calculate_distance_to_itself_witness :
  FloatPath.calculate_distance
    reference_sin reference_cos reference_atan2 reference_pow2
    36.1588 (-115.4264) 36.1588 (-115.4264)
  = Ok 0.
Proof.
  apply (calculate_distance_to_itself
           reference_sin reference_cos reference_atan2 reference_pow2);
    vm_compute; reflexivity.
Defined.

End FloatDistanceSymmetryWitness.

(** *** The choice of the segment on binary64 floats *)

Section FloatEarliestMinimum.

Import FloatPath PrimFloat.
Local Set Warnings "-inexact-float".
Local Open Scope float_scope.

Variable libm_sin : float -> float.
Variable libm_cos : float -> float.
Variable libm_atan2 : float -> float -> float.
Variable libm_pow2 : float -> float.
Variable wps : list waypoint.
Variable lat lon : float.

Local Abbreviation segment :=
  (FloatPath.segment_projection libm_sin libm_cos libm_atan2 libm_pow2
     wps lat lon).
Local Abbreviation step :=
  (FloatPath.scan_step libm_sin libm_cos libm_atan2 libm_pow2 wps lat lon).

Lemma scan_step_ok (o : outcome scan) (k : nat) (st' : scan) :
  step o k = Ok st' ->
  exists st d t,
    o = Ok st /\ segment k = Ok (d, t)
    /\ st' = if d <? min_distance st then Scan d k t else st.
Proof.
  unfold FloatPath.scan_step.
  destruct o as [st | e]; cbn [and_then]; [|discriminate].
  destruct (segment k) as [[d t] | e]; cbn [and_then]; [|discriminate].
  intros [= <-]. exists st, d, t. auto.
Qed.

(** After the first [k] segments the loop variables hold a segment that
    no scanned segment is strictly closer than, and that is strictly
    closer than every segment before it. *)
Lemma scan_prefix_earliest (k : nat) (st : scan) :
  fold_left step (seq 0 k) (Ok scan_init) = Ok st ->
  is_nan (min_distance st) = false
  /\ (forall j, (j < k)%nat ->
        exists d t, segment j = Ok (d, t)
                    /\ (d <? min_distance st) = false)
  /\ (st = scan_init
      \/ exists i,
           (i < k)%nat /\ closest_segment st = i
           /\ segment i
              = Ok (min_distance st, closest_position_on_segment st)
           /\ forall j d t, (j < i)%nat -> segment j = Ok (d, t) ->
                is_nan d = true \/ (min_distance st <? d) = true).
Proof.
  revert st. induction k as [|k IH]; intros st H.
  - simpl in H. injection H as <-.
    split; [reflexivity|]. split; [intros j Hj; lia | left; reflexivity].
  - rewrite seq_S, fold_left_app in H. simpl in H.
    apply scan_step_ok in H. destruct H as (st0 & d & t & E0 & Ek & ->).
    destruct (IH st0 E0) as (Hnan & HA & HB).
    destruct (d <? min_distance st0) eqn:Elt.
    + cbn [min_distance closest_segment closest_position_on_segment].
      destruct (ltb_not_nan _ _ Elt) as [Hd _].
      split; [exact Hd|]. split.
      * intros j Hj. destruct (Nat.eq_dec j k) as [-> | Hne].
        -- exists d, t. split; [exact Ek | apply ltb_irrefl].
        -- destruct (HA j ltac:(lia)) as (dj & tj & Ej & Hj').
           exists dj, tj. split; [exact Ej|].
           destruct (dj <? d) eqn:E; [|reflexivity].
           rewrite (ltb_trans _ _ _ E Elt) in Hj'. discriminate.
      * right. exists k. split; [lia|]. split; [reflexivity|].
        split; [exact Ek|].
        intros j dj tj Hj Ej.
        destruct (HA j Hj) as (dj' & tj' & Ej' & Hj').
        rewrite Ej in Ej'. injection Ej' as <- <-.
        destruct (is_nan dj) eqn:En; [left; reflexivity|]. right.
        apply (ltb_through dj (min_distance st0) d); assumption.
    + split; [exact Hnan|]. split.
      * intros j Hj. destruct (Nat.eq_dec j k) as [-> | Hne].
        -- exists d, t. split; assumption.
        -- apply HA. lia.
      * destruct HB as [-> | (i & Hi & Hc & Es & Hearlier)];
          [left; reflexivity|].
        right. exists i. split; [lia|]. split; [exact Hc|].
        split; assumption.
Qed.

(** X29: whenever the path projector returns, every segment was projected,
    none of them is strictly closer than the distance returned, and,
    unless no segment got below the initial [float('inf')], the distance
    and the progress [(k + t) / (W - 1)] are those of a segment [k] that
    is strictly closer than every earlier segment whose distance is a
    number: ties go to the earliest segment. *)
Theorem path_projector_keeps_earliest_minimum (p m : float) :
  FloatPath.find_closest_waypoint_on_path_with
    libm_sin libm_cos libm_atan2 libm_pow2 wps lat lon
  = Ok (p, m) ->
  (forall j, (j < List.length wps - 1)%nat ->
     exists d t, segment j = Ok (d, t) /\ (d <? m) = false)
  /\ (m = infinity
      \/ exists k t,
           (k < List.length wps - 1)%nat
           /\ segment k = Ok (m, t)
           /\ p = (float_of_nat k + t)
                  / float_of_Z (Z.of_nat (List.length wps) - 1)
           /\ forall j d tj, (j < k)%nat -> segment j = Ok (d, tj) ->
                is_nan d = true \/ (m <? d) = true).
Proof.
  unfold FloatPath.find_closest_waypoint_on_path_with,
    FloatPath.scan_segments.
  destruct (fold_left step (seq 0 (List.length wps - 1)) (Ok scan_init))
    as [st | e] eqn:Es; cbn [and_then]; [|discriminate].
  unfold float_div.
  destruct (float_of_Z (Z.of_nat (List.length wps) - 1) =? 0);
    cbn [and_then]; [discriminate|].
  intros [= <- <-].
  destruct (scan_prefix_earliest _ st Es) as (_ & HA & HB).
  split; [exact HA|].
  destruct HB as [-> | (i & Hi & Hc & Eseg & Hearlier)].
  - left. reflexivity.
  - right. exists i, (closest_position_on_segment st).
    split; [exact Hi|]. split; [exact Eseg|].
    split; [rewrite Hc; reflexivity | exact Hearlier].
Qed.

End FloatEarliestMinimum.

Section FloatEarliestMinimumWitness.

Import FloatPath PrimFloat.
Local Set Warnings "-inexact-float".
Local Open Scope float_scope.

Lemma path_projector_keeps_earliest_minimum_witness :
  FloatPath.segment_projection
    reference_sin reference_cos reference_atan2 reference_pow2
    SCENIC_LOOP_WAYPOINTS 36.1588 (-115.4264) 10
  = Ok (0, 1)
  /\ exists k t,
       (k < 11)%nat
       /\ FloatPath.segment_projection
            reference_sin reference_cos reference_atan2 reference_pow2
            SCENIC_LOOP_WAYPOINTS 36.1588 (-115.4264) k
          = Ok (0, t)
       /\ (0 : float) = (float_of_nat k + t) / 11.
Proof.
  split; [vm_compute; reflexivity|].
  destruct (path_projector_keeps_earliest_minimum
              reference_sin reference_cos reference_atan2 reference_pow2
              SCENIC_LOOP_WAYPOINTS 36.1588 (-115.4264) 0 0)
    as [_ [H | (k & t & Hk & Eseg & Ep & _)]].
  - vm_compute. reflexivity.
  - apply (f_equal is_infinity) in H. vm_compute in H. discriminate.
  - exists k, t. split; [exact Hk|]. split; [exact Eseg | exact Ep].
Defined.

End FloatEarliestMinimumWitness.

(** *** Verified properties of the scoring functions *)

Section ScoringProperties.

Import Scoring.
Local Open Scope string_scope.

Lemma prefix_append (p s : string) : prefix p (p ++ s) = true.
Proof.
  induction p as [|c p IH]; simpl.
  - destruct s; reflexivity.
  - rewrite IH. destruct (ascii_dec c c); [reflexivity | congruence].
Qed.

Lemma append_assoc (a b c : string) : (a ++ b) ++ c = a ++ (b ++ c).
Proof. induction a as [|x a IH]; simpl; [reflexivity | now rewrite IH]. Qed.

(** [contains] finds every occurrence. *)
Lemma contains_occurrence (sub pre post : string) :
  contains sub (pre ++ sub ++ post) = true.
Proof.
  induction pre as [|c pre IH].
  - change ("" ++ sub ++ post) with (sub ++ post).
    pose proof (prefix_append sub post) as P.
    destruct (sub ++ post); cbn [contains]; rewrite P; reflexivity.
  - change (String c pre ++ sub ++ post) with (String c (pre ++ sub ++ post)).
    cbn [contains]. rewrite IH. apply orb_true_r.
Qed.

(** Stripping removes nothing from an occurrence that starts and ends with
    a character that is not white space. *)
Lemma lstrip_keeps (c : ascii) (sub' pre post : string) :
  isspace c = false ->
  exists pre', lstrip (pre ++ String c sub' ++ post)
               = pre' ++ String c sub' ++ post.
Proof.
  intros Hc. induction pre as [|x pre IH]; simpl.
  - rewrite Hc. exists "". reflexivity.
  - destruct (isspace x).
    + exact IH.
    + exists (String x pre). reflexivity.
Qed.

Lemma rstrip_keeps_suffix (sub post : string) (c : ascii) :
  isspace c = false ->
  exists post', rstrip ((sub ++ String c "") ++ post)
                = (sub ++ String c "") ++ post'.
Proof.
  intros Hc. induction sub as [|x sub IH]; simpl.
  - destruct (rstrip post) as [|y r] eqn:E.
    + rewrite Hc. exists "". reflexivity.
    + exists (String y r). reflexivity.
  - destruct IH as [post' E]. exists post'. rewrite E.
    destruct ((sub ++ String c "") ++ post') eqn:E'.
    + destruct sub; discriminate.
    + reflexivity.
Qed.

Lemma rstrip_keeps (sub pre post : string) (c : ascii) :
  isspace c = false ->
  exists post', rstrip (pre ++ (sub ++ String c "") ++ post)
                = pre ++ (sub ++ String c "") ++ post'.
Proof.
  intros Hc. induction pre as [|x pre IH]; simpl.
  - apply rstrip_keeps_suffix. assumption.
  - destruct IH as [post' E]. exists post'. rewrite E.
    destruct (pre ++ (sub ++ String c "") ++ post') eqn:E'.
    + destruct pre; [destruct sub|]; discriminate.
    + reflexivity.
Qed.

Lemma strip_keeps_Sport (pre post : string) :
  exists pre' post', strip (pre ++ "Sport" ++ post) = pre' ++ "Sport" ++ post'.
Proof.
  unfold strip.
  destruct (lstrip_keeps "S" "port" pre post eq_refl) as [pre' ->].
  destruct (rstrip_keeps "Spor" pre' post "t" eq_refl) as [post' E].
  exists pre', post'. exact E.
Qed.

(** C10: a route type that contains both "Sport" and "Multi-Pitch" scores
    +1: the test for "Sport" comes first. *)
Theorem sport_takes_precedence (s pre post pre' post' : string) :
  s = pre ++ "Sport" ++ post ->
  s = pre' ++ "Multi-Pitch" ++ post' ->
  calculate_route_type_score (Str s) = 1%Z.
Proof.
  intros -> _. unfold calculate_route_type_score.
  destruct (strip_keeps_Sport pre post) as (p & q & ->).
  rewrite contains_occurrence. reflexivity.
Qed.

Lemma sport_takes_precedence_witness :
  calculate_route_type_score (Str "Trad, Multi-Pitch, Sport") = 1%Z.
Proof.
  apply (sport_takes_precedence "Trad, Multi-Pitch, Sport"
           "Trad, Multi-Pitch, " "" "Trad, " ", Sport");
    reflexivity.
Defined.

(** C7: the grades of the specification's examples. *)
Theorem grade_parsing_examples :
  parse_rating (Str "5.10a") = 10%Q
  /\ categorize_grade (Str "5.10a") = "5.9-5.10"
  /\ parse_rating (Str "5.7") = 7%Q
  /\ categorize_grade (Str "5.7") = "5.7-5.8"
  /\ parse_rating (Str "5.11c PG13") = (23 # 2)%Q
  /\ categorize_grade (Str "5.11c PG13") = "5.11"
  /\ parse_rating (Str "") = 0%Q
  /\ categorize_grade (Str "") = "unknown"
  /\ parse_rating (Str "V3") = 0%Q
  /\ categorize_grade (Str "V3") = "unknown"
  /\ parse_rating NaN = 0%Q
  /\ categorize_grade NaN = "unknown".
Proof. repeat split; vm_compute; reflexivity. Qed.

Local Open Scope Q_scope.

Lemma Qle_bool_false (a b : Q) : Qle_bool a b = false -> b < a.
Proof.
  intros H. apply Qnot_le_lt. intros X.
  apply Qle_bool_iff in X. congruence.
Qed.

(** The bands of the difficulty score, on the parsed value. *)
Lemma calculate_difficulty_score_bands (r : cell) :
  let d := parse_rating r in
  (d == 0 -> calculate_difficulty_score r = 0%Z)
  /\ (7 <= d <= 43 # 4 -> calculate_difficulty_score r = 2%Z)
  /\ (d < 7 -> ~ d == 0 -> calculate_difficulty_score r = 1%Z)
  /\ (43 # 4 < d -> calculate_difficulty_score r = 0%Z).
Proof.
  intros d. unfold calculate_difficulty_score, Qlt_bool. fold d.
  clearbody d.
  destruct (Qeq_bool d 0) eqn:E0.
  - apply Qeq_bool_iff in E0.
    repeat split; intros; try reflexivity; exfalso; try contradiction; lra.
  - assert (N0 : ~ d == 0) by (intros X; apply Qeq_bool_iff in X; congruence).
    destruct (Qle_bool 7 d) eqn:E7.
    + apply Qle_bool_iff in E7.
      destruct (Qle_bool d (43 # 4)) eqn:E10; simpl.
      * apply Qle_bool_iff in E10.
        repeat split; intros; try reflexivity; exfalso; try contradiction; lra.
      * apply Qle_bool_false in E10.
        repeat split; intros; try reflexivity; exfalso; try contradiction; lra.
    + apply Qle_bool_false in E7. simpl.
      repeat split; intros; try reflexivity; exfalso; try contradiction; lra.
Qed.

(** C4: the grade 5.0 parses to the value 0 that also stands for an
    unparseable rating; it is scored 0 and categorised "unknown", while
    the other grades below 5.7 are scored 1 and fall in "5.0-5.6". *)
Theorem grade_5_0_scored_as_unparseable :
  parse_rating (Str "5.0") = 0%Q
  /\ calculate_difficulty_score (Str "5.0") = 0%Z
  /\ categorize_grade (Str "5.0") = "unknown"
  /\ calculate_difficulty_score (Str "5.1") = 1%Z
  /\ calculate_difficulty_score (Str "5.6") = 1%Z
  /\ categorize_grade (Str "5.6") = "5.0-5.6".
Proof. repeat split; vm_compute; reflexivity. Qed.

End ScoringProperties.

(** *** Sorting a frame *)

Section SortValuesProperties.

Import Pandas.

Context {A : Type}.
Variable leb : A -> A -> bool.
Hypothesis leb_total : forall x y, leb x y = false -> leb y x = true.

Lemma insert_row_permutation (x : A) (l : list A) :
  Permutation (insert_row leb x l) (x :: l).
Proof.
  induction l as [|y l IH]; simpl.
  - apply Permutation_refl.
  - destruct (leb x y).
    + apply Permutation_refl.
    + apply perm_trans with (y :: x :: l).
      * apply perm_skip, IH.
      * apply perm_swap.
Qed.

Lemma sort_values_permutation (l : list A) :
  Permutation (sort_values leb l) l.
Proof.
  induction l as [|x l IH]; simpl.
  - apply perm_nil.
  - apply perm_trans with (x :: sort_values leb l).
    + apply insert_row_permutation.
    + apply perm_skip, IH.
Qed.

Lemma insert_row_head (x y : A) (l : list A) :
  HdRel (precedes leb) y l -> precedes leb y x ->
  HdRel (precedes leb) y (insert_row leb x l).
Proof.
  intros Hl Hyx. destruct l as [|z l]; simpl.
  - constructor. assumption.
  - destruct (leb x z); constructor; [assumption|].
    inversion Hl; assumption.
Qed.

Lemma insert_row_sorted (x : A) (l : list A) :
  Sorted (precedes leb) l -> Sorted (precedes leb) (insert_row leb x l).
Proof.
  induction l as [|y l IH]; intros Hs; simpl.
  - repeat constructor.
  - destruct (leb x y) eqn:E.
    + constructor; [assumption|]. constructor. exact E.
    + inversion Hs as [|? ? Hs' Hhd]; subst.
      constructor; [apply IH; assumption|].
      apply insert_row_head; [assumption|].
      apply leb_total. exact E.
Qed.

Lemma sort_values_sorted (l : list A) :
  Sorted (precedes leb) (sort_values leb l).
Proof.
  induction l as [|x l IH]; simpl.
  - constructor.
  - apply insert_row_sorted, IH.
Qed.

End SortValuesProperties.

(** *** Verified properties of the area aggregation *)

Section AreaSummaryProperties.

Import Pandas Scoring AreaSummary.
Local Open Scope string_scope.
Local Open Scope Q_scope.

Lemma key_eqb_eq (k1 k2 : string * string) :
  key_eqb k1 k2 = true <-> k1 = k2.
Proof.
  destruct k1 as [a c], k2 as [a' c']. unfold key_eqb. simpl.
  rewrite andb_true_iff, !String.eqb_eq. split.
  - intros [-> ->]. reflexivity.
  - intros [= -> ->]. split; reflexivity.
Qed.

(** Membership in a group is the exact match of both labels. *)
Lemma in_group_iff (k : string * string) (r : row) :
  in_group k r = true <-> group_key r = Some k.
Proof.
  unfold in_group. destruct (group_key r) as [k'|].
  - rewrite key_eqb_eq. split; [intros -> | intros [= ->]]; reflexivity.
  - split; discriminate.
Qed.

Lemma existsb_key (k : string * string) (seen : list (string * string)) :
  existsb (key_eqb k) seen = true <-> In k seen.
Proof.
  rewrite existsb_exists. split.
  - intros (k' & Hin & E). apply key_eqb_eq in E. subst. assumption.
  - intros Hin. exists k. split; [assumption | apply key_eqb_eq; reflexivity].
Qed.

Lemma distinct_keys_sound (seen : list (string * string)) (df : list row)
  (k : string * string) :
  In k (distinct_keys seen df) ->
  ~ In k seen /\ exists r, In r df /\ group_key r = Some k.
Proof.
  revert seen. induction df as [|r df IH]; intros seen; simpl; [tauto|].
  destruct (group_key r) as [k'|] eqn:E.
  - destruct (existsb (key_eqb k') seen) eqn:Ex.
    + intros Hin. destruct (IH _ Hin) as (Hn & r' & Hr' & Hk).
      split; [assumption|]. exists r'. tauto.
    + intros [<- | Hin].
      * split.
        -- intros Hin. apply existsb_key in Hin. congruence.
        -- exists r. tauto.
      * destruct (IH _ Hin) as (Hn & r' & Hr' & Hk).
        split; [simpl in Hn; tauto|]. exists r'. tauto.
  - intros Hin. destruct (IH _ Hin) as (Hn & r' & Hr' & Hk).
    split; [assumption|]. exists r'. tauto.
Qed.

Lemma distinct_keys_complete (seen : list (string * string)) (df : list row)
  (r : row) (k : string * string) :
  In r df -> group_key r = Some k -> ~ In k seen ->
  In k (distinct_keys seen df).
Proof.
  revert seen. induction df as [|r' df IH]; intros seen; simpl; [tauto|].
  intros [-> | Hin] Hk Hseen.
  - rewrite Hk. destruct (existsb (key_eqb k) seen) eqn:Ex.
    + apply existsb_key in Ex. contradiction.
    + left. reflexivity.
  - destruct (group_key r') as [k'|] eqn:E.
    + destruct (existsb (key_eqb k') seen) eqn:Ex.
      * apply IH; assumption.
      * destruct (key_eqb k' k) eqn:Ek.
        -- apply key_eqb_eq in Ek. left. assumption.
        -- right. apply IH; try assumption.
           intros [-> | H]; [|contradiction].
           assert (key_eqb k k = true) by (apply key_eqb_eq; reflexivity).
           congruence.
    + apply IH; assumption.
Qed.

Lemma distinct_keys_NoDup (seen : list (string * string)) (df : list row) :
  NoDup (distinct_keys seen df).
Proof.
  revert seen. induction df as [|r df IH]; intros seen; simpl.
  - constructor.
  - destruct (group_key r) as [k|]; [|apply IH].
    destruct (existsb (key_eqb k) seen); [apply IH|].
    constructor; [|apply IH].
    intros Hin. apply distinct_keys_sound in Hin. simpl in Hin. tauto.
Qed.

Lemma create_area_summary_scenic_unfold (df : list row) :
  create_area_summary_scenic df =
  sort_values order_leb
    (map (summarise df) (sort_values key_leb (distinct_keys [] df))).
Proof.
  unfold create_area_summary_scenic, groupby. rewrite map_map. reflexivity.
Qed.

Lemma summary_permutation (df : list row) :
  Permutation (create_area_summary_scenic df)
              (map (summarise df) (distinct_keys [] df)).
Proof.
  rewrite create_area_summary_scenic_unfold.
  eapply perm_trans; [apply sort_values_permutation|].
  apply Permutation_map, sort_values_permutation.
Qed.

Lemma order_leb_total (a b : area) :
  order_leb a b = false -> order_leb b a = true.
Proof.
  unfold order_leb.
  destruct (first_scenic_order a), (first_scenic_order b);
    try reflexivity; try discriminate.
  intros H. apply Z.leb_gt in H. apply Z.leb_le. lia.
Qed.

Lemma summarise_key (df : list row) (k : string * string) :
  (area_Area (summarise df k), area_Canyon (summarise df k)) = k.
Proof. destruct k. reflexivity. Qed.

(** C8 (as stated, refuted): the mean kept in the summary is rounded to
    four decimals; two routes with progress 0.12345 and 0.12346 have the
    mean 0.123455, and the summary holds 0.1235. *)
Lemma summary_mean_is_rounded :
  let df := [ Row (Str "Route A") (Str "Calico Basin") (Str "First Pullout")
                  (Some 0.12345) (Some 1%Z);
              Row (Str "Route B") (Str "Calico Basin") (Str "First Pullout")
                  (Some 0.12346) (Some 2%Z) ] in
  exists mean kept,
    agg_mean (map Path_Position df) = Some mean
    /\ mean == 0.123455
    /\ map avg_path_position (create_area_summary_scenic df) = [Some kept]
    /\ kept == 0.1235
    /\ ~ kept == mean.
Proof.
  eexists. eexists. split; [vm_compute; reflexivity|].
  split; [reflexivity|].
  split; [vm_compute; reflexivity|].
  split; [reflexivity|].
  intros H. vm_compute in H. discriminate.
Qed.

(** C8 (amended): the summary has one row per pair of area and canyon
    labels that occurs in the table; its members are the rows with exactly
    these two labels; it holds the number of members with a route name, the
    arithmetic mean of the members' progress rounded to four decimals, and
    the smallest member rank; the rows are sorted by that smallest rank,
    not by mean progress.  Two routes with progress 0.10 and 0.14 give the
    mean 0.12 and the count 2. *)
Theorem area_summary_groups_by_first_encounter :
  (forall df : list row,
     let summary := create_area_summary_scenic df in
     Sorted (precedes order_leb) summary
     /\ NoDup (map (fun g => (area_Area g, area_Canyon g)) summary)
     /\ (forall r k, In r df -> group_key r = Some k ->
           exists g, In g summary /\ (area_Area g, area_Canyon g) = k)
     /\ (forall g, In g summary ->
           let members :=
             filter (in_group (area_Area g, area_Canyon g)) df in
           members <> []
           /\ (forall r, In r members <->
                 In r df /\ Area r = Str (area_Area g)
                 /\ Canyon r = Str (area_Canyon g))
           /\ num_routes g = agg_count (map Route members)
           /\ avg_path_position g
              = option_map round4 (agg_mean (map Path_Position members))
           /\ first_scenic_order g
              = agg_min (map Scenic_Loop_Order members)))
  /\ (exists mean,
        create_area_summary_scenic
          [ Row (Str "Route A") (Str "Calico Basin") (Str "First Pullout")
                (Some 0.10) (Some 1%Z);
            Row (Str "Route B") (Str "Calico Basin") (Str "First Pullout")
                (Some 0.14) (Some 2%Z) ]
        = [ AreaRow "Calico Basin" "First Pullout" 2 (Some mean) (Some 1%Z) ]
        /\ mean == 0.12)
  /\ (let df :=
        [ Row (Str "Route A") (Str "Alpha") (Str "North")
              (Some 0.05) (Some 1%Z);
          Row (Str "Route B") (Str "Beta") (Str "South")
              (Some 0.20) (Some 2%Z);
          Row (Str "Route C") (Str "Beta") (Str "South")
              (Some 0.30) (Some 3%Z);
          Row (Str "Route D") (Str "Alpha") (Str "North")
              (Some 0.95) (Some 4%Z) ] in
      map area_Area (create_area_summary_scenic df) = ["Alpha"; "Beta"]
      /\ map area_Area
           (sort_values progress_leb (create_area_summary_scenic df))
         = ["Beta"; "Alpha"]).
Proof.
  split; [|split].
  - intros df summary. subst summary.
    pose proof (summary_permutation df) as Hperm.
    split; [apply sort_values_sorted, order_leb_total|].
    split.
    { eapply Permutation_NoDup.
      - apply Permutation_sym, Permutation_map, Hperm.
      - rewrite map_map.
        erewrite map_ext; [|intros k; apply summarise_key].
        rewrite map_id. apply distinct_keys_NoDup. }
    split.
    { intros r k Hr Hk. exists (summarise df k). split.
      - eapply Permutation_in; [apply Permutation_sym, Hperm|].
        apply in_map.
        apply (distinct_keys_complete [] df r k Hr Hk). simpl. tauto.
      - apply summarise_key. }
    intros g Hg members.
    apply (Permutation_in _ Hperm) in Hg.
    apply in_map_iff in Hg. destruct Hg as (k & <- & Hk).
    subst members. rewrite summarise_key.
    apply distinct_keys_sound in Hk. destruct Hk as (_ & r & Hr & Hkey).
    split.
    { intros E.
      assert (Hin : In r (filter (in_group k) df))
        by (apply filter_In; split; [assumption | apply in_group_iff, Hkey]).
      rewrite E in Hin. contradiction. }
    split.
    { intros r'. rewrite filter_In, in_group_iff.
      destruct k as [a c]. unfold group_key. simpl.
      destruct (Area r') as [|a'], (Canyon r') as [|c'];
        split; intros [H1 H2]; split; try assumption; try discriminate;
        try (destruct H2; discriminate).
      - injection H2 as -> ->. split; reflexivity.
      - destruct H2 as [[= ->] [= ->]]. reflexivity. }
    destruct k as [a c]. repeat split; reflexivity.
  - eexists. split; [vm_compute; reflexivity | reflexivity].
  - split; vm_compute; reflexivity.
Qed.

Lemma area_summary_groups_by_first_encounter_witness :
  let r := Row (Str "Route A") (Str "Calico Basin") (Str "First Pullout")
               (Some 0.10) (Some 1%Z) in
  exists g,
    In g (create_area_summary_scenic [r])
    /\ (area_Area g, area_Canyon g) = ("Calico Basin", "First Pullout").
Proof.
  intros r.
  destruct area_summary_groups_by_first_encounter as [H _].
  destruct (H [r]) as (_ & _ & Hex & _).
  apply (Hex r); [left; reflexivity | reflexivity].
Defined.

End AreaSummaryProperties.

(** *** Verified properties of the route-to-path assignment *)

Section ScenicOrderProperties.

Import Pandas ScenicOrder.
Local Open Scope R_scope.

Lemma Req_bool_false (a b : R) : a <> b -> Req_bool a b = false.
Proof. intros H. unfold Req_bool. destruct (Req_dec_T a b); tauto. Qed.

Lemma projection_at_waypoint_1 :
  find_closest_waypoint_on_path 36.1450 (-115.4450) = Some (1 / 11, Finite 0).
Proof.
  pose proof (projector_at_inner_waypoint 0
                (Waypoint 36.1450 (-115.4450) "Early Drive Section")
                ltac:(lia) eq_refl) as H.
  simpl wp_lat in H. simpl wp_lon in H. rewrite H.
  do 2 f_equal. simpl. lra.
Qed.

Lemma projection_at_waypoint_2 :
  find_closest_waypoint_on_path 36.1300 (-115.4600) = Some (2 / 11, Finite 0).
Proof.
  pose proof (projector_at_inner_waypoint 1
                (Waypoint 36.1300 (-115.4600) "Calico Hills Approach")
                ltac:(lia) eq_refl) as H.
  simpl wp_lat in H. simpl wp_lon in H. rewrite H.
  do 2 f_equal. simpl. lra.
Qed.

Lemma projection_at_waypoint_4 :
  find_closest_waypoint_on_path 36.1200 (-115.4700) = Some (4 / 11, Finite 0).
Proof.
  pose proof (projector_at_inner_waypoint 3
                (Waypoint 36.1200 (-115.4700) "Central Canyon Area")
                ltac:(lia) eq_refl) as H.
  simpl wp_lat in H. simpl wp_lon in H. rewrite H.
  do 2 f_equal. simpl. lra.
Qed.

Lemma own_projection_total (r : row) :
  exists p d, own_projection r = Some (p, Finite d).
Proof.
  unfold own_projection, find_closest_waypoint_on_path.
  destruct (find_closest_waypoint_on_path_with_spec SCENIC_LOOP_WAYPOINTS
              (Latitude r) (Longitude r) ltac:(simpl; lia))
    as (st & (m & Hm & _) & E).
  rewrite E, Hm. eauto.
Qed.

Lemma path_data_total (df : list row) :
  exists path_df,
    path_data df = Some path_df
    /\ Forall2 (fun r p => own_projection r = Some p) df path_df.
Proof.
  induction df as [|r df (l & E & H)]; simpl.
  - exists []. split; [reflexivity | constructor].
  - destruct (own_projection_total r) as (p & d & Er).
    unfold own_projection in Er. rewrite Er. simpl. rewrite E. simpl.
    exists ((p, Finite d) :: l). split; [reflexivity|].
    constructor; assumption.
Qed.

Lemma Forall2_nth_left {X Y : Type} (P : X -> Y -> Prop)
  (l : list X) (l' : list Y) (i : nat) (x : X) :
  Forall2 P l l' -> nth_error l i = Some x ->
  exists y, nth_error l' i = Some y /\ P x y.
Proof.
  intros H. revert i. induction H as [|a b l l' Hab _ IH]; intros i.
  - destruct i; discriminate.
  - destruct i as [|i]; simpl.
    + intros [= <-]. exists b. auto.
    + apply IH.
Qed.

Lemma assign_ranks_placed (first : Z) (df : list positioned) :
  map placed (assign_ranks first df) = df.
Proof.
  revert first. induction df as [|r df IH]; intros first; simpl;
    [reflexivity | now rewrite IH].
Qed.

(** The ranks are consecutive, by position. *)
Lemma assign_ranks_order (first : Z) (df : list positioned)
  (i : nat) (r : ranked) :
  nth_error (assign_ranks first df) i = Some r ->
  Scenic_Loop_Order r = (first + Z.of_nat i)%Z.
Proof.
  revert first i. induction df as [|q df IH]; intros first i; simpl.
  - destruct i; discriminate.
  - destruct i as [|i]; simpl.
    + intros [= <-]. simpl. lia.
    + intros H. rewrite (IH _ _ H). lia.
Qed.

Lemma position_leb_total (a b : positioned) :
  position_leb a b = false -> position_leb b a = true.
Proof.
  unfold position_leb.
  destruct (Path_Position a) as [x|], (Path_Position b) as [y|];
    try reflexivity; try discriminate.
  destruct (Rle_dec x y); [discriminate|]. intros _.
  destruct (Rle_dec y x); [reflexivity | exfalso; lra].
Qed.

Lemma at_label_nth {X : Type} (column : list X) (i : nat) :
  at_label column (Z.of_nat i) = nth_error column i.
Proof.
  unfold at_label.
  destruct (0 <=? Z.of_nat i)%Z eqn:E; [|apply Z.leb_gt in E; lia].
  rewrite Nat2Z.id. reflexivity.
Qed.

Lemma range_index_nth (df : list row) (i : nat) (r : row) :
  map index df = range_index (List.length df) ->
  nth_error df i = Some r -> index r = Z.of_nat i.
Proof.
  intros Hidx Hr.
  assert (Hi : (i < List.length df)%nat)
    by (apply nth_error_Some; congruence).
  pose proof (map_nth_error index i df Hr) as H1.
  rewrite Hidx in H1. unfold range_index in H1.
  rewrite (map_nth_error Z.of_nat i (seq 0 (List.length df)) (d := i)) in H1.
  - congruence.
  - rewrite nth_error_nth' with (d := 0%nat) by (rewrite length_seq; lia).
    rewrite seq_nth by lia. reflexivity.
Qed.

(** With the default index [0, ..., n-1] the assignment does attach to
    every route the pair computed from its own coordinate; with any index
    the ranks are 1, ..., n in the order of the attached positions. *)
Lemma analyze_scenic_loop_order_spec (df : list row) :
  df <> [] ->
  exists result,
    analyze_scenic_loop_order df = Some result
    /\ Permutation (map (fun r => route (placed r)) result) df
    /\ Sorted (precedes position_leb) (map placed result)
    /\ (forall i r, nth_error result i = Some r ->
          Scenic_Loop_Order r = (1 + Z.of_nat i)%Z)
    /\ (map index df = range_index (List.length df) ->
        Forall (fun r =>
                  exists p d,
                    own_projection (route (placed r)) = Some (p, d)
                    /\ Path_Position (placed r) = Some p
                    /\ Distance_to_Road (placed r) = Some d)
               result).
Proof.
  intros Hne. unfold analyze_scenic_loop_order.
  destruct (path_data_total df) as (path_df & -> & Hown). simpl.
  destruct path_df as [|p0 path_df'] eqn:Epath.
  { inversion Hown; subst. contradiction. }
  rewrite <- Epath in *. clear Epath p0 path_df'.
  set (attached := map _ df).
  eexists. split; [reflexivity|].
  pose proof (sort_values_permutation position_leb attached) as Hperm.
  split.
  { rewrite <- (map_map placed route), assign_ranks_placed.
    eapply perm_trans; [apply Permutation_map, Hperm|].
    unfold attached. rewrite map_map. simpl. rewrite map_id.
    apply Permutation_refl. }
  split.
  { rewrite assign_ranks_placed.
    apply sort_values_sorted, position_leb_total. }
  split; [apply assign_ranks_order|].
  intros Hidx.
  assert (Hatt : Forall (fun q =>
            exists p d, own_projection (route q) = Some (p, d)
                        /\ Path_Position q = Some p
                        /\ Distance_to_Road q = Some d) attached).
  { apply Forall_forall. intros q Hq. unfold attached in Hq.
    apply in_map_iff in Hq. destruct Hq as (r & <- & Hr).
    apply In_nth_error in Hr. destruct Hr as [i Hi].
    rewrite (range_index_nth df i r Hidx Hi), !at_label_nth.
    destruct (Forall2_nth_left _ _ _ _ _ Hown Hi) as ([p d] & Hp & Er).
    exists p, d. simpl.
    rewrite (map_nth_error fst i path_df Hp),
            (map_nth_error snd i path_df Hp).
    auto. }
  apply Forall_forall. intros r Hr.
  assert (Hin : In (placed r) (map placed (assign_ranks 1
                     (sort_values position_leb attached))))
    by (apply in_map; assumption).
  rewrite assign_ranks_placed in Hin.
  apply (Permutation_in _ Hperm) in Hin.
  rewrite Forall_forall in Hatt. apply Hatt. assumption.
Qed.

(** C1: a table of four routes whose second route has no latitude.
    [load_data] drops that route and the others keep the labels 0, 2, 3;
    the positions computed for them are stored under the labels 0, 1, 2
    and attached by label.  The route labelled 2 receives the pair
    computed from the coordinate of the route labelled 3, and the route
    labelled 3 receives NaN; the ranks are still 1, 2, 3. *)
Theorem positions_misaligned_after_dropped_row :
  let route_a := Row 0 "Route A" "Area" "Canyon" 36.1450 (-115.4450) in
  let route_c := Row 2 "Route C" "Area" "Canyon" 36.1300 (-115.4600) in
  let route_d := Row 3 "Route D" "Area" "Canyon" 36.1200 (-115.4700) in
  let df :=
    drop_invalid_coordinates
      [ LoadedRow 0 "Route A" "Area" "Canyon"
                  (Some 36.1450) (Some (-115.4450));
        LoadedRow 1 "Route B" "Area" "Canyon"
                  None (Some (-115.4280));
        LoadedRow 2 "Route C" "Area" "Canyon"
                  (Some 36.1300) (Some (-115.4600));
        LoadedRow 3 "Route D" "Area" "Canyon"
                  (Some 36.1200) (Some (-115.4700)) ] in
  df = [route_a; route_c; route_d]
  /\ own_projection route_c = Some (2 / 11, Finite 0)
  /\ own_projection route_d = Some (4 / 11, Finite 0)
  /\ analyze_scenic_loop_order df =
     Some [ Ranked (Positioned route_a (Some (1 / 11)) (Some (Finite 0))) 1;
            Ranked (Positioned route_c (Some (4 / 11)) (Some (Finite 0))) 2;
            Ranked (Positioned route_d None None) 3 ].
Proof.
  intros route_a route_c route_d df.
  assert (Hdf : df = [route_a; route_c; route_d]).
  { unfold df, drop_invalid_coordinates. cbn [flat_map loaded_Latitude
      loaded_Longitude loaded_index loaded_Route loaded_Area loaded_Canyon].
    rewrite !Req_bool_false by lra. reflexivity. }
  split; [exact Hdf|].
  split; [apply projection_at_waypoint_2|].
  split; [apply projection_at_waypoint_4|].
  rewrite Hdf. unfold analyze_scenic_loop_order.
  unfold route_a, route_c, route_d.
  cbn [path_data Latitude Longitude].
  rewrite projection_at_waypoint_1, projection_at_waypoint_2,
    projection_at_waypoint_4.
  cbn [bind map fst snd index].
  change (at_label [1 / 11; 2 / 11; 4 / 11] 0) with (Some (1 / 11)).
  change (at_label [1 / 11; 2 / 11; 4 / 11] 2) with (Some (4 / 11)).
  change (at_label [1 / 11; 2 / 11; 4 / 11] 3) with (@None R).
  change (at_label [Finite 0; Finite 0; Finite 0] 0) with (Some (Finite 0)).
  change (at_label [Finite 0; Finite 0; Finite 0] 2) with (Some (Finite 0)).
  change (at_label [Finite 0; Finite 0; Finite 0] 3) with (@None xdist).
  unfold sort_values, insert_row, position_leb.
  cbn [Path_Position].
  destruct (Rle_dec (1 / 11) (4 / 11)) as [_ | N]; [|exfalso; lra].
  reflexivity.
Qed.

End ScenicOrderProperties.

(** *** Further properties of the scenic loop geometry *)

Section PathGeometryProperties.

Local Open Scope R_scope.

Lemma math_atan2_sin_cos (y : R) :
  0 <= y <= PI / 2 -> math_atan2 (sin y) (cos y) = y.
Proof.
  intros [H0 H1]. unfold math_atan2. pose proof PI_RGT_0 as Hpi.
  destruct (Rle_lt_or_eq_dec _ _ H1) as [Hlt | ->].
  - assert (0 < cos y) by (apply cos_gt_0; lra).
    destruct (Rlt_dec 0 (cos y)); [|lra].
    change (sin y / cos y) with (tan y). apply atan_tan. lra.
  - rewrite cos_PI2, sin_PI2.
    destruct (Rlt_dec 0 0); [lra|]. destruct (Rlt_dec 0 0); [lra|].
    destruct (Rlt_dec 0 1); [reflexivity | lra].
Qed.

Lemma central_angle_of_sine_square (y : R) :
  0 <= y <= PI / 2 -> central_angle (sin y ^ 2) = Some (2 * y).
Proof.
  intros Hy. pose proof PI_RGT_0 as Hpi.
  assert (Hs : 0 <= sin y) by (apply sin_ge_0; lra).
  assert (Hc : 0 <= cos y) by (apply cos_ge_0; lra).
  pose proof (sin2_cos2 y) as E. unfold Rsqr in E.
  rewrite central_angle_in_range by nra.
  rewrite sqrt_pow2 by assumption.
  replace (1 - sin y ^ 2) with (cos y ^ 2) by nra.
  rewrite sqrt_pow2 by assumption.
  rewrite math_atan2_sin_cos by assumption. reflexivity.
Qed.

(** X2: along a meridian the distance is the radius times the difference
    of latitude in radians. *)
Theorem calculate_distance_along_meridian (lat1 lat2 lon : R) :
  Rabs (lat2 - lat1) <= 180 ->
  calculate_distance lat1 lon lat2 lon =
  Some (3959 * (Rabs (lat2 - lat1) * (PI / 180))).
Proof.
  intros Hd. pose proof PI_RGT_0 as Hpi.
  set (y := Rabs (lat2 - lat1) * (PI / 180) / 2).
  assert (Hy : 0 <= y <= PI / 2).
  { unfold y. pose proof (Rabs_pos (lat2 - lat1)). split; nra. }
  assert (Ha : haversine_term lat1 lon lat2 lon = sin y ^ 2).
  { unfold haversine_term, radians.
    replace ((lon - lon) * (PI / 180) / 2) with 0 by field.
    rewrite sin_0. unfold y, Rabs.
    destruct (Rcase_abs (lat2 - lat1)).
    - replace (- (lat2 - lat1) * (PI / 180) / 2)
        with (- ((lat2 - lat1) * (PI / 180) / 2)) by field.
      rewrite sin_neg. ring.
    - ring. }
  unfold calculate_distance. rewrite Ha, central_angle_of_sine_square by assumption.
  simpl. do 2 f_equal. unfold y. field.
Qed.

Lemma calculate_distance_along_meridian_witness :
  calculate_distance 36 (-115) 37 (-115) = Some (3959 * (Rabs (37 - 36) * (PI / 180))).
Proof.
  apply (calculate_distance_along_meridian 36 37 (-115)).
  replace (37 - 36) with 1 by ring. rewrite Rabs_R1. lra.
Defined.

End PathGeometryProperties.

Section SegmentProjectorProperties.

Local Open Scope R_scope.



Lemma clamp_cases (x : R) :
  (x <= 0 /\ py_max 0 (py_min 1 x) = 0)
  \/ (0 <= x <= 1 /\ py_max 0 (py_min 1 x) = x)
  \/ (1 <= x /\ py_max 0 (py_min 1 x) = 1).
Proof.
  unfold py_max, py_min.
  destruct (Rlt_dec x 1); destruct (Rlt_dec 0 _); lra.
Qed.




End SegmentProjectorProperties.

(** *** Further properties of the scoring functions *)

Section RouteScoreProperties.

Import Scoring RouteScore.
Local Open Scope Q_scope.


(** X10: the star score is the average star value when that is a positive
    number and 0 otherwise; it is never negative. *)
Theorem stars_score_is_positive_part (avg_stars : number) :
  0 <= calculate_stars_score avg_stars
  /\ (forall s, avg_stars = Some s -> 0 < s ->
        calculate_stars_score avg_stars = s)
  /\ (avg_stars = None \/ (exists s, avg_stars = Some s /\ s <= 0) ->
        calculate_stars_score avg_stars = 0).
Proof.
  unfold calculate_stars_score. destruct avg_stars as [s|].
  - destruct (Qle_bool s 0) eqn:E.
    + apply Qle_bool_iff in E. repeat split; try lra.
      intros s' [= <-] Hs. lra.
    + apply Qle_bool_false in E. repeat split; try lra.
      * intros s' [= <-] _. reflexivity.
      * intros [H | (s' & [= <-] & Hs)]; [discriminate | lra].
  - repeat split; try lra. intros s H. discriminate.
Qed.

Lemma stars_score_is_positive_part_witness :
  calculate_stars_score (Some 2.5) = 2.5.
Proof.
  apply (stars_score_is_positive_part (Some 2.5)); [reflexivity | lra].
Defined.

Lemma calculate_difficulty_score_range (c : cell) :
  (0 <= calculate_difficulty_score c <= 2)%Z.
Proof.
  unfold calculate_difficulty_score.
  destruct (Qeq_bool _ _); [lia|].
  destruct (_ && _); [lia|]. destruct (Qlt_bool _ _); lia.
Qed.

Lemma calculate_route_type_score_range (c : cell) :
  (-1 <= calculate_route_type_score c <= 1)%Z.
Proof.
  unfold calculate_route_type_score. destruct c; [lia|].
  destruct (contains _ _); [lia|]. destruct (contains _ _); lia.
Qed.

Lemma calculate_pitch_score_range (p : number) :
  (-1 <= calculate_pitch_score p <= 0)%Z.
Proof.
  unfold calculate_pitch_score. destruct p; [|lia].
  destruct (_ <? _)%Z; lia.
Qed.

(** X11: the total score of a route lies between its star score minus 1
    and its star score plus 4; it is never below -1. *)
Theorem total_score_bounds (r : route) :
  calculate_stars_score (Avg_Stars r) - 1 <= total_score r
  /\ total_score r <= calculate_stars_score (Avg_Stars r) + 4
  /\ -1 <= total_score r.
Proof.
  unfold total_score.
  pose proof (calculate_difficulty_score_range (Rating r)) as [D0 D2].
  pose proof (calculate_route_type_score_range (Route_Type r)) as [T0 T1].
  pose proof (calculate_pitch_score_range (Pitches r)) as [P0 P1].
  destruct (stars_score_is_positive_part (Avg_Stars r)) as [S0 _].
  set (d := calculate_difficulty_score (Rating r)) in *.
  set (t := calculate_route_type_score (Route_Type r)) in *.
  set (p := calculate_pitch_score (Pitches r)) in *.
  set (s := calculate_stars_score (Avg_Stars r)) in *.
  clearbody d t p s.
  assert (inject_Z 0 <= inject_Z d <= inject_Z 2)
    by (split; rewrite <- Zle_Qle; assumption).
  assert (inject_Z (-1) <= inject_Z t <= inject_Z 1)
    by (split; rewrite <- Zle_Qle; assumption).
  assert (inject_Z (-1) <= inject_Z p <= inject_Z 0)
    by (split; rewrite <- Zle_Qle; assumption).
  change (inject_Z 0) with 0 in *. change (inject_Z 2) with 2 in *.
  change (inject_Z 1) with 1 in *. change (inject_Z (-1)) with (-1) in *.
  repeat split; lra.
Qed.

End RouteScoreProperties.

Section GradeProperties.

Import Scoring RouteScore.
Local Open Scope string_scope.
Local Open Scope Q_scope.

Lemma digit_value_range (c : ascii) :
  is_decimal c = true -> (0 <= digit_value c <= 9)%Z.
Proof.
  unfold is_decimal, digit_value. rewrite andb_true_iff, !N.leb_le. lia.
Qed.

Lemma digits_value_nonneg (s : string) (acc : Z) :
  (0 <= acc)%Z -> all_chars is_decimal s = true ->
  (0 <= digits_value acc s)%Z.
Proof.
  revert acc. induction s as [|c s IH]; intros acc Hacc;
    cbn [digits_value all_chars].
  - intros _. assumption.
  - rewrite andb_true_iff. intros [Hc Hs].
    apply IH; [|assumption].
    pose proof (digit_value_range c Hc). lia.
Qed.

Lemma py_int_nonneg (s : string) (n : Z) :
  py_int s = Some n -> (0 <= n)%Z.
Proof.
  unfold py_int. destruct (negb (s =? "")%string); simpl; [|discriminate].
  destruct (all_chars is_decimal s) eqn:E; [|discriminate].
  intros [= <-]. apply digits_value_nonneg; [lia | assumption].
Qed.

Lemma pow2_pos (k : Z) : 0 < pow2 k.
Proof.
  unfold pow2. destruct (0 <=? k)%Z eqn:E.
  - apply Z.leb_le in E. change 0 with (inject_Z 0). rewrite <- Zlt_Qlt.
    apply Z.pow_pos_nonneg; lia.
  - apply Z.leb_gt in E. apply Qinv_lt_0_compat.
    change 0 with (inject_Z 0). rewrite <- Zlt_Qlt.
    apply Z.pow_pos_nonneg; lia.
Qed.

Lemma round_half_even_nonneg (x : Q) : 0 <= x -> (0 <= round_half_even x)%Z.
Proof.
  intros Hx. unfold round_half_even.
  assert (0 <= Qfloor x)%Z.
  { change 0%Z with (Qfloor 0). apply Qfloor_resp_le. assumption. }
  destruct (Qlt_bool _ _); [assumption|].
  destruct (Qlt_bool _ _); [lia|]. destruct (Z.even _); lia.
Qed.

Lemma binary64_nonneg (x : Q) : 0 <= binary64 x.
Proof.
  unfold binary64. destruct (Qle_bool x 0) eqn:E; [lra|].
  apply Qle_bool_false in E.
  set (quantum := pow2 _). pose proof (pow2_pos 1024) as Hinf.
  destruct (Qle_bool float_inf _); [unfold float_inf; lra|].
  rewrite Qred_correct.
  assert (Hq : 0 < quantum) by apply pow2_pos.
  apply Qmult_le_0_compat; [|lra].
  change 0 with (inject_Z 0). rewrite <- Zle_Qle.
  apply round_half_even_nonneg.
  apply Qle_shift_div_l; lra.
Qed.

Lemma float_of_int_nonneg (n : Z) (y : Q) :
  (0 <= n)%Z -> float_of_int n = Some y -> 0 <= y.
Proof.
  intros Hn. unfold float_of_int.
  destruct (Qle_bool float_inf _); [discriminate|].
  destruct (n <? 0)%Z eqn:E; [apply Z.ltb_lt in E; lia|].
  intros [= <-]. apply binary64_nonneg.
Qed.

Lemma letter_values_nonneg (letter : ascii) (offset : Q) :
  letter_values letter = Some offset -> 0 <= offset.
Proof.
  unfold letter_values.
  repeat match goal with |- context [(?a =? ?b)%char] =>
           destruct (a =? b)%char end;
    intros [= <-]; lra.
Qed.

Lemma py_float_nonneg (s : string) (q : Q) : py_float s = Some q -> 0 <= q.
Proof.
  unfold py_float. destruct (underscores_ok false s); [|discriminate].
  destruct (span_digits (remove_underscores s)) as [int_part rest].
  destruct (match rest with
            | String "."%char rest' => span_digits rest'
            | _ => (""%string, rest)
            end) as [frac_part rest'].
  destruct (match rest' with
            | ""%string => Some 0%Z
            | String "E"%char ds => py_int ds
            | _ => None
            end); [|discriminate].
  destruct ((int_part =? "") && (frac_part =? ""))%string; [discriminate|].
  intros [= <-]. apply binary64_nonneg.
Qed.

Lemma parse_yds_nonneg (rating : string) (q : Q) :
  parse_yds rating = Some q -> 0 <= q.
Proof.
  unfold parse_yds.
  set (clean_rating := remove_signs _).
  destruct (isdigit clean_rating).
  - destruct (py_int clean_rating) as [n|] eqn:E; [|discriminate].
    simpl. intros [= <-]. apply py_int_nonneg in E.
    change 0 with (inject_Z 0). rewrite <- Zle_Qle. assumption.
  - destruct (contains "." clean_rating); [apply py_float_nonneg|].
    destruct (_ && _); [|intros [= <-]; lra].
    destruct (py_int (all_but_last clean_rating)) as [n|] eqn:E;
      [|discriminate].
    apply py_int_nonneg in E. simpl.
    destruct (last_char clean_rating) as [letter|]; [|discriminate]. simpl.
    destruct (letter_values letter) as [offset|] eqn:El.
    + destruct (float_of_int n) as [y|] eqn:Ef; [|discriminate].
      simpl. intros [= <-]. apply binary64_nonneg.
    + intros [= <-]. change 0 with (inject_Z 0). rewrite <- Zle_Qle.
      assumption.
Qed.

Lemma parse_rating_nonneg (c : cell) : 0 <= parse_rating c.
Proof.
  unfold parse_rating. destruct c as [|s]; [lra|].
  destruct (s =? "")%string; [lra|].
  destruct (startswith _ _); [|lra].
  destruct (parse_yds _) as [q|] eqn:E; [|lra].
  apply (parse_yds_nonneg _ _ E).
Qed.

(** X12: a parsed grade is never negative, and the difficulty score is
    decided by it: 2 from 5.7 to 5.10d, 1 strictly between 0 and 5.7, and
    0 for the value 0 and above 5.10d. *)
Theorem difficulty_score_by_parsed_grade (c : cell) :
  let grade := parse_rating c in
  0 <= grade
  /\ (calculate_difficulty_score c = 2%Z <-> 7 <= grade <= 43 # 4)
  /\ (calculate_difficulty_score c = 1%Z <-> 0 < grade < 7)
  /\ (calculate_difficulty_score c = 0%Z <-> grade == 0 \/ 43 # 4 < grade).
Proof.
  intros grade.
  pose proof (parse_rating_nonneg c) as Hnn. fold grade in Hnn.
  destruct (calculate_difficulty_score_bands c) as (B0 & B2 & B1 & B3).
  fold grade in B0, B2, B1, B3.
  split; [assumption|].
  assert (Hcases : grade == 0 \/ 0 < grade < 7 \/ 7 <= grade <= 43 # 4
                   \/ 43 # 4 < grade).
  { destruct (Qlt_le_dec 0 grade); [|left; lra].
    destruct (Qlt_le_dec grade 7); [right; left; lra|].
    destruct (Qlt_le_dec (43 # 4) grade); [|right; right; left; lra].
    right; right; right. assumption. }
  clearbody grade.
  destruct Hcases as [H | [H | [H | H]]];
    [ rewrite (B0 H) | rewrite (B1 ltac:(lra) ltac:(lra))
    | rewrite (B2 H) | rewrite (B3 H) ];
    repeat split; intros; try discriminate; try lra; auto;
    try match goal with X : _ \/ _ |- _ => destruct X; lra end.
Qed.

Ltac decide_grade_tests :=
  repeat match goal with
    | |- context [Qeq_bool ?a ?b] =>
        let E := fresh "E" in
        destruct (Qeq_bool a b) eqn:E;
        [apply Qeq_bool_iff in E | apply Qeq_bool_neq in E];
        try (exfalso; lra)
    | |- context [Qle_bool ?a ?b] =>
        let E := fresh "E" in
        destruct (Qle_bool a b) eqn:E;
        [apply Qle_bool_iff in E | apply Qle_bool_false in E];
        try (exfalso; lra)
    end.

(** The grade category and the difficulty score on each band of the
    parsed grade. *)
Lemma category_and_score_by_band (c : cell) :
  let grade := parse_rating c in
  let category := categorize_grade c in
  let score := calculate_difficulty_score c in
  (grade == 0 /\ category = "unknown" /\ score = 0%Z)
  \/ (0 < grade <= 27 # 4 /\ category = "5.0-5.6" /\ score = 1%Z)
  \/ (27 # 4 < grade < 7 /\ category = "unknown" /\ score = 1%Z)
  \/ (7 <= grade <= 35 # 4 /\ category = "5.7-5.8" /\ score = 2%Z)
  \/ (35 # 4 < grade < 9 /\ category = "unknown" /\ score = 2%Z)
  \/ (9 <= grade <= 43 # 4 /\ category = "5.9-5.10" /\ score = 2%Z)
  \/ (43 # 4 < grade < 11 /\ category = "unknown" /\ score = 0%Z)
  \/ (11 <= grade <= 47 # 4 /\ category = "5.11" /\ score = 0%Z)
  \/ (47 # 4 < grade < 12 /\ category = "unknown" /\ score = 0%Z)
  \/ (12 <= grade /\ category = "5.12+" /\ score = 0%Z).
Proof.
  intros grade category score.
  subst category score.
  unfold categorize_grade, calculate_difficulty_score, Qlt_bool.
  fold grade.
  pose proof (parse_rating_nonneg c) as Hnn. fold grade in Hnn.
  clearbody grade.
  decide_grade_tests; cbn [andb negb];
    first
      [ left; repeat split; solve [auto | lra]
      | right; left; repeat split; solve [auto | lra]
      | do 2 right; left; repeat split; solve [auto | lra]
      | do 3 right; left; repeat split; solve [auto | lra]
      | do 4 right; left; repeat split; solve [auto | lra]
      | do 5 right; left; repeat split; solve [auto | lra]
      | do 6 right; left; repeat split; solve [auto | lra]
      | do 7 right; left; repeat split; solve [auto | lra]
      | do 8 right; left; repeat split; solve [auto | lra]
      | do 9 right; repeat split; solve [auto | lra] ].
Qed.

(** X13: the grade category is one of the six column names, and apart from
    "unknown" it fixes the difficulty score: 1 for "5.0-5.6", 2 for
    "5.7-5.8" and "5.9-5.10", 0 for "5.11" and "5.12+". *)
Theorem grade_category_fixes_score (c : cell) :
  In (categorize_grade c)
     ["5.0-5.6"; "5.7-5.8"; "5.9-5.10"; "5.11"; "5.12+"; "unknown"]
  /\ (categorize_grade c = "5.0-5.6" -> calculate_difficulty_score c = 1%Z)
  /\ (categorize_grade c = "5.7-5.8" \/ categorize_grade c = "5.9-5.10" ->
      calculate_difficulty_score c = 2%Z)
  /\ (categorize_grade c = "5.11" \/ categorize_grade c = "5.12+" ->
      calculate_difficulty_score c = 0%Z).
Proof.
  pose proof (category_and_score_by_band c) as H. simpl in H.
  repeat destruct H as [H | H];
    destruct H as (_ & -> & ->);
    (split; [simpl; tauto|]);
    repeat split; intros X; try reflexivity;
    try discriminate; destruct X; discriminate.
Qed.

Lemma grade_category_fixes_score_witness :
  calculate_difficulty_score (Str "5.9+") = 2%Z.
Proof.
  apply (grade_category_fixes_score (Str "5.9+")).
  right. reflexivity.
Defined.

End GradeProperties.

Section RatingTextProperties.

Import Scoring RouteScore.
Local Open Scope string_scope.

Lemma isspace_upper_char (c : ascii) : isspace (upper_char c) = isspace c.
Proof. destruct c as [[] [] [] [] [] [] [] []]; reflexivity. Qed.

Lemma upper_empty (s : string) : upper s = "" <-> s = "".
Proof. destruct s; simpl; split; intros H; try reflexivity; discriminate. Qed.

Lemma upper_append (a b : string) : upper (a ++ b) = upper a ++ upper b.
Proof. induction a as [|c a IH]; simpl; [reflexivity | now rewrite IH]. Qed.

Lemma upper_lstrip (s : string) : upper (lstrip s) = lstrip (upper s).
Proof.
  induction s as [|c s IH]; simpl; [reflexivity|].
  rewrite isspace_upper_char. destruct (isspace c); [assumption | reflexivity].
Qed.

Lemma upper_rstrip (s : string) : upper (rstrip s) = rstrip (upper s).
Proof.
  induction s as [|c s IH]; simpl; [reflexivity|].
  rewrite <- IH, isspace_upper_char.
  destruct (rstrip s) as [|d r]; simpl.
  - destruct (isspace c); reflexivity.
  - reflexivity.
Qed.

Lemma upper_strip (s : string) : upper (strip s) = strip (upper s).
Proof. unfold strip. rewrite upper_rstrip, upper_lstrip. reflexivity. Qed.

Lemma eqb_empty_upper (s : string) : (upper s =? "") = (s =? "").
Proof. destruct s; reflexivity. Qed.

(** The parsed grade is a function of the upper-cased text. *)
Lemma parse_rating_of_upper (s : string) :
  parse_rating (Str s) =
  if (upper s =? "") then 0%Q
  else
    let rating := remove_modifiers (strip (upper s)) in
    if startswith rating "5." then
      match parse_yds rating with
      | Some num_rating => num_rating
      | None => 0%Q
      end
    else 0%Q.
Proof.
  unfold parse_rating. rewrite eqb_empty_upper, upper_strip. reflexivity.
Qed.

(** X14: ratings that differ only in the case of their letters have the
    same parsed grade, difficulty score and grade category. *)
Theorem rating_case_is_ignored (s1 s2 : string) :
  upper s1 = upper s2 ->
  parse_rating (Str s1) = parse_rating (Str s2)
  /\ calculate_difficulty_score (Str s1) = calculate_difficulty_score (Str s2)
  /\ categorize_grade (Str s1) = categorize_grade (Str s2).
Proof.
  intros H.
  assert (E : parse_rating (Str s1) = parse_rating (Str s2))
    by (rewrite !parse_rating_of_upper, H; reflexivity).
  unfold calculate_difficulty_score, categorize_grade. rewrite E.
  repeat split; reflexivity.
Qed.

Lemma rating_case_is_ignored_witness :
  parse_rating (Str "5.10b r") = parse_rating (Str "5.10B R")
  /\ calculate_difficulty_score (Str "5.10b r")
     = calculate_difficulty_score (Str "5.10B R")
  /\ categorize_grade (Str "5.10b r") = categorize_grade (Str "5.10B R").
Proof.
  apply (rating_case_is_ignored "5.10b r" "5.10B R"). reflexivity.
Defined.

Lemma lstrip_blank (s : string) : blank s -> lstrip s = "".
Proof.
  unfold blank. induction s as [|c s IH]; simpl; [reflexivity|].
  rewrite andb_true_iff. intros [-> H]. auto.
Qed.

Lemma lstrip_empty_blank (s : string) : lstrip s = "" -> blank s.
Proof.
  unfold blank. induction s as [|c s IH]; simpl; [reflexivity|].
  destruct (isspace c); [simpl; assumption | discriminate].
Qed.

Lemma blank_append (a b : string) : blank a -> blank b -> blank (a ++ b).
Proof.
  unfold blank. induction a as [|c a IH]; simpl; [auto|].
  rewrite !andb_true_iff. intros [-> Ha] Hb. auto.
Qed.

Lemma lstrip_blank_prefix (pre t : string) :
  blank pre -> lstrip (pre ++ t) = lstrip t.
Proof.
  unfold blank. induction pre as [|c pre IH]; simpl; [reflexivity|].
  rewrite andb_true_iff. intros [-> H]. auto.
Qed.

Lemma rstrip_blank (s : string) : blank s -> rstrip s = "".
Proof.
  unfold blank. induction s as [|c s IH]; simpl; [reflexivity|].
  rewrite andb_true_iff. intros [Hc H]. rewrite (IH H), Hc. reflexivity.
Qed.

Lemma rstrip_blank_suffix (t post : string) :
  blank post -> rstrip (t ++ post) = rstrip t.
Proof.
  intros H. induction t as [|c t IH]; simpl.
  - apply rstrip_blank. assumption.
  - rewrite IH. reflexivity.
Qed.

Lemma lstrip_append (s post : string) :
  lstrip s <> "" -> lstrip (s ++ post) = lstrip s ++ post.
Proof.
  induction s as [|c s IH]; simpl; [congruence|].
  destruct (isspace c); [assumption | reflexivity].
Qed.

Lemma strip_padding (pre s post : string) :
  blank pre -> blank post -> strip (pre ++ s ++ post) = strip s.
Proof.
  intros Hpre Hpost. unfold strip. rewrite lstrip_blank_prefix by assumption.
  destruct (string_dec (lstrip s) "") as [E | N].
  - rewrite E. rewrite lstrip_blank; [reflexivity|].
    apply blank_append; [apply lstrip_empty_blank|]; assumption.
  - rewrite lstrip_append by assumption.
    apply rstrip_blank_suffix. assumption.
Qed.

Lemma parse_rating_blank (s : string) :
  strip s = "" -> parse_rating (Str s) = 0%Q.
Proof.
  intros H. unfold parse_rating. rewrite H.
  destruct (s =? ""); reflexivity.
Qed.

(** X15: white space before and after a rating or a route type changes
    neither the parsed grade nor the route-type score. *)
Theorem surrounding_white_space_is_ignored (pre s post : string) :
  blank pre -> blank post ->
  parse_rating (Str (pre ++ s ++ post)) = parse_rating (Str s)
  /\ calculate_route_type_score (Str (pre ++ s ++ post))
     = calculate_route_type_score (Str s).
Proof.
  intros Hpre Hpost.
  pose proof (strip_padding pre s post Hpre Hpost) as E.
  split.
  - destruct (string_dec (strip s) "") as [Es | Ns].
    + rewrite (parse_rating_blank s Es),
        (parse_rating_blank _ (eq_trans E Es)). reflexivity.
    + unfold parse_rating. rewrite E.
      destruct (string_dec s "") as [-> | N]; [exfalso; apply Ns; reflexivity|].
      destruct (string_dec (pre ++ s ++ post) "") as [E0 | N0].
      * rewrite E0 in E. exfalso. apply Ns. rewrite <- E. reflexivity.
      * apply String.eqb_neq in N, N0. rewrite N, N0. reflexivity.
  - unfold calculate_route_type_score. rewrite E. reflexivity.
Qed.

Lemma surrounding_white_space_is_ignored_witness :
  parse_rating (Str ("  " ++ "5.9" ++ " ")) = parse_rating (Str "5.9")
  /\ calculate_route_type_score (Str ("  " ++ "5.9" ++ " "))
     = calculate_route_type_score (Str "5.9").
Proof.
  apply (surrounding_white_space_is_ignored "  " "5.9" " "); reflexivity.
Defined.

End RatingTextProperties.

Section ProtectionModifierProperties.

Import Scoring RouteScore.
Local Open Scope string_scope.

Lemma append_empty_r (s : string) : s ++ "" = s.
Proof. induction s as [|c s IH]; simpl; [reflexivity | now rewrite IH]. Qed.

Lemma no_space_upper (s : string) : no_space s -> no_space (upper s).
Proof.
  unfold no_space. induction s as [|c s IH]; simpl; [auto|].
  rewrite isspace_upper_char, !andb_true_iff. intros [-> H]. auto.
Qed.

Lemma lstrip_no_space (s t : string) :
  no_space s -> s <> "" -> lstrip (s ++ t) = s ++ t.
Proof.
  unfold no_space. destruct s as [|c s]; [congruence|]. simpl.
  rewrite andb_true_iff, negb_true_iff. intros [-> _] _. reflexivity.
Qed.

Lemma rstrip_nonspace_end (t : string) (c : ascii) :
  isspace c = false -> rstrip (t ++ String c "") = t ++ String c "".
Proof.
  intros Hc. induction t as [|x t IH]; simpl.
  - rewrite Hc. reflexivity.
  - rewrite IH. destruct (t ++ String c "") eqn:E; [|reflexivity].
    destruct t; discriminate.
Qed.

(** Text without white space holds no match of the modifier pattern. *)
Lemma remove_modifiers_no_space (u t : string) :
  no_space u ->
  remove_modifiers_from 0 (u ++ t) = u ++ remove_modifiers_from 0 t.
Proof.
  unfold no_space. induction u as [|c u IH]; [reflexivity|].
  cbn [all_chars]. rewrite andb_true_iff, negb_true_iff. intros [Hc Hu].
  change (String c u ++ t) with (String c (u ++ t)).
  cbn [remove_modifiers_from modifier_match]. rewrite Hc.
  rewrite (IH Hu). reflexivity.
Qed.

Lemma protection_modifier_facts (m : string) :
  In m protection_modifiers ->
  upper m = m
  /\ remove_modifiers_from 0 (" " ++ m) = ""
  /\ parse_rating (Str (" " ++ m)) = 0%Q
  /\ exists c, isspace c = false /\ m = all_but_last m ++ String c "".
Proof.
  unfold protection_modifiers. intros H.
  repeat (destruct H as [<- | H];
          [repeat split; try reflexivity;
           eexists; split; [|reflexivity]; reflexivity|]).
  contradiction.
Qed.

(** X16: a protection or aid modifier after the grade, separated by one
    space, does not change the parsed grade. *)
Theorem protection_modifier_is_ignored (s m : string) :
  no_space s -> In m protection_modifiers ->
  parse_rating (Str (s ++ " " ++ m)) = parse_rating (Str s).
Proof.
  intros Hs Hm.
  destruct (protection_modifier_facts m Hm) as (Hup & Hrm & H0 & c & Hc & Elast).
  destruct (string_dec s "") as [-> | Hne].
  - exact H0.
  - assert (Estrip : strip (s ++ " " ++ m) = s ++ " " ++ m).
    { unfold strip. rewrite lstrip_no_space by assumption.
      rewrite Elast at 1. rewrite <- !append_assoc.
      rewrite rstrip_nonspace_end by assumption.
      rewrite !append_assoc, <- Elast. reflexivity. }
    assert (Estrip' : strip s = s).
    { rewrite <- (append_empty_r s) at 1.
      unfold strip. rewrite lstrip_no_space by assumption.
      rewrite append_empty_r.
      clear - Hs Hne. unfold no_space in Hs.
      induction s as [|x s IH]; [congruence|]. simpl in *.
      apply andb_true_iff in Hs. destruct Hs as [Hx Hs].
      apply negb_true_iff in Hx.
      destruct s as [|y s].
      - simpl. rewrite Hx. reflexivity.
      - rewrite IH by (assumption || discriminate). reflexivity. }
    unfold parse_rating.
    assert (N1 : (s ++ " " ++ m =? "") = false)
      by (apply String.eqb_neq; destruct s; [congruence | discriminate]).
    assert (N2 : (s =? "") = false) by (apply String.eqb_neq; assumption).
    rewrite N1, N2, Estrip, Estrip'.
    rewrite !upper_append, Hup. unfold remove_modifiers.
    change (upper " ") with " ".
    rewrite remove_modifiers_no_space by (apply no_space_upper; assumption).
    rewrite Hrm, append_empty_r.
    assert (Eclean : remove_modifiers_from 0 (upper s) = upper s).
    { rewrite <- (append_empty_r (upper s)) at 1.
      rewrite remove_modifiers_no_space by (apply no_space_upper; assumption).
      simpl remove_modifiers_from. rewrite !append_empty_r. reflexivity. }
    rewrite Eclean. reflexivity.
Qed.

Lemma protection_modifier_is_ignored_witness :
  parse_rating (Str ("5.11c" ++ " " ++ "PG13")) = parse_rating (Str "5.11c").
Proof.
  apply (protection_modifier_is_ignored "5.11c" "PG13").
  - reflexivity.
  - simpl. tauto.
Defined.

End ProtectionModifierProperties.

(** *** Further properties of the route-to-path assignment *)

Section AssignmentProperties.

Import Pandas ScenicOrder.
Local Open Scope R_scope.

Lemma assign_ranks_length (first : Z) (df : list positioned) :
  List.length (assign_ranks first df) = List.length df.
Proof.
  revert first. induction df as [|r df IH]; intros first; simpl;
    [reflexivity | now rewrite IH].
Qed.

Lemma path_data_length (df : list row) (path_df : list (R * xdist)) :
  path_data df = Some path_df -> List.length path_df = List.length df.
Proof.
  revert path_df. induction df as [|r df IH]; intros path_df; simpl.
  - intros [= <-]. reflexivity.
  - destruct (find_closest_waypoint_on_path _ _); [|discriminate]. simpl.
    destruct (path_data df) as [l|]; [|discriminate]. simpl.
    intros [= <-]. simpl. rewrite (IH l eq_refl). reflexivity.
Qed.

(** X17: on the empty table the assignment fails, on the missing column
    of the empty [path_df]; whenever it returns, the table was not empty
    and the result has one ranked row per route. *)
Theorem assignment_fails_on_empty_table (df : list row) :
  analyze_scenic_loop_order [] = None
  /\ (forall result, analyze_scenic_loop_order df = Some result ->
        df <> [] /\ List.length result = List.length df).
Proof.
  split; [reflexivity|].
  unfold analyze_scenic_loop_order.
  destruct (path_data_total df) as (path_df & E & Hown). rewrite E. simpl.
  pose proof (path_data_length df path_df E) as Hlen.
  destruct path_df as [|p path_df]; [discriminate|].
  intros result [= <-]. split.
  - intros ->. discriminate.
  - rewrite assign_ranks_length.
    rewrite (Permutation_length (sort_values_permutation _ _)).
    apply length_map.
Qed.

Lemma assignment_fails_on_empty_table_witness :
  let df := [ Row 0 "Route D" "Area" "Canyon" 36.1200 (-115.4700);
              Row 1 "Route A" "Area" "Canyon" 36.1450 (-115.4450);
              Row 2 "Route C" "Area" "Canyon" 36.1300 (-115.4600) ] in
  exists result,
    analyze_scenic_loop_order df = Some result
    /\ List.length result = 3%nat.
Proof.
  intros df.
  destruct (analyze_scenic_loop_order_spec df ltac:(discriminate))
    as (result & E & _).
  exists result. split; [exact E|].
  apply (proj2 (assignment_fails_on_empty_table df) result E).
Defined.





End AssignmentProperties.

Section LoadedRowsProperties.

Import Pandas ScenicOrder LoadedRows.
Local Open Scope R_scope.

Lemma Req_bool_true_iff (a b : R) : Req_bool a b = true <-> a = b.
Proof. unfold Req_bool. destruct (Req_dec_T a b); split; congruence. Qed.

(** What [drop_invalid_coordinates] makes of one row. *)
Lemma drop_one (l : loaded_row) :
  (exists r, kept_as l r /\ drop_invalid_coordinates [l] = [r])
  \/ (dropped l /\ drop_invalid_coordinates [l] = []).
Proof.
  unfold drop_invalid_coordinates. simpl.
  destruct (loaded_Latitude l) as [lat|] eqn:Elat;
    [destruct (loaded_Longitude l) as [lon|] eqn:Elon|].
  - destruct (Req_bool lat 0) eqn:E1; [|destruct (Req_bool lon 0) eqn:E2].
    + right. split; [|reflexivity].
      apply Req_bool_true_iff in E1.
      intros r (H1 & _ & H3 & _). congruence.
    + right. split; [|reflexivity].
      apply Req_bool_true_iff in E2.
      intros r (_ & H2 & _ & H4 & _). congruence.
    + left. eexists. split; [|reflexivity].
      unfold kept_as. simpl.
      repeat split; try reflexivity; try assumption;
        intros X; apply Req_bool_true_iff in X; congruence.
  - right. split; [|reflexivity]. intros r (_ & H2 & _). congruence.
  - right. split; [|reflexivity]. intros r (H1 & _). congruence.
Qed.

Lemma drop_cons (l : loaded_row) (df : list loaded_row) :
  drop_invalid_coordinates (l :: df)
  = drop_invalid_coordinates [l] ++ drop_invalid_coordinates df.
Proof.
  unfold drop_invalid_coordinates. simpl. rewrite app_nil_r. reflexivity.
Qed.

Lemma kept_as_unique (l : loaded_row) (r r' : row) :
  kept_as l r -> kept_as l r' -> r = r'.
Proof.
  destruct r, r'. unfold kept_as. simpl.
  intros (H1 & H2 & _ & _ & H5 & H6 & H7 & H8)
         (G1 & G2 & _ & _ & G5 & G6 & G7 & G8).
  rewrite H1 in G1. rewrite H2 in G2.
  injection G1 as ->. injection G2 as ->. congruence.
Qed.

Lemma drop_In (df : list loaded_row) (r : row) :
  In r (drop_invalid_coordinates df) <-> exists l, In l df /\ kept_as l r.
Proof.
  induction df as [|l df IH].
  - simpl. split; [contradiction | intros (l & [] & _)].
  - rewrite drop_cons, in_app_iff, IH. split.
    + intros [H | (l' & Hl' & Hk)].
      * destruct (drop_one l) as [(r' & Hk & E) | (_ & E)];
          rewrite E in H; [|contradiction].
        destruct H as [<- | []]. exists l. split; [left; reflexivity | assumption].
      * exists l'. split; [right|]; assumption.
    + intros (l' & [<- | Hl'] & Hk).
      * left. destruct (drop_one l) as [(r' & Hk' & E) | (Hd & _)].
        -- rewrite E. left. apply (kept_as_unique l); assumption.
        -- exfalso. apply (Hd r). assumption.
      * right. exists l'. split; assumption.
Qed.

Lemma drop_increasing (df : list loaded_row) :
  StronglySorted Z.lt (map loaded_index df) ->
  StronglySorted Z.lt (map index (drop_invalid_coordinates df)).
Proof.
  induction df as [|l df IH]; intros Hs.
  - constructor.
  - simpl in Hs. inversion Hs as [|? ? Hs' Hall]; subst.
    rewrite drop_cons.
    destruct (drop_one l) as [(r & Hk & ->) | (_ & ->)]; simpl.
    + constructor; [apply IH; assumption|].
      apply Forall_forall. intros z Hz.
      apply in_map_iff in Hz. destruct Hz as (r' & <- & Hr').
      apply drop_In in Hr'. destruct Hr' as (l' & Hl' & Hk').
      rewrite Forall_forall in Hall.
      destruct Hk as (_ & _ & _ & _ & -> & _).
      destruct Hk' as (_ & _ & _ & _ & -> & _).
      apply Hall. apply in_map. assumption.
    + apply IH. assumption.
Qed.

(** X19: [load_data] keeps exactly the rows that have both coordinates,
    neither of them zero; the rows kept retain their labels and the other
    columns, and increasing labels stay increasing. *)
Theorem rows_kept_by_load_data (df : list loaded_row) :
  (forall r, In r (drop_invalid_coordinates df)
             <-> exists l, In l df /\ kept_as l r)
  /\ (StronglySorted Z.lt (map loaded_index df) ->
      StronglySorted Z.lt (map index (drop_invalid_coordinates df))).
Proof.
  split; [intros r; apply drop_In | apply drop_increasing].
Qed.

Lemma rows_kept_by_load_data_witness :
  StronglySorted Z.lt
    (map index
       (drop_invalid_coordinates
          [ LoadedRow 0 "Route A" "Area" "Canyon" (Some 36.1450) None;
            LoadedRow 1 "Route B" "Area" "Canyon"
                      (Some 36.1300) (Some (-115.4600)) ])).
Proof.
  apply (rows_kept_by_load_data
           [ LoadedRow 0 "Route A" "Area" "Canyon" (Some 36.1450) None;
             LoadedRow 1 "Route B" "Area" "Canyon"
                       (Some 36.1300) (Some (-115.4600)) ]).
  simpl. repeat constructor.
Defined.

End LoadedRowsProperties.

Section LoadThenAssign.

Import Pandas ScenicOrder LoadedRows.
Local Open Scope R_scope.












End LoadThenAssign.

(** *** Further properties of the area aggregation *)

Section AreaOrderProperties.

Import Pandas Scoring AreaSummary.
Local Open Scope string_scope.
Local Open Scope Q_scope.

Lemma present_In {X : Type} (column : list (option X)) (x : X) :
  In x (present column) <-> In (Some x) column.
Proof.
  unfold present. rewrite in_flat_map. split.
  - intros ([y|] & Hc & Hy); simpl in Hy; [|contradiction].
    destruct Hy as [<- | []]. assumption.
  - intros H. exists (Some x). split; [assumption | left; reflexivity].
Qed.

Lemma fold_min_least (x : Z) (xs : list Z) :
  In (fold_right Z.min x xs) (x :: xs)
  /\ forall z, In z (x :: xs) -> (fold_right Z.min x xs <= z)%Z.
Proof.
  induction xs as [|y xs [IHin IHle]]; simpl.
  - split; [left; reflexivity | intros z [<- | []]; lia].
  - split.
    + destruct (Z.min_spec y (fold_right Z.min x xs)) as [[_ ->] | [_ ->]].
      * right. left. reflexivity.
      * destruct IHin as [E | Hin]; [left; exact E | right; right; exact Hin].
    + intros z [<- | [<- | Hz]].
      * specialize (IHle x (or_introl eq_refl)). lia.
      * lia.
      * specialize (IHle z (or_intror Hz)). lia.
Qed.

(** ['min'] returns the least value present, and NaN when none is. *)
Lemma agg_min_spec (column : list (option Z)) :
  match agg_min column with
  | Some m => In (Some m) column
              /\ forall z, In (Some z) column -> (m <= z)%Z
  | None => forall z, ~ In (Some z) column
  end.
Proof.
  unfold agg_min.
  destruct (present column) as [|x xs] eqn:E.
  - intros z Hz. apply present_In in Hz. rewrite E in Hz. contradiction.
  - destruct (fold_min_least x xs) as [Hin Hle]. split.
    + apply present_In. rewrite E. assumption.
    + intros z Hz. apply Hle. rewrite <- E. apply present_In. assumption.
Qed.

Lemma summary_row (df : list row) (g : area) :
  In g (create_area_summary_scenic df) ->
  exists k, In k (distinct_keys [] df) /\ g = summarise df k.
Proof.
  intros Hg. apply (Permutation_in _ (summary_permutation df)) in Hg.
  apply in_map_iff in Hg. destruct Hg as (k & <- & Hk). eauto.
Qed.

Lemma first_scenic_order_summarise (df : list row) (k : string * string) :
  first_scenic_order (summarise df k)
  = agg_min (map Scenic_Loop_Order (filter (in_group k) df)).
Proof. destruct k. reflexivity. Qed.

Lemma least_member_rank (df : list row) (k : string * string) :
  let members := filter (in_group k) df in
  (forall m, first_scenic_order (summarise df k) = Some m ->
     (exists r, In r members /\ Scenic_Loop_Order r = Some m)
     /\ forall r z, In r members -> Scenic_Loop_Order r = Some z ->
                    (m <= z)%Z)
  /\ (first_scenic_order (summarise df k) = None <->
      forall r, In r members -> Scenic_Loop_Order r = None).
Proof.
  intros members. rewrite first_scenic_order_summarise. fold members.
  pose proof (agg_min_spec (map Scenic_Loop_Order members)) as H.
  destruct (agg_min (map Scenic_Loop_Order members)) as [m|].
  - destruct H as [Hin Hle]. split.
    + intros m' [= <-]. split.
      * apply in_map_iff in Hin. destruct Hin as (r & Er & Hr). eauto.
      * intros r z Hr Ez. apply Hle. rewrite <- Ez. apply in_map. assumption.
    + split; [discriminate|]. intros Hall. exfalso.
      apply in_map_iff in Hin. destruct Hin as (r & Er & Hr).
      rewrite (Hall r Hr) in Er. discriminate.
  - split; [discriminate|]. split; [|reflexivity]. intros _ r Hr.
    destruct (Scenic_Loop_Order r) as [z|] eqn:Ez; [|reflexivity].
    exfalso. apply (H z). rewrite <- Ez. apply in_map. assumption.
Qed.

(** X22: the first-encounter order of a summary row is the rank of one of
    the group's routes and no route of the group has a smaller rank; it is
    NaN exactly when no route of the group has a rank. *)
Theorem first_scenic_order_is_least_member_rank (df : list row) (g : area) :
  In g (create_area_summary_scenic df) ->
  let members := filter (in_group (area_Area g, area_Canyon g)) df in
  (forall m, first_scenic_order g = Some m ->
     (exists r, In r members /\ Scenic_Loop_Order r = Some m)
     /\ forall r z, In r members -> Scenic_Loop_Order r = Some z ->
                    (m <= z)%Z)
  /\ (first_scenic_order g = None <->
      forall r, In r members -> Scenic_Loop_Order r = None).
Proof.
  intros Hg. destruct (summary_row df g Hg) as (k & _ & ->).
  rewrite summarise_key. apply least_member_rank.
Qed.

Lemma first_scenic_order_is_least_member_rank_witness :
  let df := [ Row (Str "Route A") (Str "Calico Basin") (Str "First Pullout")
                  None (Some 4%Z);
              Row (Str "Route B") (Str "Calico Basin") (Str "First Pullout")
                  None (Some 3%Z) ] in
  exists r, In r df /\ Scenic_Loop_Order r = Some 3%Z.
Proof.
  intros df.
  destruct (first_scenic_order_is_least_member_rank df
              (AreaRow "Calico Basin" "First Pullout" 2 None (Some 3%Z)))
    as [H _].
  - left. reflexivity.
  - destruct (H 3%Z eq_refl) as [(r & Hr & Er) _].
    exists r. split; [|exact Er].
    apply filter_In in Hr. apply Hr.
Defined.

Lemma order_leb_trans (a b c : area) :
  order_leb a b = true -> order_leb b c = true -> order_leb a c = true.
Proof.
  unfold order_leb.
  destruct (first_scenic_order a), (first_scenic_order b),
    (first_scenic_order c); try reflexivity; try discriminate.
  rewrite !Z.leb_le. lia.
Qed.

Lemma strengthen_sorted {X K : Type} (key : X -> K)
  (P Q : X -> X -> Prop) (l : list X) :
  StronglySorted P l -> NoDup (map key l) ->
  (forall a b, In a l -> In b l -> key a <> key b -> P a b -> Q a b) ->
  StronglySorted Q l.
Proof.
  induction 1 as [|a l Hs IH Hall]; intros Hnd HPQ; constructor.
  - apply IH.
    + simpl in Hnd. inversion Hnd; assumption.
    + intros x y Hx Hy. apply HPQ; right; assumption.
  - simpl in Hnd. inversion Hnd as [|? ? Hnotin _]; subst.
    rewrite Forall_forall in *. intros b Hb.
    apply HPQ; [left; reflexivity | right; assumption | | apply Hall, Hb].
    intros E. apply Hnotin. rewrite E. apply in_map. assumption.
Qed.

Lemma summary_keys_NoDup (df : list row) :
  NoDup (map (fun g => (area_Area g, area_Canyon g))
             (create_area_summary_scenic df)).
Proof.
  eapply Permutation_NoDup.
  - apply Permutation_sym, Permutation_map, summary_permutation.
  - rewrite map_map.
    erewrite map_ext; [|intros k; apply summarise_key].
    rewrite map_id. apply distinct_keys_NoDup.
Qed.

(** X23: when every route has a rank and routes of different groups have
    different ranks, as the ranks 1, ..., N of the first script have, the
    rows of the summary stand in strictly increasing first-encounter
    order: no two groups tie. *)
Theorem summary_strictly_ordered_by_first_encounter (df : list row) :
  (forall r, In r df -> Scenic_Loop_Order r <> None) ->
  (forall r1 r2, In r1 df -> In r2 df ->
     Scenic_Loop_Order r1 = Scenic_Loop_Order r2 ->
     group_key r1 = group_key r2) ->
  StronglySorted
    (fun a b => exists x y,
                  first_scenic_order a = Some x
                  /\ first_scenic_order b = Some y /\ (x < y)%Z)
    (create_area_summary_scenic df).
Proof.
  intros Hranked Hinj.
  assert (Hss : StronglySorted (precedes order_leb)
                               (create_area_summary_scenic df)).
  { apply Sorted_StronglySorted.
    - intros a b c. apply order_leb_trans.
    - apply sort_values_sorted, order_leb_total. }
  apply (strengthen_sorted (fun g => (area_Area g, area_Canyon g)) _ _ _ Hss
                           (summary_keys_NoDup df)).
  intros a b Ha Hb Hkey Hab.
  destruct (summary_row df a Ha) as (ka & Hka & ->).
  destruct (summary_row df b Hb) as (kb & Hkb & ->).
  rewrite !summarise_key in Hkey.
  assert (Hsome : forall k, In k (distinct_keys [] df) ->
            exists m r, first_scenic_order (summarise df k) = Some m
                        /\ In r df /\ group_key r = Some k
                        /\ Scenic_Loop_Order r = Some m).
  { intros k Hk.
    destruct (least_member_rank df k) as [Hmin Hnone].
    destruct (first_scenic_order (summarise df k)) as [m|] eqn:Em.
    - destruct (Hmin m eq_refl) as [(r & Hr & Er) _].
      apply filter_In in Hr. destruct Hr as [Hr Hg].
      apply in_group_iff in Hg. exists m, r. auto.
    - exfalso. apply distinct_keys_sound in Hk.
      destruct Hk as (_ & r & Hr & Hg).
      apply (Hranked r Hr). apply (proj1 Hnone eq_refl).
      apply filter_In. split; [assumption | apply in_group_iff, Hg]. }
  destruct (Hsome ka Hka) as (x & r1 & Ex & Hr1 & Hg1 & Er1).
  destruct (Hsome kb Hkb) as (y & r2 & Ey & Hr2 & Hg2 & Er2).
  exists x, y. split; [assumption|]. split; [assumption|].
  unfold precedes, order_leb in Hab. rewrite Ex, Ey in Hab.
  apply Z.leb_le in Hab.
  assert (x <> y).
  { intros ->. apply Hkey.
    assert (E : group_key r1 = group_key r2)
      by (apply Hinj; [assumption | assumption | congruence]).
    congruence. }
  lia.
Qed.

Lemma summary_strictly_ordered_by_first_encounter_witness :
  StronglySorted
    (fun a b => exists x y,
                  first_scenic_order a = Some x
                  /\ first_scenic_order b = Some y /\ (x < y)%Z)
    (create_area_summary_scenic
       [ Row (Str "Route A") (Str "Alpha") (Str "North") None (Some 2%Z);
         Row (Str "Route B") (Str "Beta") (Str "South") None (Some 1%Z) ]).
Proof.
  apply (summary_strictly_ordered_by_first_encounter
           [ Row (Str "Route A") (Str "Alpha") (Str "North") None (Some 2%Z);
             Row (Str "Route B") (Str "Beta") (Str "South") None
                 (Some 1%Z) ]).
  - intros r [<- | [<- | []]]; discriminate.
  - intros r1 r2 [<- | [<- | []]] [<- | [<- | []]]; simpl;
      try reflexivity; discriminate.
Defined.

End AreaOrderProperties.

Section MeanProgressProperties.

Import Pandas Scoring AreaSummary.
Local Open Scope string_scope.
Local Open Scope Q_scope.

Lemma Qlt_bool_iff (a b : Q) : Qlt_bool a b = true <-> a < b.
Proof.
  unfold Qlt_bool. rewrite negb_true_iff. split.
  - intros H. apply Qnot_le_lt. intros Hle.
    apply Qle_bool_iff in Hle. congruence.
  - intros H. destruct (Qle_bool b a) eqn:E; [|reflexivity].
    apply Qle_bool_iff in E. lra.
Qed.

Lemma round_half_even_near (y : Q) :
  - (1 # 2) <= inject_Z (round_half_even y) - y <= 1 # 2.
Proof.
  unfold round_half_even.
  pose proof (Qfloor_le y) as Hlo. pose proof (Qlt_floor y) as Hhi.
  rewrite inject_Z_plus in Hhi. change (inject_Z 1) with 1 in Hhi.
  set (f := Qfloor y) in *.
  destruct (Qlt_bool (y - inject_Z f) (1 # 2)) eqn:E1.
  { apply Qlt_bool_iff in E1. split; lra. }
  assert (H1 : 1 # 2 <= y - inject_Z f).
  { apply Qnot_lt_le. intros H. apply Qlt_bool_iff in H. congruence. }
  assert (Hup : - (1 # 2) <= inject_Z (f + 1) - y <= 1 # 2).
  { rewrite inject_Z_plus. change (inject_Z 1) with 1. split; lra. }
  destruct (Qlt_bool (1 # 2) (y - inject_Z f)) eqn:E2; [exact Hup|].
  assert (H2 : y - inject_Z f <= 1 # 2).
  { apply Qnot_lt_le. intros H. apply Qlt_bool_iff in H. congruence. }
  destruct (Z.even f); [split; lra | exact Hup].
Qed.

Lemma round_half_even_between (y : Q) (lo hi : Z) :
  inject_Z lo <= y <= inject_Z hi ->
  (lo <= round_half_even y <= hi)%Z.
Proof.
  intros [Hlo Hhi].
  assert (Hf : (lo <= Qfloor y)%Z).
  { rewrite <- (Qfloor_Z lo). apply Qfloor_resp_le. assumption. }
  pose proof (Qfloor_le y) as Hfy.
  assert (Hstep : 0 < y - inject_Z (Qfloor y) -> (Qfloor y + 1 <= hi)%Z).
  { intros Hpos.
    assert (Hlt : inject_Z (Qfloor y) < inject_Z hi) by lra.
    rewrite <- Zlt_Qlt in Hlt. lia. }
  assert (Hfh : (Qfloor y <= hi)%Z).
  { rewrite Zle_Qle. lra. }
  unfold round_half_even.
  destruct (Qlt_bool (y - inject_Z (Qfloor y)) (1 # 2)) eqn:E1; [lia|].
  assert (H1 : 1 # 2 <= y - inject_Z (Qfloor y)).
  { apply Qnot_lt_le. intros H. apply Qlt_bool_iff in H. congruence. }
  assert (Hs : (Qfloor y + 1 <= hi)%Z) by (apply Hstep; lra).
  destruct (Qlt_bool (1 # 2) _); [lia|]. destruct (Z.even _); lia.
Qed.

Lemma round4_value (x : Q) :
  round4 x == inject_Z (round_half_even (x * 10000)) / 10000.
Proof. unfold round4. apply Qred_correct. Qed.

Lemma round4_near (x : Q) : - (1 # 20000) <= round4 x - x <= 1 # 20000.
Proof.
  rewrite round4_value.
  pose proof (round_half_even_near (x * 10000)) as H.
  set (n := inject_Z (round_half_even (x * 10000))) in *.
  assert (E : n / 10000 == n * (1 # 10000)) by (field).
  rewrite E. split; lra.
Qed.

Lemma round4_unit_interval (x : Q) : 0 <= x <= 1 -> 0 <= round4 x <= 1.
Proof.
  intros Hx. rewrite round4_value.
  assert (H : (0 <= round_half_even (x * 10000) <= 10000)%Z).
  { apply round_half_even_between. change (inject_Z 0) with 0.
    change (inject_Z 10000) with 10000. split; lra. }
  destruct H as [H0 H1]. rewrite Zle_Qle in H0, H1.
  change (inject_Z 0) with 0 in H0. change (inject_Z 10000) with 10000 in H1.
  set (n := inject_Z (round_half_even (x * 10000))) in *.
  assert (E : n / 10000 == n * (1 # 10000)) by (field).
  rewrite E. split; lra.
Qed.

Lemma Qsum_unit_interval (xs : list Q) :
  (forall x, In x xs -> 0 <= x <= 1) ->
  0 <= Qsum xs <= inject_Z (Z.of_nat (List.length xs)).
Proof.
  induction xs as [|x xs IH]; intros H.
  - simpl. change (inject_Z 0) with 0. split; lra.
  - destruct (IH (fun y Hy => H y (or_intror Hy))) as [IH0 IH1].
    destruct (H x (or_introl eq_refl)) as [Hx0 Hx1].
    change (Qsum (x :: xs)) with (x + Qsum xs).
    change (List.length (x :: xs)) with (S (List.length xs)).
    rewrite Nat2Z.inj_succ, <- Z.add_1_r, inject_Z_plus.
    change (inject_Z 1) with 1. split; lra.
Qed.

Lemma mean_unit_interval (xs : list Q) :
  xs <> [] -> (forall x, In x xs -> 0 <= x <= 1) ->
  0 <= Qsum xs / inject_Z (Z.of_nat (List.length xs)) <= 1.
Proof.
  intros Hne H. destruct (Qsum_unit_interval xs H) as [H0 H1].
  assert (Hn : 0 < inject_Z (Z.of_nat (List.length xs))).
  { change 0 with (inject_Z 0). rewrite <- Zlt_Qlt.
    destruct xs; [contradiction | simpl; lia]. }
  split.
  - apply Qle_shift_div_l; [assumption | lra].
  - apply Qle_shift_div_r; [assumption | lra].
Qed.

Lemma agg_mean_spec (column : list (option Q)) :
  match agg_mean column with
  | Some mean =>
      present column <> []
      /\ mean = Qsum (present column)
                / inject_Z (Z.of_nat (List.length (present column)))
  | None => forall x, ~ In (Some x) column
  end.
Proof.
  unfold agg_mean. destruct (present column) as [|x xs] eqn:E.
  - intros z Hz. apply present_In in Hz. rewrite E in Hz. contradiction.
  - split; [discriminate | reflexivity].
Qed.

Lemma avg_path_position_summarise (df : list row) (k : string * string) :
  avg_path_position (summarise df k)
  = option_map round4
      (agg_mean (map Path_Position (filter (in_group k) df))).
Proof. destruct k. reflexivity. Qed.

(** X24: the mean progress of a summary row is within half a unit of the
    fourth decimal of the exact mean of the group's progress values, it is
    in the unit interval when these are, and it is NaN exactly when no
    route of the group has a progress value. *)
Theorem mean_progress_is_rounded_mean (df : list row) (g : area) :
  In g (create_area_summary_scenic df) ->
  let members := filter (in_group (area_Area g, area_Canyon g)) df in
  (forall mean, agg_mean (map Path_Position members) = Some mean ->
     exists avg,
       avg_path_position g = Some avg
       /\ - (1 # 20000) <= avg - mean <= 1 # 20000
       /\ ((forall r p, In r members -> Path_Position r = Some p ->
              0 <= p <= 1) ->
           0 <= mean <= 1 /\ 0 <= avg <= 1))
  /\ (avg_path_position g = None <->
      forall r, In r members -> Path_Position r = None).
Proof.
  intros Hg. destruct (summary_row df g Hg) as (k & _ & ->).
  rewrite summarise_key. intros members.
  rewrite avg_path_position_summarise. fold members.
  pose proof (agg_mean_spec (map Path_Position members)) as H.
  destruct (agg_mean (map Path_Position members)) as [mean|].
  - destruct H as [Hne Emean]. split.
    + intros mean' [= <-]. exists (round4 mean). split; [reflexivity|].
      split; [apply round4_near|].
      intros Hunit.
      assert (Hm : 0 <= mean <= 1).
      { rewrite Emean. apply mean_unit_interval; [assumption|].
        intros x Hx. apply present_In, in_map_iff in Hx.
        destruct Hx as (r & Er & Hr). apply (Hunit r x Hr Er). }
      split; [assumption | apply round4_unit_interval; assumption].
    + split; [discriminate|]. intros Hall. exfalso.
      destruct (present (map Path_Position members)) as [|x xs] eqn:E;
        [apply Hne; reflexivity|].
      assert (Hx : In (Some x) (map Path_Position members))
        by (apply present_In; rewrite E; left; reflexivity).
      apply in_map_iff in Hx. destruct Hx as (r & Er & Hr).
      rewrite (Hall r Hr) in Er. discriminate.
  - split; [discriminate|]. split; [|reflexivity]. intros _ r Hr.
    destruct (Path_Position r) as [p|] eqn:Ep; [|reflexivity].
    exfalso. apply (H p). rewrite <- Ep. apply in_map. assumption.
Qed.

Lemma mean_progress_is_rounded_mean_witness :
  let df := [ Row (Str "Route A") (Str "Calico Basin")
                  (Str "First Pullout") (Some 0.12345) (Some 1%Z);
              Row (Str "Route B") (Str "Red Springs")
                  (Str "Calico Hills") (Some 0.5) (Some 2%Z);
              Row (Str "Route C") (Str "Calico Basin")
                  (Str "First Pullout") (Some 0.12346) (Some 3%Z) ] in
  let g := AreaRow "Calico Basin" "First Pullout" 2
                   (Some (247 # 2000)) (Some 1%Z) in
  exists mean avg,
    agg_mean (map Path_Position
                (filter (in_group (area_Area g, area_Canyon g)) df))
    = Some mean
    /\ mean == 0.123455
    /\ avg_path_position g = Some avg
    /\ - (1 # 20000) <= avg - mean <= 1 # 20000
    /\ 0 <= avg <= 1.
Proof.
  intros df g.
  destruct (mean_progress_is_rounded_mean df g) as [H _].
  - left. reflexivity.
  - eexists.
    destruct (H _ eq_refl) as (avg & E & Hnear & Hunit).
    exists avg. split; [reflexivity|]. split; [reflexivity|].
    split; [exact E|]. split; [exact Hnear|].
    apply Hunit. intros r p Hr Ep.
    apply filter_In in Hr. destruct Hr as [[<- | [<- | [<- | []]]] Hg];
      try discriminate; injection Ep as <-; split; lra.
Defined.

End MeanProgressProperties.
